(** * Coin Collector: authoritative server and predicting client

    A shallow embedding of [server/server.js], [server/config.js] and
    [client/client.js].

    Numbers.  JavaScript numbers that the program only ever produces as
    integers (millisecond clocks, sequence numbers, scores, tick counters)
    are [Z].  Positions, directions and interpolation fractions are real
    numbers [R]: the embedding is of the arithmetic the program writes
    down, not of its IEEE-754 rounding.

    Objects.  A JavaScript object used as a dictionary ([players], [coins])
    and the [sockets] map are association lists in insertion order, which
    is the order [for ... in], [Object.keys], [Object.values] and
    [Map.prototype.entries] enumerate (the keys are uuids and connection
    handles, never array indices).

    Environment.  [Date.now()], [Math.random()] and [uuidv4()] are inputs
    of the handler that calls them, gathered in a record [Env]. *)

From Stdlib Require Import Reals Lra Lia ZArith List String Bool.
From Stdlib Require Import Sorting.Sorted Permutation.
Import ListNotations.

Local Open Scope Z_scope.

(** ** JavaScript objects as ordered dictionaries *)

Module Obj.

Definition t (V : Type) : Type := list (string * V).

Section Ops.
Context {V : Type}.

(** [o[k]] *)
Fixpoint get (o : t V) (k : string) : option V :=
  match o with
  | [] => None
  | (k', v) :: o' => if String.eqb k' k then Some v else get o' k
  end.

(** [o[k] = v]: an existing key keeps its place, a new key goes last. *)
Fixpoint set (o : t V) (k : string) (v : V) : t V :=
  match o with
  | [] => [(k, v)]
  | (k', v') :: o' =>
      if String.eqb k' k then (k, v) :: o' else (k', v') :: set o' k v
  end.

(** [delete o[k]] *)
Fixpoint del (o : t V) (k : string) : t V :=
  match o with
  | [] => []
  | (k', v') :: o' =>
      if String.eqb k' k then del o' k else (k', v') :: del o' k
  end.

(** [Object.keys(o)] and [Object.values(o)] *)
Definition keys (o : t V) : list string := map fst o.
Definition values (o : t V) : list V := map snd o.

Definition has (o : t V) (k : string) : bool :=
  match get o k with Some _ => true | None => false end.

(** The representation invariant of an object: one entry per key. *)
Definition wf (o : t V) : Prop := NoDup (keys o).
End Ops.

End Obj.

(** [!s] for a string: the empty string is the only falsy one. *)
Definition truthy (s : string) : bool :=
  match s with EmptyString => false | _ => true end.

(** [Number(v) || 0] for a field [v] whose [Number(v)] is [Some r], or is
    [NaN] ([None]: the field is missing or not numeric). *)
Definition numberOr0 (v : option R) : R :=
  match v with Some r => r | None => 0%R end.

Definition numberOr0Z (v : option Z) : Z :=
  match v with Some z => z | None => 0 end.

(** ** config.js *)

Module cfg.
Definition PORT : Z := 8081.
Definition TICK_RATE : R := 20.
Definition LATENCY_MS : Z := 200.
Definition LATENCY_JITTER_MS : Z := 10.
Definition MAP_WIDTH : R := 800.
Definition MAP_HEIGHT : R := 600.
Definition PLAYER_SPEED : R := 120.
Definition PICKUP_RADIUS : R := 16.
Definition COIN_SPAWN_INTERVAL_MS : Z := 2500.
Definition MAX_COINS : nat := 10.
Definition SNAPSHOT_BROADCAST_RATE : Z := 1.
Definition MAX_PLAYERS : nat := 8.
End cfg.

(** ** The delay queue

    Both queues are arrays of [{ deliverAt, ws, raw | packet }]; the third
    field is [payload] here. *)

Module Queue.

Record Item (A : Type) : Type := mkItem
  { deliverAt : Z; ws : string; payload : A }.
Arguments mkItem {A}.
Arguments deliverAt {A}.
Arguments ws {A}.
Arguments payload {A}.

Section Ops.
Context {A : Type}.

(** [q.sort((a, b) => a.deliverAt - b.deliverAt)]: ascending and, as
        [Array.prototype.sort] is, stable. *)
Fixpoint insert (x : Item A) (q : list (Item A)) : list (Item A) :=
  match q with
  | [] => [x]
  | y :: q' =>
      if deliverAt x <=? deliverAt y then x :: y :: q'
      else y :: insert x q'
  end.

Fixpoint sort (q : list (Item A)) : list (Item A) :=
  match q with
  | [] => []
  | x :: q' => insert x (sort q')
  end.

(** [while (q.length && q[0].deliverAt <= now) { item = q.shift(); ... }]:
    the items shifted, in order, and what stays in the queue. *)
Fixpoint drain (now : Z) (q : list (Item A))
  : list (Item A) * list (Item A) :=
  match q with
  | [] => ([], [])
  | it :: q' =>
      if deliverAt it <=? now
      then let (out, rest) := drain now q' in (it :: out, rest)
      else ([], q)
  end.

Definition due (now : Z) (it : Item A) : bool := deliverAt it <=? now.

Definition sorted (q : list (Item A)) : Prop :=
  Sorted (fun a b => deliverAt a <= deliverAt b) q.
End Ops.

End Queue.

(** ** Server data: server.js, "Game state" *)

(** The stored movement intent [{ seq, dx, dy, ts }].  [dx] and [dy] are
    read back through [Number(...) || 0] by the tick, so they are kept as
    the result of [Number]: [None] where it is [NaN]. *)
Module Input.
Record t : Type := mk
  { seq : Z; dx : option R; dy : option R; ts : option Z }.
End Input.

Module Player.
Record t : Type := mk
  { id : string; name : string;
    x : R; y : R; vx : R; vy : R;
    score : Z;
    lastInput : option Input.t;   (* [None]: no stored intent *)
    lastSeen : Z }.

Definition with_pos (p : t) (x' y' : R) : t :=
  mk (id p) (name p) x' y' (vx p) (vy p) (score p) (lastInput p) (lastSeen p).
Definition with_score (p : t) (sc : Z) : t :=
  mk (id p) (name p) (x p) (y p) (vx p) (vy p) sc (lastInput p) (lastSeen p).
Definition with_input (p : t) (i : Input.t) (seen : Z) : t :=
  mk (id p) (name p) (x p) (y p) (vx p) (vy p) (score p) (Some i) seen.
End Player.

Module Coin.
Record t : Type := mk { id : string; x : R; y : R }.
End Coin.

(** Messages of the wire protocol. *)

(** A player as [join_ack] lists it. *)
Record AckPlayer : Type := mkAckPlayer
  { ack_id : string; ack_name : string; ack_x : R; ack_y : R; ack_score : Z }.

(** A player as a snapshot lists it. *)
Module SnapPlayer.
Record t : Type := mk
  { id : string; name : string; x : R; y : R; score : Z; lastInputSeq : Z }.
End SnapPlayer.

Module Snapshot.
Record t : Type := mk
  { serverTick : Z; serverTime : Z;
    players : list SnapPlayer.t; coins : list Coin.t }.
End Snapshot.

Inductive Packet : Type :=
| welcome (serverTime : Z)
| join_reject (reason : string)
| join_ack (id : string) (serverTime : Z) (width height : R)
    (players : list AckPlayer) (coins : list Coin.t)
| pong (ts : option Z) (serverTime : Z)
| snapshot (snap : Snapshot.t).

(** What [JSON.parse(item.raw)] gives once [handleClientMessage] has
    looked at [msg.type]; numeric fields are the result of [Number]. *)
Inductive ClientMsg : Type :=
| msg_join (name : option string)
| msg_input (seq : option Z) (dx dy : option R) (ts : option Z)
| msg_ping (ts : option Z)
| msg_other.

(** A raw frame: [None] when [JSON.parse] throws, or the value is falsy or
    has no string [type]. *)
Definition Raw : Type := option ClientMsg.

(** The values one handler run draws from its environment. *)
Record Env : Type := mkEnv
  { now : Z;                  (* Date.now() *)
    uuid : string;            (* uuidv4() *)
    rnd_x : R; rnd_y : R;     (* Math.random(), in [0, 1) *)
    jitter : string -> Z      (* Math.floor((Math.random() - 0.5) * 2 * LATENCY_JITTER),
                             for the packet queued to a connection *) }.

(** The movement direction: the block
    [len = Math.hypot(dx, dy); if (len > 0.0001) { ndx = dx / len; ndy = dy / len }]
    that [gameTick], [processSnapshotForReconciliation] and
    [localPredictionStep] each spell out. *)
Definition hypot (a b : R) : R := sqrt (a * a + b * b).

Definition unitDir (dx dy : R) : R * R :=
  let len := hypot dx dy in
  if Rlt_dec 0.0001 len then (dx / len, dy / len)%R else (0, 0)%R.

Module Server.

Definition PORT := cfg.PORT.
Definition TICK_RATE := cfg.TICK_RATE.
Definition MS_PER_TICK : R := (1000 / TICK_RATE)%R.
Definition ONE_WAY_LATENCY := cfg.LATENCY_MS.
Definition LATENCY_JITTER := cfg.LATENCY_JITTER_MS.
Definition PLAYER_SPEED := cfg.PLAYER_SPEED.
Definition PICKUP_RADIUS := cfg.PICKUP_RADIUS.
Definition MAP_W := cfg.MAP_WIDTH.
Definition MAP_H := cfg.MAP_HEIGHT.
Definition COIN_SPAWN_INTERVAL_MS := cfg.COIN_SPAWN_INTERVAL_MS.
Definition MAX_COINS := cfg.MAX_COINS.

Record State : Type := mkState
  { players : Obj.t Player.t;                  (* playerId -> player *)
    coins : Obj.t Coin.t;                      (* coinId -> coin *)
    sockets : Obj.t (option string);           (* ws -> playerId | null *)
    incomingQueue : list (Queue.Item Raw);
    outgoingQueue : list (Queue.Item Packet);
    serverTick : Z;
    lastCoinSpawn : Z;
    clients : Obj.t bool     (* wss.clients: ws -> readyState === OPEN *) }.

Definition init (t0 : Z) : State := mkState [] [] [] [] [] 0 t0 [].

Definition set_players (s : State) (v : Obj.t Player.t) : State :=
  mkState v (coins s) (sockets s) (incomingQueue s) (outgoingQueue s)
    (serverTick s) (lastCoinSpawn s) (clients s).
Definition set_coins (s : State) (v : Obj.t Coin.t) : State :=
  mkState (players s) v (sockets s) (incomingQueue s) (outgoingQueue s)
    (serverTick s) (lastCoinSpawn s) (clients s).
Definition set_sockets (s : State) (v : Obj.t (option string)) : State :=
  mkState (players s) (coins s) v (incomingQueue s) (outgoingQueue s)
    (serverTick s) (lastCoinSpawn s) (clients s).
Definition set_incomingQueue (s : State) (v : list (Queue.Item Raw)) : State :=
  mkState (players s) (coins s) (sockets s) v (outgoingQueue s)
    (serverTick s) (lastCoinSpawn s) (clients s).
Definition set_outgoingQueue (s : State) (v : list (Queue.Item Packet))
  : State :=
  mkState (players s) (coins s) (sockets s) (incomingQueue s) v
    (serverTick s) (lastCoinSpawn s) (clients s).
Definition set_serverTick (s : State) (v : Z) : State :=
  mkState (players s) (coins s) (sockets s) (incomingQueue s)
    (outgoingQueue s) v (lastCoinSpawn s) (clients s).
Definition set_lastCoinSpawn (s : State) (v : Z) : State :=
  mkState (players s) (coins s) (sockets s) (incomingQueue s)
    (outgoingQueue s) (serverTick s) v (clients s).

Definition set_clients (s : State) (v : Obj.t bool) : State :=
  mkState (players s) (coins s) (sockets s) (incomingQueue s)
    (outgoingQueue s) (serverTick s) (lastCoinSpawn s) v.

(** *** Latency simulation *)

Definition sendWithLatency (e : Env) (s : State) (ws : string)
  (packet : Packet) : State :=
  let deliverAt := now e + ONE_WAY_LATENCY + jitter e ws in
  set_outgoingQueue s (outgoingQueue s ++ [Queue.mkItem deliverAt ws packet]).

Definition queueIncoming (e : Env) (s : State) (ws : string) (raw : Raw)
  : State :=
  let deliverAt := now e + ONE_WAY_LATENCY + jitter e ws in
  set_incomingQueue s (incomingQueue s ++ [Queue.mkItem deliverAt ws raw]).

(** [ws.readyState === WebSocket.OPEN].  The socket library keeps
    [wss.clients]: a connection enters it, open, with its [connection]
    event, stops being open when [ws.close()] is called on it, and leaves
    it when it has closed.  [sockets] plays no part: a join frame handled
    after its connection closed puts the connection back into [sockets],
    not into [wss.clients]. *)
Definition isOpen (s : State) (ws : string) : bool :=
  match Obj.get (clients s) ws with
  | Some true => true
  | _ => false
  end.

(** The 10 ms flush timer: the packets handed to [ws.send], and the state
    after. *)
Definition flushOutgoing (now : Z) (s : State)
  : list (Queue.Item Packet) * State :=
  let (out, rest) := Queue.drain now (outgoingQueue s) in
  (filter (fun it => isOpen s (Queue.ws it)) out, set_outgoingQueue s rest).

Definition sortQueues (s : State) : State :=
  set_outgoingQueue
    (set_incomingQueue s (Queue.sort (incomingQueue s)))
    (Queue.sort (outgoingQueue s)).

(** *** Connection events *)

Definition onConnection (e : Env) (s : State) (ws : string) : State :=
  let s0 := set_clients s (Obj.set (clients s) ws true) in
  let s1 := set_sockets s0 (Obj.set (sockets s0) ws None) in
  sendWithLatency e s1 ws (welcome (now e)).

Definition onMessage (e : Env) (s : State) (ws : string) (raw : Raw)
  : State :=
  sortQueues (queueIncoming e s ws raw).

Definition onClose (s : State) (ws : string) : State :=
  let pid := Obj.get (sockets s) ws in
  let s0 := set_clients s (Obj.del (clients s) ws) in
  let s1 := set_sockets s0 (Obj.del (sockets s0) ws) in
  match pid with
  | Some (Some pid) =>
      if truthy pid && Obj.has (players s1) pid
      then set_players s1 (Obj.del (players s1) pid)
      else s1
  | _ => s1
  end.

(** *** handleClientMessage *)

Definition ackOf (p : Player.t) : AckPlayer :=
  mkAckPlayer (Player.id p) (Player.name p) (Player.x p) (Player.y p)
    (Player.score p).

Definition handleClientMessage (e : Env) (s : State) (ws : string)
  (msg : Raw) : State :=
  match msg with
  | None => s
  | Some (msg_join name) =>
      if (cfg.MAX_PLAYERS <=? List.length (Obj.keys (players s)))%nat
      then sendWithLatency e s ws (join_reject "server_full")
      else
        let id := uuid e in
        let x := (rnd_x e * (MAP_W - 40) + 20)%R in
        let y := (rnd_y e * (MAP_H - 40) + 20)%R in
        let name' :=
          match name with
          | Some n =>
              if truthy n then n
              else String.append "player-" (substring 0 4 id)
          | None => String.append "player-" (substring 0 4 id)
          end in
        let p :=
          Player.mk id name' x y 0 0 0
            (Some (Input.mk 0 (Some 0%R) (Some 0%R) None)) (now e) in
        let s1 := set_players s (Obj.set (players s) id p) in
        let s2 := set_sockets s1 (Obj.set (sockets s1) ws (Some id)) in
        sendWithLatency e s2 ws
          (join_ack id (now e) MAP_W MAP_H
             (map ackOf (Obj.values (players s2)))
             (Obj.values (coins s2)))
  | Some (msg_input mseq mdx mdy mts) =>
      match Obj.get (sockets s) ws with
      | Some (Some pid) =>
          if truthy pid then
            match Obj.get (players s) pid with
            | Some p =>
                let seq := numberOr0Z mseq in
                let dx := Rmax (-1) (Rmin 1 (numberOr0 mdx)) in
                let dy := Rmax (-1) (Rmin 1 (numberOr0 mdy)) in
                match Player.lastInput p with
                | Some last =>
                    if seq <=? Input.seq last then s
                    else
                      let ts :=
                        match mts with
                        | Some t => if t =? 0 then now e else t
                        | None => now e
                        end in
                      set_players s
                        (Obj.set (players s) pid
                           (Player.with_input p
                              (Input.mk seq (Some dx) (Some dy) (Some ts))
                              (now e)))
                | None => s   (* reading [.seq] throws; the caller catches *)
                end
            | None => s
            end
          else s
      | _ => s
      end
  | Some (msg_ping mts) => sendWithLatency e s ws (pong mts (now e))
  | Some msg_other => s
  end.

(** [processIncomingQueue]: the frames shifted are handled in order, the
    [i]-th with the environment [envs i]. *)
Fixpoint handleAll (envs : nat -> Env) (i : nat) (s : State)
  (items : list (Queue.Item Raw)) : State :=
  match items with
  | [] => s
  | it :: items' =>
      handleAll envs (S i)
        (handleClientMessage (envs i) s (Queue.ws it) (Queue.payload it))
        items'
  end.

Definition processIncomingQueue (now : Z) (envs : nat -> Env) (s : State)
  : State :=
  let (out, rest) := Queue.drain now (incomingQueue s) in
  handleAll envs 0 (set_incomingQueue s rest) out.

(** *** gameTick *)

(** Step 1 for one player: the displacement [(actualDx, actualDy)] the
    tick adds to the position before it clamps to the map. *)
Definition moveDist : R := (PLAYER_SPEED * (MS_PER_TICK / 1000))%R.
Definition maxAllowedMove : R := (moveDist * 1.2)%R.

Definition intended (p : Player.t) : R * R :=
  match Player.lastInput p with
  | Some input => (numberOr0 (Input.dx input), numberOr0 (Input.dy input))
  | None => (0, 0)%R                      (* [p.lastInput || { dx: 0, dy: 0 }] *)
  end.

Definition displacement (p : Player.t) : R * R :=
  let '(intendedDx, intendedDy) := intended p in
  let '(ndx, ndy) := unitDir intendedDx intendedDy in
  let dx := (ndx * moveDist)%R in
  let dy := (ndy * moveDist)%R in
  let actualDx := Rmax (- maxAllowedMove) (Rmin maxAllowedMove dx) in
  let actualDy := Rmax (- maxAllowedMove) (Rmin maxAllowedMove dy) in
  (actualDx, actualDy).

Definition movePlayer (p : Player.t) : Player.t :=
  let '(actualDx, actualDy) := displacement p in
  let x1 := (Player.x p + actualDx)%R in
  let y1 := (Player.y p + actualDy)%R in
  Player.with_pos p
    (Rmax (0 + 8) (Rmin (MAP_W - 8) x1))
    (Rmax (0 + 8) (Rmin (MAP_H - 8) y1)).

Definition movePlayers (ps : Obj.t Player.t) : Obj.t Player.t :=
  map (fun kp => (fst kp, movePlayer (snd kp))) ps.

(** Step 2.  [pickedCoins] entries are [{ coinId, by }]. *)
Record Pick : Type := mkPick { coinId : string; by_ : string }.

Definition dist2 (p : Player.t) (coin : Coin.t) : R :=
  ((Player.x p - Coin.x coin) * (Player.x p - Coin.x coin)
   + (Player.y p - Coin.y coin) * (Player.y p - Coin.y coin))%R.

Definition inReach (p : Player.t) (coin : Coin.t) : bool :=
  if Rle_dec (dist2 p coin) (PICKUP_RADIUS * PICKUP_RADIUS) then true
  else false.

(** The inner loop over [players] for one coin: the first player in reach
    has its score incremented and the loop breaks. *)
Fixpoint award (coin : Coin.t) (ps : Obj.t Player.t)
  : option (string * Obj.t Player.t) :=
  match ps with
  | [] => None
  | (pid, p) :: ps' =>
      if inReach p coin
      then Some (pid, (pid, Player.with_score p (Player.score p + 1)) :: ps')
      else
        match award coin ps' with
        | Some (w, ps'') => Some (w, (pid, p) :: ps'')
        | None => None
        end
  end.

(** The outer loop over [coins]: players after, coins left, [pickedCoins]. *)
Fixpoint resolveCoins (ps : Obj.t Player.t) (cs : Obj.t Coin.t)
  : Obj.t Player.t * Obj.t Coin.t * list Pick :=
  match cs with
  | [] => (ps, [], [])
  | (cid, coin) :: cs' =>
      match award coin ps with
      | Some (pid, ps1) =>
          let '(ps2, cs2, picked) := resolveCoins ps1 cs' in
          (ps2, cs2, mkPick cid pid :: picked)
      | None =>
          let '(ps2, cs2, picked) := resolveCoins ps cs' in
          (ps2, (cid, coin) :: cs2, picked)
      end
  end.

Definition maybeSpawnCoin (e : Env) (s : State) : State :=
  if (MAX_COINS <=? List.length (Obj.keys (coins s)))%nat then s
  else
    let id := uuid e in
    let margin := 20%R in
    let x := (rnd_x e * (MAP_W - margin * 2) + margin)%R in
    let y := (rnd_y e * (MAP_H - margin * 2) + margin)%R in
    set_coins s (Obj.set (coins s) id (Coin.mk id x y)).

(** An entry of [snap.players].  Reading [p.lastInput.seq] of a player
    without a stored intent throws; every player the server creates has
    one, and the value 0 given here for the other case is never used in a
    state the server reaches. *)
Definition snapOf (p : Player.t) : SnapPlayer.t :=
  SnapPlayer.mk (Player.id p) (Player.name p) (Player.x p) (Player.y p)
    (Player.score p)
    (match Player.lastInput p with Some i => Input.seq i | None => 0 end).

Definition broadcastSnapshot (e : Env) (s : State) : State :=
  let snap :=
    Snapshot.mk (serverTick s) (now e)
      (map snapOf (Obj.values (players s))) (Obj.values (coins s)) in
  fold_left
    (fun acc ws => if isOpen s ws then sendWithLatency e acc ws (snapshot snap)
                   else acc)
    (Obj.keys (clients s)) s.

(** The players, the coins and [pickedCoins] after steps 1 and 2. *)
Definition simulate (s : State)
  : Obj.t Player.t * Obj.t Coin.t * list Pick :=
  resolveCoins (movePlayers (players s)) (coins s).

Definition gameTick (e : Env) (s : State) : State :=
  let s0 := set_serverTick s (serverTick s + 1) in
  let '(ps, cs, _) := simulate s0 in
  let s2 := set_coins (set_players s0 ps) cs in
  let s3 :=
    if COIN_SPAWN_INTERVAL_MS <=? now e - lastCoinSpawn s2
    then maybeSpawnCoin e (set_lastCoinSpawn s2 (now e))
    else s2 in
  if serverTick s3 mod cfg.SNAPSHOT_BROADCAST_RATE =? 0
  then broadcastSnapshot e s3
  else s3.

(** *** Housekeeping: the 10 s sweep *)

Definition stale (now : Z) (p : Player.t) : bool :=
  60000 <? now - Player.lastSeen p.

Definition sweep (now : Z) (s : State) : State :=
  let gone := Obj.keys (filter (fun kp => stale now (snd kp)) (players s)) in
  let keep_ws (kv : string * option string) :=
    match snd kv with
    | Some pid => negb (existsb (String.eqb pid) gone)
    | None => true
    end in
  (* [ws.close()] on each connection dropped: it is no longer open *)
  let closing := Obj.keys (filter (fun kv => negb (keep_ws kv)) (sockets s)) in
  let still (kv : string * bool) :=
    (fst kv, snd kv && negb (existsb (String.eqb (fst kv)) closing)) in
  set_clients
    (set_sockets
       (set_players s
          (filter (fun kp => negb (stale now (snd kp))) (players s)))
       (filter keep_ws (sockets s)))
    (map still (clients s)).

(** *** The server as a transition system: one event per callback *)

Inductive Event : Type :=
| ev_connection (e : Env) (ws : string)
| ev_message (e : Env) (ws : string) (raw : Raw)
| ev_close (ws : string)
| ev_processIncoming (now : Z) (envs : nat -> Env)
| ev_flushOutgoing (now : Z)
| ev_tick (e : Env)
| ev_sweep (now : Z)
| ev_sortQueues
| ev_cliSpawn (e : Env).

Definition step (s : State) (ev : Event) : State :=
  match ev with
  | ev_connection e ws => onConnection e s ws
  | ev_message e ws raw => onMessage e s ws raw
  | ev_close ws => onClose s ws
  | ev_processIncoming now envs => processIncomingQueue now envs s
  | ev_flushOutgoing now => snd (flushOutgoing now s)
  | ev_tick e => gameTick e s
  | ev_sweep now => sweep now s
  | ev_sortQueues => sortQueues s
  | ev_cliSpawn e => maybeSpawnCoin e s
  end.

Definition run (s : State) (evs : list Event) : State := fold_left step evs s.

End Server.

(** ** client.js *)

Module Client.

Definition PLAYER_SPEED : R := 120.
Definition CLIENT_SEND_RATE : R := 50.
Definition INTERPOLATION_DELAY : Z := 220.
Definition SNAPSHOT_BUFFER_MS : Z := 2000.

(** An entry of [pendingInputs]: [{ seq, dx, dy, ts }]. *)
Module Pending.
Record t : Type := mk { seq : Z; dx : R; dy : R; ts : Z }.
End Pending.

Module Local.
Record t : Type := mk { x : R; y : R; score : Z; name : string }.
End Local.

Record State : Type := mkState
  { wsOpen : bool;                  (* [ws && ws.readyState === OPEN] *)
    myId : option string;
    joined : bool;
    currentInput : R * R;           (* [{ dx, dy }] *)
    inputSeq : Z;
    pendingInputs : list Pending.t;
    localState : Local.t;
    snapshotBuffer : list Snapshot.t;
    canvas : R * R                  (* [canvas.width], [canvas.height] *) }.

Definition init (w h : R) : State :=
  mkState false None false (0, 0)%R 0 []
    (Local.mk (w / 2) (h / 2) 0 "") [] (w, h).

Definition set_local (c : State) (l : Local.t) : State :=
  mkState (wsOpen c) (myId c) (joined c) (currentInput c) (inputSeq c)
    (pendingInputs c) l (snapshotBuffer c) (canvas c).
Definition set_pending (c : State) (l : list Pending.t) : State :=
  mkState (wsOpen c) (myId c) (joined c) (currentInput c) (inputSeq c)
    l (localState c) (snapshotBuffer c) (canvas c).
Definition set_buffer (c : State) (b : list Snapshot.t) : State :=
  mkState (wsOpen c) (myId c) (joined c) (currentInput c) (inputSeq c)
    (pendingInputs c) (localState c) b (canvas c).

(** *** Interpolation helpers *)

(** [while (buf.length > 0 && buf[0].serverTime < cutoff) buf.shift()] *)
Fixpoint evict (cutoff : Z) (buf : list Snapshot.t) : list Snapshot.t :=
  match buf with
  | [] => []
  | s :: buf' =>
      if Snapshot.serverTime s <? cutoff then evict cutoff buf' else buf
  end.

Definition pushSnapshot (now : Z) (c : State) (snap : Snapshot.t) : State :=
  let cutoff := now - SNAPSHOT_BUFFER_MS in
  set_buffer c (evict cutoff (snapshotBuffer c ++ [snap])).

Definition lerp (a b t : R) : R := (a + (b - a) * t)%R.

(** *** Reconciliation *)

(** [(snapshot.players || []).find(p => p.id === myId)] *)
Definition findPlayer (id : string) (ps : list SnapPlayer.t)
  : option SnapPlayer.t :=
  find (fun p => String.eqb (SnapPlayer.id p) id) ps.

(** [while (pendingInputs.length && pendingInputs[0].seq <= ackSeq)
       pendingInputs.shift()] *)
Fixpoint dropConfirmed (ackSeq : Z) (l : list Pending.t) : list Pending.t :=
  match l with
  | [] => []
  | i :: l' => if Pending.seq i <=? ackSeq then dropConfirmed ackSeq l' else l
  end.

(** The body of [for (const pi of pendingInputs)]. *)
Definition replayOne (pos : R * R) (i : Pending.t) : R * R :=
  let dt := (CLIENT_SEND_RATE / 1000)%R in
  let '(ndx, ndy) := unitDir (Pending.dx i) (Pending.dy i) in
  (fst pos + ndx * PLAYER_SPEED * dt, snd pos + ndy * PLAYER_SPEED * dt)%R.

Definition replay (pos : R * R) (l : list Pending.t) : R * R :=
  fold_left replayOne l pos.

Definition processSnapshotForReconciliation (c : State) (snap : Snapshot.t)
  : State :=
  match joined c, myId c with
  | true, Some me =>
      if truthy me then
        match findPlayer me (Snapshot.players snap) with
        | None => c
        | Some serverPlayer =>
            (* [serverPlayer.lastInputSeq || 0]: the number itself *)
            let ackSeq := SnapPlayer.lastInputSeq serverPlayer in
            let pending := dropConfirmed ackSeq (pendingInputs c) in
            let serverX := SnapPlayer.x serverPlayer in
            let serverY := SnapPlayer.y serverPlayer in
            let l := localState c in
            let dx := (serverX - Local.x l)%R in
            let dy := (serverY - Local.y l)%R in
            let dist2 := (dx * dx + dy * dy)%R in
            let '(x', y') :=
              if Rlt_dec 0.0001 dist2
              then replay (serverX, serverY) pending
              else (Local.x l, Local.y l) in
            set_local (set_pending c pending)
              (Local.mk x' y' (SnapPlayer.score serverPlayer) (Local.name l))
        end
      else c
  | _, _ => c
  end.

(** *** handleServerMessage *)

Definition handleServerMessage (now : Z) (c : State) (msg : Packet) : State :=
  match msg with
  | welcome _ => c
  | join_ack id _ _ _ ps _ =>
      let l := localState c in
      let l' :=
        match find (fun p => String.eqb (ack_id p) id) ps with
        | Some me => Local.mk (ack_x me) (ack_y me) (ack_score me) (ack_name me)
        | None => l
        end in
      mkState (wsOpen c) (Some id) true (currentInput c) (inputSeq c)
        (pendingInputs c) l' (snapshotBuffer c) (canvas c)
  | join_reject _ => c
  | pong _ _ => c
  | snapshot snap =>
      processSnapshotForReconciliation (pushSnapshot now c snap) snap
  end.

(** *** Input sampling and prediction *)

(** The [CLIENT_SEND_RATE] timer: the packet sent, if any, and the state. *)
Definition sendInput (now : Z) (c : State) : option ClientMsg * State :=
  if negb (wsOpen c) then (None, c)
  else if negb (joined c) then (None, c)
  else
    let seq := inputSeq c + 1 in
    let '(dx, dy) := currentInput c in
    (Some (msg_input (Some seq) (Some dx) (Some dy) (Some now)),
     mkState (wsOpen c) (myId c) (joined c) (currentInput c) seq
       (pendingInputs c ++ [Pending.mk seq dx dy now])
       (localState c) (snapshotBuffer c) (canvas c)).

(** [localPredictionStep], for a frame [dt] seconds after the last one. *)
Definition localPredictionStep (dt : R) (c : State) : State :=
  let '(dx, dy) := currentInput c in
  let '(ndx, ndy) := unitDir dx dy in
  let l := localState c in
  let x1 := (Local.x l + ndx * PLAYER_SPEED * dt)%R in
  let y1 := (Local.y l + ndy * PLAYER_SPEED * dt)%R in
  set_local c
    (Local.mk (Rmax 0 (Rmin (fst (canvas c)) x1))
       (Rmax 0 (Rmin (snd (canvas c)) y1))
       (Local.score l) (Local.name l)).

Definition onOpen (c : State) : State :=
  mkState true (myId c) (joined c) (currentInput c) (inputSeq c)
    (pendingInputs c) (localState c) (snapshotBuffer c) (canvas c).

Definition onClose (c : State) : State :=
  mkState false None false (currentInput c) (inputSeq c)
    (pendingInputs c) (localState c) (snapshotBuffer c) (canvas c).

(** [updateCurrentInputFromKeys] *)
Definition updateCurrentInputFromKeys (up down left right : bool)
  (c : State) : State :=
  let dy := ((if down then 1 else 0) - (if up then 1 else 0))%R in
  let dx := ((if right then 1 else 0) - (if left then 1 else 0))%R in
  mkState (wsOpen c) (myId c) (joined c) (dx, dy) (inputSeq c)
    (pendingInputs c) (localState c) (snapshotBuffer c) (canvas c).

Inductive Event : Type :=
| ev_open
| ev_close
| ev_message (now : Z) (msg : Packet)
| ev_keys (up down left right : bool)
| ev_sendTimer (now : Z)
| ev_frame (dt : R).

Definition step (c : State) (ev : Event) : State :=
  match ev with
  | ev_open => onOpen c
  | ev_close => onClose c
  | ev_message now msg => handleServerMessage now c msg
  | ev_keys u d l r => updateCurrentInputFromKeys u d l r c
  | ev_sendTimer now => snd (sendInput now c)
  | ev_frame dt => localPredictionStep dt c
  end.

Definition run (c : State) (evs : list Event) : State := fold_left step evs c.

(** *** getRemoteEntityPositions *)

(** An entry of the [positions] object: [{ x, y, score, name }]. *)
Module Pos.
Record t : Type := mk { x : R; y : R; score : Z; name : string }.
End Pos.

Definition posOf (p : SnapPlayer.t) : Pos.t :=
  Pos.mk (SnapPlayer.x p) (SnapPlayer.y p) (SnapPlayer.score p)
    (SnapPlayer.name p).

(** The search loop: the first adjacent pair [a, b] of the buffer with
    [a.serverTime <= renderTime <= b.serverTime]. *)
Fixpoint findBracket (renderTime : Z) (buf : list Snapshot.t)
  : option (Snapshot.t * Snapshot.t) :=
  match buf with
  | a :: ((b :: _) as buf') =>
      if (Snapshot.serverTime a <=? renderTime)
         && (renderTime <=? Snapshot.serverTime b)
      then Some (a, b)
      else findBracket renderTime buf'
  | _ => None
  end.

(** [m = {}; ps.forEach(p => m[p.id] = p)] *)
Definition byId (ps : list SnapPlayer.t) : Obj.t SnapPlayer.t :=
  fold_left (fun m p => Obj.set m (SnapPlayer.id p) p) ps [].

(** [new Set([...ks])]: first occurrences, in order. *)
Definition uniq (ks : list string) : list string :=
  fold_left
    (fun acc k => if existsb (String.eqb k) acc then acc else acc ++ [k])
    ks [].

Definition orStr (a b : string) : string := if truthy a then a else b.
Definition orZ (a b : Z) : Z := if a =? 0 then b else a.

(** The body of [allIds.forEach]. *)
Definition blend (mapA mapB : Obj.t SnapPlayer.t) (t : R) (id : string)
  : Pos.t :=
  let pa :=
    match Obj.get mapA id with
    | Some p => posOf p
    | None =>
        Pos.mk 0 0 0
          (match Obj.get mapB id with
           | Some q => orStr (SnapPlayer.name q) "unknown"
           | None => "unknown"
           end)
    end in
  let pb :=
    match Obj.get mapB id with
    | Some q => posOf q
    | None => pa
    end in
  Pos.mk (lerp (Pos.x pa) (Pos.x pb) t) (lerp (Pos.y pa) (Pos.y pb) t)
    (orZ (Pos.score pb) (Pos.score pa))
    (orStr (Pos.name pa) (orStr (Pos.name pb) "unknown")).

Definition fraction (renderTime : Z) (a b : Snapshot.t) : R :=
  (IZR (renderTime - Snapshot.serverTime a)
   / IZR (Z.max 1 (Snapshot.serverTime b - Snapshot.serverTime a)))%R.

Definition getRemoteEntityPositions (renderTime : Z)
  (snapshotBuffer : list Snapshot.t) : option (Obj.t Pos.t) :=
  match snapshotBuffer with
  | [] => None
  | s :: _ =>
      match findBracket renderTime snapshotBuffer with
      | None =>
          let last := List.last snapshotBuffer s in
          Some (fold_left
                  (fun positions p => Obj.set positions (SnapPlayer.id p) (posOf p))
                  (Snapshot.players last) [])
      | Some (a, b) =>
          let t := fraction renderTime a b in
          let mapA := byId (Snapshot.players a) in
          let mapB := byId (Snapshot.players b) in
          let allIds := uniq (Obj.keys mapA ++ Obj.keys mapB) in
          Some (fold_left
                  (fun positions id => Obj.set positions id (blend mapA mapB t id))
                  allIds [])
      end
  end.

End Client.

(** ** Sample data *)

Module Sample.

Local Open Scope string_scope.

Definition e0 : Env := mkEnv 1000 "p1" 0 0 (fun _ => 0).

Definition idle : Input.t := Input.mk 0 (Some 0%R) (Some 0%R) None.

Definition ann : Player.t :=
  Player.mk "p1" "ann" 100 100 0 0 0 (Some idle) 1000.


(** A player holding the right arrow. *)
Definition runner : Player.t :=
  Player.mk "p3" "cat" 100 100 0 0 0
    (Some (Input.mk 7 (Some 1%R) (Some 0%R) (Some 900))) 1000.

(** One connection, bound to one player. *)
Definition oneJoined : Server.State :=
  Server.mkState [("p1", ann)] [] [("c1", Some "p1")] [] [] 0 0
    [("c1", true)].

(** A full server: [MAX_PLAYERS] players. *)
Definition full : Server.State :=
  Server.mkState
    (map (fun k => (k, ann)) ["a"; "b"; "c"; "d"; "e"; "f"; "g"; "h"])
    [] [] [] [] 0 0 [].



(** A client that has joined as [p1] and sent two inputs. *)
Definition clientEvents : list Client.Event :=
  [Client.ev_open;
   Client.ev_message 300
     (join_ack "p1" 100 800 600 [mkAckPlayer "p1" "ann" 100 100 0] []);
   Client.ev_keys false false false true;
   Client.ev_sendTimer 350;
   Client.ev_sendTimer 400].

Definition ownSnapshot : Snapshot.t :=
  Snapshot.mk 9 450 [SnapPlayer.mk "p1" "ann" 106 100 0 1] [].

End Sample.

(** ** Vocabulary of the properties *)

Module Props.

Import Server.

(** Two player tables list the same ids at the same positions. *)
Definition keyPos (kp : string * Player.t) : string * R * R :=
  (fst kp, Player.x (snd kp), Player.y (snd kp)).

Definition samePos (ps ps' : Obj.t Player.t) : Prop :=
  map keyPos ps = map keyPos ps'.

(** What step 2 should record and leave, read off the players it starts
    from: a coin is picked by the first player in reach, and stays if
    there is none. *)
Definition expectedPicks (ps : Obj.t Player.t) (cs : Obj.t Coin.t)
  : list Pick :=
  flat_map
    (fun kc =>
       match option_map fst (find (fun kp => inReach (snd kp) (snd kc)) ps) with
       | Some pid => [mkPick (fst kc) pid]
       | None => []
       end) cs.

Definition expectedLeft (ps : Obj.t Player.t) (cs : Obj.t Coin.t)
  : Obj.t Coin.t :=
  filter
    (fun kc =>
       match option_map fst (find (fun kp => inReach (snd kp) (snd kc)) ps) with
       | Some _ => false
       | None => true
       end) cs.


(** How many entries of [pickedCoins] name a player. *)
Definition picksBy (pid : string) (picked : list Pick) : Z :=
  Z.of_nat (List.length (filter (fun k => String.eqb (by_ k) pid) picked)).

(** A player's position lies in the map inset by the radius 8. *)
Definition inBounds (p : Player.t) : Prop :=
  (8 <= Player.x p <= MAP_W - 8 /\ 8 <= Player.y p <= MAP_H - 8)%R.

(** The sequence number of the intent stored for a player (0 if none). *)
Definition lastSeqOf (s : State) (pid : string) : Z :=
  match Obj.get (players s) pid with
  | Some p =>
      match Player.lastInput p with Some i => Input.seq i | None => 0 end
  | None => 0
  end.

(** Feed input messages carrying the given sequence numbers over one
    connection; the result lists those after which the stored intent of
    the player is a new one. *)
Fixpoint accepted (e : Env) (s : State) (ws pid : string) (seqs : list Z)
  : list Z :=
  match seqs with
  | [] => []
  | q :: seqs' =>
      let s' :=
        handleClientMessage e s ws (Some (msg_input (Some q) None None None)) in
      let rest := accepted e s' ws pid seqs' in
      if lastSeqOf s' pid =? lastSeqOf s pid then rest else q :: rest
  end.

(** The sequence numbers that pass a strictly-greater gate starting at [n]. *)
Fixpoint climb (n : Z) (seqs : list Z) : list Z :=
  match seqs with
  | [] => []
  | q :: seqs' => if n <? q then q :: climb q seqs' else climb n seqs'
  end.

(** The history of a run, as far as scores go: who joined, who picked. *)
Inductive Ghost : Type :=
| g_join (pid : string)
| g_pick (pid : string).

(** Coins picked by [pid] after its latest join, counted on from [base]. *)
Definition tallyStep (pid : string) (n : Z) (g : Ghost) : Z :=
  match g with
  | g_join q => if String.eqb q pid then 0 else n
  | g_pick q => if String.eqb q pid then n + 1 else n
  end.

Definition tally (base : Z) (pid : string) (log : list Ghost) : Z :=
  fold_left (tallyStep pid) log base.

(** Picks by [pid] in a stretch of history. *)
Definition picksIn (pid : string) (log : list Ghost) : Z :=
  Z.of_nat
    (List.length
       (filter (fun g => match g with
                         | g_pick q => String.eqb q pid
                         | g_join _ => false
                         end) log)).

(** Every player's score is the tally of the history, counted on from
    [base]; and the player table is a well-formed object. *)
Definition scoresTallied (base : string -> Z) (s : State) (log : list Ghost)
  : Prop :=
  Obj.wf (players s)
  /\ forall pid p,
       Obj.get (players s) pid = Some p ->
       Player.score p = tally (base pid) pid log.

Definition scoreIn (s : State) (pid : string) : Z :=
  match Obj.get (players s) pid with
  | Some p => Player.score p
  | None => 0
  end.

Definition ghostHandle (e : Env) (s : State) (msg : Raw) : list Ghost :=
  match msg with
  | Some (msg_join _) =>
      if (cfg.MAX_PLAYERS <=? List.length (Obj.keys (players s)))%nat
      then [] else [g_join (uuid e)]
  | _ => []
  end.

Fixpoint ghostAll (envs : nat -> Env) (i : nat) (s : State)
  (items : list (Queue.Item Raw)) : list Ghost :=
  match items with
  | [] => []
  | it :: items' =>
      ghostHandle (envs i) s (Queue.payload it)
      ++ ghostAll envs (S i)
           (handleClientMessage (envs i) s (Queue.ws it) (Queue.payload it))
           items'
  end.

Definition ghost (s : State) (ev : Event) : list Ghost :=
  match ev with
  | ev_processIncoming now envs =>
      let (out, rest) := Queue.drain now (incomingQueue s) in
      ghostAll envs 0 (set_incomingQueue s rest) out
  | ev_tick e =>
      map (fun k => g_pick (by_ k))
        (snd (simulate (set_serverTick s (serverTick s + 1))))
  | _ => []
  end.

Fixpoint ghostRun (s : State) (evs : list Event) : list Ghost :=
  match evs with
  | [] => []
  | ev :: evs' => ghost s ev ++ ghostRun (step s ev) evs'
  end.

End Props.

Module ClientProps.

Import Client.

(** Sequence numbers in [pendingInputs] increase strictly and are at most
    [inputSeq]. *)
Definition pendingOrdered (c : State) : Prop :=
  StronglySorted Z.lt (map Pending.seq (pendingInputs c))
  /\ Forall (fun i => Pending.seq i <= inputSeq c) (pendingInputs c).

End ClientProps.

(** ** Vocabulary of the further properties *)

Module Reach.

Import Server.

(** What the environment can give: [Math.random()] lies in [0, 1), and so
    the jitter [Math.floor((Math.random() - 0.5) * 2 * LATENCY_JITTER)] in
    [-LATENCY_JITTER, LATENCY_JITTER - 1]. *)
Definition envOk (e : Env) : Prop :=
  (0 <= rnd_x e < 1)%R /\ (0 <= rnd_y e < 1)%R
  /\ forall ws, - LATENCY_JITTER <= jitter e ws < LATENCY_JITTER.

(** Every environment an event draws from satisfies [good]. *)
Definition eventAll (good : Env -> Prop) (ev : Event) : Prop :=
  match ev with
  | ev_connection e _ => good e
  | ev_message e _ _ => good e
  | ev_tick e => good e
  | ev_cliSpawn e => good e
  | ev_processIncoming _ envs => forall i, good (envs i)
  | _ => True
  end.

Definition eventOk (ev : Event) : Prop := eventAll envOk ev.

(** The stored intent is there, its components are numbers in [-1, 1] and
    its sequence number is not negative. *)
Definition intentOk (p : Player.t) : Prop :=
  exists i dx dy,
    Player.lastInput p = Some i
    /\ Input.dx i = Some dx /\ Input.dy i = Some dy
    /\ (-1 <= dx <= 1)%R /\ (-1 <= dy <= 1)%R
    /\ 0 <= Input.seq i.

(** A coin lies in the map inset by the spawn margin 20. *)
Definition coinInMargin (c : Coin.t) : Prop :=
  (20 <= Coin.x c <= MAP_W - 20 /\ 20 <= Coin.y c <= MAP_H - 20)%R.

(** Every entry of a table satisfies [Q]. *)
Definition allPlayers {V : Type} (Q : V -> Prop) (o : Obj.t V) : Prop :=
  Forall (fun kv => Q (snd kv)) o.

(** A table is keyed by the ids of its entries, one entry per key. *)
Definition playersKeyed (ps : Obj.t Player.t) : Prop :=
  Obj.wf ps /\ Forall (fun kp => Player.id (snd kp) = fst kp) ps.

Definition coinsKeyed (cs : Obj.t Coin.t) : Prop :=
  Obj.wf cs /\ Forall (fun kc => Coin.id (snd kc) = fst kc) cs.

(** [Math.max(lo, Math.min(hi, v))] *)
Definition clamp (lo hi v : R) : R := Rmax lo (Rmin hi v).

End Reach.

Module ClientMore.

Import Client.

(** [wsSend(obj)]: the frame goes out only on an open socket. *)
Definition wsSend (c : State) (m : ClientMsg) : option ClientMsg :=
  if wsOpen c then Some m else None.


(** The callback of [startPingLoop]. *)
Definition pingTimer (now : Z) (c : State) : option ClientMsg :=
  wsSend c (msg_ping (Some now)).

(** [rtt = now - msg.ts] of the [pong] branch; [None] where it returns
    early or the message is no [pong]. *)
Definition rttOf (now : Z) (msg : Packet) : option Z :=
  match msg with
  | pong (Some ts) _ => Some (now - ts)
  | _ => None
  end.

(** Snapshot times do not decrease along the buffer. *)
Definition bufferOrdered (buf : list Snapshot.t) : Prop :=
  Sorted (fun a b => Snapshot.serverTime a <= Snapshot.serverTime b) buf.

End ClientMore.

(** * Properties *)

(** ** Objects *)

Section ObjFacts.
Context {V : Type}.
Implicit Types (o : Obj.t V) (k : string) (v : V).

Lemma get_set_same o k v : Obj.get (Obj.set o k v) k = Some v.
Proof.
  induction o as [|[k' v'] o IH]; simpl.
  - now rewrite String.eqb_refl.
  - destruct (String.eqb_spec k' k); simpl.
    + now rewrite String.eqb_refl.
    + destruct (String.eqb_spec k' k); [contradiction|exact IH].
Qed.

Lemma get_set_other o k k' v :
  k <> k' -> Obj.get (Obj.set o k v) k' = Obj.get o k'.
Proof.
  intros Hne. induction o as [|[k0 v0] o IH]; simpl.
  - destruct (String.eqb_spec k k'); [contradiction|reflexivity].
  - destruct (String.eqb_spec k0 k) as [->|Hk]; simpl.
    + destruct (String.eqb_spec k k'); [contradiction|reflexivity].
    + now rewrite IH.
Qed.

Lemma get_none_keys o k : Obj.get o k = None <-> ~ In k (Obj.keys o).
Proof.
  induction o as [|[k' v'] o IH]; simpl.
  - tauto.
  - destruct (String.eqb_spec k' k) as [->|Hk].
    + split; [discriminate|intros H; exfalso; apply H; now left].
    + rewrite IH. split; [intros H [E|I]; [congruence|tauto]|tauto].
Qed.

Lemma get_some_in o k v : Obj.get o k = Some v -> In (k, v) o.
Proof.
  induction o as [|[k' v'] o IH]; simpl; [discriminate|].
  destruct (String.eqb_spec k' k) as [->|Hk].
  - intros [= ->]. now left.
  - intros H. right. now apply IH.
Qed.

Lemma in_get_some o k v : Obj.wf o -> In (k, v) o -> Obj.get o k = Some v.
Proof.
  unfold Obj.wf, Obj.keys.
  induction o as [|[k' v'] o IH]; simpl; [tauto|].
  intros Hnd [E|I].
  - injection E as -> ->. now rewrite String.eqb_refl.
  - inversion Hnd as [|? ? Hni Hnd']; subst.
    destruct (String.eqb_spec k' k) as [->|Hk].
    + exfalso. apply Hni. change k with (fst (k, v)). now apply in_map.
    + now apply IH.
Qed.

Lemma set_fresh o k v :
  ~ In k (Obj.keys o) -> Obj.set o k v = o ++ [(k, v)].
Proof.
  induction o as [|[k' v'] o IH]; simpl; [reflexivity|].
  intros H. destruct (String.eqb_spec k' k) as [->|Hk].
  - exfalso. apply H. now left.
  - f_equal. apply IH. tauto.
Qed.

Lemma keys_set_present o k v :
  In k (Obj.keys o) -> Obj.keys (Obj.set o k v) = Obj.keys o.
Proof.
  induction o as [|[k' v'] o IH]; simpl; [tauto|].
  intros H. destruct (String.eqb_spec k' k) as [->|Hk]; simpl.
  - reflexivity.
  - f_equal. apply IH. destruct H; [contradiction|assumption].
Qed.

Lemma wf_set o k v : Obj.wf o -> Obj.wf (Obj.set o k v).
Proof.
  unfold Obj.wf. intros Hwf.
  destruct (in_dec string_dec k (Obj.keys o)) as [Hin|Hni].
  - now rewrite keys_set_present.
  - rewrite set_fresh by assumption. unfold Obj.keys in *.
    rewrite map_app. simpl.
    apply NoDup_app; [assumption|repeat constructor; simpl; tauto|].
    intros a Ha [<-|[]]. contradiction.
Qed.

Lemma keys_filter_incl (f : string * V -> bool) o k :
  In k (Obj.keys (filter f o)) -> In k (Obj.keys o).
Proof.
  unfold Obj.keys. rewrite !in_map_iff.
  intros [kv [E Hin]]. exists kv. split; [assumption|].
  now apply filter_In in Hin.
Qed.

Lemma wf_filter (f : string * V -> bool) o :
  Obj.wf o -> Obj.wf (filter f o).
Proof.
  unfold Obj.wf. induction o as [|[k v] o IH]; simpl; [trivial|].
  intros Hnd. inversion Hnd as [|? ? Hni Hnd']; subst.
  destruct (f (k, v)); simpl; [|now apply IH].
  constructor; [|now apply IH].
  intros Hin. apply Hni. now apply keys_filter_incl in Hin.
Qed.

Lemma get_filter (f : string * V -> bool) o k v :
  Obj.wf o -> Obj.get (filter f o) k = Some v -> Obj.get o k = Some v.
Proof.
  intros Hwf H. apply in_get_some; [assumption|].
  apply get_some_in in H. now apply filter_In in H.
Qed.

Lemma del_as_filter o k :
  Obj.del o k = filter (fun kv => negb (String.eqb (fst kv) k)) o.
Proof.
  induction o as [|[k' v'] o IH]; simpl; [reflexivity|].
  destruct (String.eqb k' k); simpl; now rewrite IH.
Qed.

Lemma wf_del o k : Obj.wf o -> Obj.wf (Obj.del o k).
Proof. rewrite del_as_filter. apply wf_filter. Qed.

Lemma get_del o k k' v :
  Obj.wf o -> Obj.get (Obj.del o k) k' = Some v -> Obj.get o k' = Some v.
Proof. rewrite del_as_filter. apply get_filter. Qed.

End ObjFacts.

(** ** The delay queues *)

Section QueueFacts.
Context {A : Type}.
Implicit Types (q : list (Queue.Item A)) (x : Queue.Item A).

Lemma insert_sorted x q : Queue.sorted q -> Queue.sorted (Queue.insert x q).
Proof.
  unfold Queue.sorted. induction q as [|y q IH]; simpl; intros Hs.
  - repeat constructor.
  - destruct (Z.leb_spec (Queue.deliverAt x) (Queue.deliverAt y)).
    + constructor; [assumption|constructor; assumption].
    + inversion Hs as [|? ? Hq Hhd]; subst.
      constructor; [now apply IH|].
      destruct q as [|z q]; simpl.
      * constructor. lia.
      * destruct (Z.leb_spec (Queue.deliverAt x) (Queue.deliverAt z));
          constructor; [lia|now inversion Hhd].
Qed.

Lemma sort_sorted q : Queue.sorted (Queue.sort q).
Proof.
  induction q as [|x q IH]; simpl;
    [constructor|now apply insert_sorted].
Qed.

Lemma sort_of_sorted q : Queue.sorted q -> Queue.sort q = q.
Proof.
  unfold Queue.sorted. induction q as [|x q IH]; simpl; [reflexivity|].
  intros Hs. inversion Hs as [|? ? Hq Hhd]; subst.
  rewrite IH by assumption.
  destruct q as [|y q]; simpl; [reflexivity|].
  inversion Hhd; subst.
  destruct (Z.leb_spec (Queue.deliverAt x) (Queue.deliverAt y));
    [reflexivity|lia].
Qed.

Lemma insert_perm x q : Permutation (Queue.insert x q) (x :: q).
Proof.
  induction q as [|y q IH]; simpl; [reflexivity|].
  destruct (Queue.deliverAt x <=? Queue.deliverAt y); [reflexivity|].
  rewrite IH. apply perm_swap.
Qed.

Lemma sort_perm q : Permutation (Queue.sort q) q.
Proof.
  induction q as [|x q IH]; simpl; [reflexivity|].
  rewrite insert_perm. now constructor.
Qed.

(** Stability: items with the same [deliverAt] keep their relative order. *)
Lemma insert_stable (d : Z) x q :
  filter (fun it => Queue.deliverAt it =? d) (Queue.insert x q)
  = filter (fun it => Queue.deliverAt it =? d) (x :: q).
Proof.
  induction q as [|y q IH]; simpl; [reflexivity|].
  destruct (Z.leb_spec (Queue.deliverAt x) (Queue.deliverAt y));
    [reflexivity|].
  simpl in *. rewrite IH.
  destruct (Z.eqb_spec (Queue.deliverAt x) d);
    destruct (Z.eqb_spec (Queue.deliverAt y) d); try reflexivity; lia.
Qed.

Lemma sort_stable (d : Z) q :
  filter (fun it => Queue.deliverAt it =? d) (Queue.sort q)
  = filter (fun it => Queue.deliverAt it =? d) q.
Proof.
  induction q as [|x q IH]; simpl; [reflexivity|].
  rewrite insert_stable. simpl. now rewrite IH.
Qed.

(** On a sorted queue the head-only loop shifts exactly the due items. *)
Lemma drain_sorted (now : Z) q :
  Queue.sorted q ->
  Queue.drain now q
  = (filter (Queue.due now) q, filter (fun it => negb (Queue.due now it)) q).
Proof.
  unfold Queue.sorted, Queue.due. intros Hs.
  apply Sorted_StronglySorted in Hs; [|intros a b c; lia].
  induction Hs as [|x q Hq IH Hall]; simpl; [reflexivity|].
  destruct (Z.leb_spec (Queue.deliverAt x) now) as [Hle|Hgt]; simpl.
  - now rewrite IH.
  - assert (Hq' : Forall (fun y => (Queue.deliverAt y <=? now) = false) q).
    { eapply Forall_impl; [|exact Hall]. simpl. intros y Hy.
      apply Z.leb_gt. lia. }
    clear IH Hq Hall. f_equal.
    + induction Hq' as [|y q Hy _ IHq]; simpl; [reflexivity|].
      now rewrite Hy.
    + f_equal. induction Hq' as [|y q Hy _ IHq]; simpl; [reflexivity|].
      rewrite Hy. simpl. now f_equal.
Qed.

Lemma drain_rest_sorted (now : Z) q :
  Queue.sorted q -> Queue.sorted (snd (Queue.drain now q)).
Proof.
  unfold Queue.sorted. induction q as [|x q IH]; simpl; intros Hs;
    [constructor|].
  destruct (Queue.deliverAt x <=? now); [|exact Hs].
  inversion Hs; subst.
  destruct (Queue.drain now q) as [out rest]. simpl in *. now apply IH.
Qed.

End QueueFacts.

Lemma fold_left_keeps {S B C : Type} (g : S -> C) (f : S -> B -> S) :
  (forall a b, g (f a b) = g a) ->
  forall l a, g (fold_left f l a) = g a.
Proof.
  intros Hf l. induction l as [|b l IH]; simpl; intros a; [reflexivity|].
  now rewrite IH.
Qed.

Section ServerQueues.
Import Server.

Lemma handle_incomingQueue e s ws msg :
  incomingQueue (handleClientMessage e s ws msg) = incomingQueue s.
Proof.
  unfold handleClientMessage.
  repeat match goal with
         | |- context [match ?x with _ => _ end] => destruct x
         end; reflexivity.
Qed.

Lemma handleAll_incomingQueue envs items : forall i s,
  incomingQueue (handleAll envs i s items) = incomingQueue s.
Proof.
  induction items as [|it items IH]; simpl; intros i s; [reflexivity|].
  now rewrite IH, handle_incomingQueue.
Qed.

Lemma broadcast_incomingQueue e s :
  incomingQueue (broadcastSnapshot e s) = incomingQueue s.
Proof.
  unfold broadcastSnapshot. apply fold_left_keeps.
  intros acc w. now destruct (isOpen s w).
Qed.

Lemma maybeSpawn_incomingQueue e s :
  incomingQueue (maybeSpawnCoin e s) = incomingQueue s.
Proof. unfold maybeSpawnCoin. now destruct (_ <=? _)%nat. Qed.

Lemma gameTick_incomingQueue e s :
  incomingQueue (gameTick e s) = incomingQueue s.
Proof.
  unfold gameTick.
  destruct (simulate _) as [[ps cs] picked].
  destruct (_ =? 0); [rewrite broadcast_incomingQueue|];
    destruct (_ <=? _); try rewrite maybeSpawn_incomingQueue; reflexivity.
Qed.

(** The inbound queue is sorted whenever a callback returns. *)
Lemma step_incoming_sorted s ev :
  Queue.sorted (incomingQueue s) -> Queue.sorted (incomingQueue (step s ev)).
Proof.
  intros Hs. destruct ev; simpl.
  - exact Hs.
  - apply sort_sorted.
  - unfold onClose. destruct (Obj.get _ _) as [[pid|]|]; simpl; try exact Hs.
    destruct (_ && _); exact Hs.
  - unfold processIncomingQueue.
    pose proof (drain_rest_sorted now0 _ Hs) as Hr.
    destruct (Queue.drain now0 (incomingQueue s)) as [out rest].
    now rewrite handleAll_incomingQueue.
  - unfold flushOutgoing.
    destruct (Queue.drain now0 (outgoingQueue s)); exact Hs.
  - now rewrite gameTick_incomingQueue.
  - exact Hs.
  - apply sort_sorted.
  - now rewrite maybeSpawn_incomingQueue.
Qed.

Lemma run_incoming_sorted evs : forall s,
  Queue.sorted (incomingQueue s) -> Queue.sorted (incomingQueue (run s evs)).
Proof.
  unfold run. induction evs as [|ev evs IH]; simpl; intros s Hs;
    [exact Hs|].
  apply IH. now apply step_incoming_sorted.
Qed.

(** The inbound half of the delay-queue contract: in every state the
    server reaches, [processIncomingQueue] hands over exactly the frames
    with [deliverAt <= now], in non-decreasing [deliverAt] order, and a
    frame queued by [onMessage] goes behind the queued frames of the same
    [deliverAt]. *)
Lemma incoming_drain_exact (t0 now : Z) (evs : list Event) :
  let q := incomingQueue (run (init t0) evs) in
  Queue.drain now q
  = (filter (Queue.due now) q, filter (fun it => negb (Queue.due now it)) q)
  /\ Queue.sorted (fst (Queue.drain now q)).
Proof.
  intros q.
  assert (Hs : Queue.sorted q) by (apply run_incoming_sorted; constructor).
  split; [now apply drain_sorted|].
  rewrite drain_sorted by assumption. simpl.
  unfold Queue.sorted in *.
  apply Sorted_StronglySorted in Hs; [|intros a b c; lia].
  apply StronglySorted_Sorted.
  induction Hs as [|x l Hl IH Hall]; simpl; [constructor|].
  destruct (Queue.due now x); [|assumption].
  constructor; [assumption|].
  apply Forall_forall. intros y Hy. apply filter_In in Hy.
  rewrite Forall_forall in Hall. now apply Hall.
Qed.

Lemma onMessage_ties e s ws raw (d : Z) :
  Queue.sorted (incomingQueue s) ->
  filter (fun it => Queue.deliverAt it =? d)
    (incomingQueue (onMessage e s ws raw))
  = filter (fun it => Queue.deliverAt it =? d)
      (incomingQueue s
       ++ [Queue.mkItem (now e + ONE_WAY_LATENCY + jitter e ws) ws raw]).
Proof. intros _. simpl. apply sort_stable. Qed.

End ServerQueues.

(** C1 (the outbound queue breaks the claim): [sendWithLatency] pushes
    without sorting and the flush loop looks at the head only.  After a run
    of [sortQueues], two connections open at 202 ms and 203 ms; their
    welcome packets are due at 411 ms and 393 ms and sit in the queue in
    that order.  The flush at 400 ms sends nothing although the second
    packet is due (on the sorted queue it would send it), and a flush at
    411 ms that no [sortQueues] precedes sends the two in decreasing
    [deliverAt] order. *)
Theorem outgoing_flush_ignores_due_packet :
  let e1 := mkEnv 202 "" 0 0 (fun _ => 9) in
  let e2 := mkEnv 203 "" 0 0 (fun _ => -10) in
  let first := Queue.mkItem 411 "c1" (welcome 202) in
  let second := Queue.mkItem 393 "c2" (welcome 203) in
  let s :=
    Server.run (Server.init 0)
      [Server.ev_sortQueues;
       Server.ev_connection e1 "c1"; Server.ev_connection e2 "c2"] in
  Server.outgoingQueue s = [first; second]
  /\ Server.isOpen s "c2" = true
  /\ Queue.due 400 second = true
  /\ fst (Server.flushOutgoing 400 s) = []
  /\ fst (Server.flushOutgoing 400 (Server.sortQueues s)) = [second]
  /\ fst (Server.flushOutgoing 411 s) = [first; second].
Proof. repeat split. Qed.

(** ** Joining *)

Section Join.
Import Server.

(** C9: at capacity a join queues [join_reject] with reason [server_full]
    for the sender and changes neither the players nor the sockets; below
    capacity, with a fresh uuid, it appends exactly one player (score 0,
    under that uuid) and queues a [join_ack] carrying the uuid. *)
Theorem join_rejected_at_capacity_else_acked
  (e : Env) (s : State) (ws : string) (name : option string) :
  let s' := handleClientMessage e s ws (Some (msg_join name)) in
  let at_ := now e + ONE_WAY_LATENCY + jitter e ws in
  ((cfg.MAX_PLAYERS <= List.length (Obj.keys (players s)))%nat ->
   players s' = players s /\ sockets s' = sockets s /\ coins s' = coins s
   /\ outgoingQueue s'
      = outgoingQueue s ++ [Queue.mkItem at_ ws (join_reject "server_full")])
  /\
  ((List.length (Obj.keys (players s)) < cfg.MAX_PLAYERS)%nat ->
   ~ In (uuid e) (Obj.keys (players s)) ->
   exists p,
     players s' = players s ++ [(uuid e, p)]
     /\ Player.id p = uuid e /\ Player.score p = 0
     /\ List.length (Obj.keys (players s'))
        = S (List.length (Obj.keys (players s)))
     /\ Obj.get (sockets s') ws = Some (Some (uuid e))
     /\ exists ps cs,
         outgoingQueue s'
         = outgoingQueue s
           ++ [Queue.mkItem at_ ws (join_ack (uuid e) (now e) MAP_W MAP_H ps cs)]).
Proof.
  cbv zeta. split.
  - intros Hfull. apply Nat.leb_le in Hfull.
    unfold handleClientMessage. rewrite Hfull. simpl. auto.
  - intros Hroom Hfresh.
    assert (Hb : (cfg.MAX_PLAYERS <=? List.length (Obj.keys (players s)))%nat
                 = false) by (apply Nat.leb_gt; exact Hroom).
    unfold handleClientMessage. rewrite Hb. simpl.
    eexists. rewrite set_fresh by assumption.
    split; [reflexivity|]. simpl.
    split; [reflexivity|]. split; [reflexivity|].
    split; [unfold Obj.keys; rewrite map_app, length_app; simpl; lia|].
    split; [apply get_set_same|].
    eexists. eexists. reflexivity.
Qed.

End Join.

(** ** Input sequence numbers *)

Section Inputs.
Import Server Props.

Lemma input_step e s ws pid p last mseq mdx mdy mts :
  Obj.get (sockets s) ws = Some (Some pid) ->
  truthy pid = true ->
  Obj.get (players s) pid = Some p ->
  Player.lastInput p = Some last ->
  let seq := numberOr0Z mseq in
  let s' := handleClientMessage e s ws (Some (msg_input mseq mdx mdy mts)) in
  (Input.seq last < seq ->
   exists i,
     s' = set_players s (Obj.set (players s) pid (Player.with_input p i (now e)))
     /\ Input.seq i = seq
     /\ Input.dx i = Some (Rmax (-1) (Rmin 1 (numberOr0 mdx)))
     /\ Input.dy i = Some (Rmax (-1) (Rmin 1 (numberOr0 mdy))))
  /\ (seq <= Input.seq last -> s' = s).
Proof.
  intros Hws Htr Hp Hl. simpl.
  unfold handleClientMessage. rewrite Hws, Htr, Hp, Hl.
  split; intros H.
  - destruct (Z.leb_spec (numberOr0Z mseq) (Input.seq last)); [lia|].
    eexists. split; [reflexivity|]. simpl. auto.
  - destruct (Z.leb_spec (numberOr0Z mseq) (Input.seq last)); [reflexivity|lia].
Qed.

Lemma accepted_climb e ws pid seqs : forall s p last,
  Obj.get (sockets s) ws = Some (Some pid) ->
  truthy pid = true ->
  Obj.get (players s) pid = Some p ->
  Player.lastInput p = Some last ->
  accepted e s ws pid seqs = climb (Input.seq last) seqs.
Proof.
  induction seqs as [|q seqs IH]; intros s p last Hws Htr Hp Hl;
    [reflexivity|].
  cbn [accepted climb].
  destruct (input_step e s ws pid p last (Some q) None None None Hws Htr Hp Hl)
    as [Hnew Hold].
  cbv zeta in Hnew, Hold. change (numberOr0Z (Some q)) with q in Hnew, Hold.
  assert (Hseq : lastSeqOf s pid = Input.seq last)
    by (unfold lastSeqOf; now rewrite Hp, Hl).
  destruct (Z.ltb_spec (Input.seq last) q) as [Hlt|Hge].
  - destruct (Hnew Hlt) as [i [Hs' [Hi _]]].
    set (s' := handleClientMessage e s ws _) in *.
    assert (Hp' : Obj.get (players s') pid
                  = Some (Player.with_input p i (now e)))
      by (rewrite Hs'; simpl; apply get_set_same).
    assert (Hseq' : lastSeqOf s' pid = q)
      by (unfold lastSeqOf; rewrite Hp'; simpl; exact Hi).
    rewrite Hseq', Hseq.
    destruct (Z.eqb_spec q (Input.seq last)); [lia|].
    f_equal. rewrite <- Hi.
    apply (IH s' (Player.with_input p i (now e)) i); try assumption.
    + rewrite Hs'. exact Hws.
    + reflexivity.
  - rewrite (Hold Hge), Z.eqb_refl.
    now apply (IH s p last).
Qed.

(** C2: an input from a connection bound to a player is stored as the
    player's intent, with the last-seen time set, exactly when its sequence
    number is strictly greater than the stored one; otherwise the whole
    server state is unchanged.  A player whose stored sequence is 0 and
    that is fed 1, 2, 2, 1, 5, 4 accepts 1, 2 and 5. *)
Theorem input_applied_iff_newer
  (e : Env) (s : State) (ws pid : string) (p : Player.t) (last : Input.t)
  (mseq : option Z) (mdx mdy : option R) (mts : option Z) :
  Obj.get (sockets s) ws = Some (Some pid) ->
  truthy pid = true ->
  Obj.get (players s) pid = Some p ->
  Player.lastInput p = Some last ->
  let seq := numberOr0Z mseq in
  let s' := handleClientMessage e s ws (Some (msg_input mseq mdx mdy mts)) in
  (Input.seq last < seq ->
   exists i p',
     Obj.get (players s') pid = Some p'
     /\ Player.lastInput p' = Some i /\ Player.lastSeen p' = now e
     /\ Input.seq i = seq
     /\ Input.dx i = Some (Rmax (-1) (Rmin 1 (numberOr0 mdx)))
     /\ Input.dy i = Some (Rmax (-1) (Rmin 1 (numberOr0 mdy)))
     /\ Player.x p' = Player.x p /\ Player.y p' = Player.y p
     /\ Player.score p' = Player.score p
     /\ forall q, q <> pid -> Obj.get (players s') q = Obj.get (players s) q)
  /\ (seq <= Input.seq last -> s' = s)
  /\ (s' <> s <-> Input.seq last < seq)
  /\ (Input.seq last = 0 ->
      accepted e s ws pid [1; 2; 2; 1; 5; 4] = [1; 2; 5]).
Proof.
  intros Hws Htr Hp Hl seq s'.
  destruct (input_step e s ws pid p last mseq mdx mdy mts Hws Htr Hp Hl)
    as [Hnew Hold].
  fold seq in Hnew, Hold. fold s' in Hnew, Hold.
  assert (Hchg : Input.seq last < seq -> s' <> s).
  { intros Hlt Heq. destruct (Hnew Hlt) as [i [Hs' [Hi _]]].
    assert (Hget : Obj.get (players s') pid
                   = Some (Player.with_input p i (now e)))
      by (rewrite Hs'; simpl; apply get_set_same).
    rewrite Heq, Hp in Hget. injection Hget as Hget.
    rewrite Hget in Hl. simpl in Hl. injection Hl as Hl. subst i. lia. }
  split; [|split; [exact Hold|split]].
  - intros Hlt. destruct (Hnew Hlt) as [i [Hs' [Hi [Hdx Hdy]]]].
    exists i, (Player.with_input p i (now e)).
    rewrite Hs'. simpl.
    repeat split; try assumption; try reflexivity.
    + apply get_set_same.
    + intros q Hq. apply get_set_other. congruence.
  - split; [|exact Hchg].
    intros Hne. destruct (Z.lt_ge_cases (Input.seq last) seq) as [|Hge];
      [assumption|]. exfalso. apply Hne, Hold. lia.
  - intros H0. rewrite (accepted_climb e ws pid _ s p last Hws Htr Hp Hl).
    rewrite H0. reflexivity.
Qed.

End Inputs.

(** ** The simulation tick *)

Section Tick.
Import Server Props.

Local Open Scope R_scope.

Lemma moveDist_val : moveDist = 6.
Proof.
  unfold moveDist, PLAYER_SPEED, MS_PER_TICK, TICK_RATE,
    cfg.PLAYER_SPEED, cfg.TICK_RATE. field.
Qed.

Lemma clamp_range (lo hi v : R) :
  lo <= hi -> lo <= Rmax lo (Rmin hi v) <= hi.
Proof.
  intros H. split; [apply Rmax_l|].
  apply Rmax_lub; [assumption|apply Rmin_l].
Qed.

Lemma clamp_id (lo hi v : R) :
  lo <= v <= hi -> Rmax lo (Rmin hi v) = v.
Proof.
  intros [H1 H2]. rewrite Rmin_right by assumption.
  now apply Rmax_right.
Qed.

Lemma movePlayer_inBounds (p : Player.t) : inBounds (movePlayer p).
Proof.
  unfold inBounds, movePlayer. destruct (displacement p) as [ax ay]. simpl.
  unfold MAP_W, MAP_H, cfg.MAP_WIDTH, cfg.MAP_HEIGHT.
  replace (0 + 8) with 8 by ring.
  split; apply clamp_range; lra.
Qed.

Lemma samePos_refl ps : samePos ps ps.
Proof. reflexivity. Qed.

Lemma samePos_trans ps1 ps2 ps3 :
  samePos ps1 ps2 -> samePos ps2 ps3 -> samePos ps1 ps3.
Proof. unfold samePos. congruence. Qed.

Lemma samePos_keys ps ps' : samePos ps ps' -> Obj.keys ps = Obj.keys ps'.
Proof.
  unfold samePos, Obj.keys. intros H.
  assert (E : forall l : Obj.t Player.t,
             map fst l = map (fun t => fst (fst t)) (map keyPos l)).
  { intros l. rewrite map_map. reflexivity. }
  now rewrite !E, H.
Qed.

Lemma samePos_find coin : forall ps ps',
  samePos ps ps' ->
  option_map fst (find (fun kp => inReach (snd kp) coin) ps)
  = option_map fst (find (fun kp => inReach (snd kp) coin) ps').
Proof.
  unfold samePos.
  induction ps as [|[k p] ps IH]; intros [|[k' p'] ps'] H; simpl in *;
    try discriminate; [reflexivity|].
  injection H as Hk Hx Hy Hrest. subst k'.
  unfold keyPos in *. simpl in *.
  assert (E : inReach p coin = inReach p' coin)
    by (unfold inReach, dist2; now rewrite Hx, Hy).
  rewrite E. destruct (inReach p' coin); [reflexivity|now apply IH].
Qed.

Lemma samePos_inBounds ps ps' :
  samePos ps ps' ->
  Forall (fun kp => inBounds (snd kp)) ps ->
  Forall (fun kp => inBounds (snd kp)) ps'.
Proof.
  unfold samePos. revert ps'.
  induction ps as [|[k p] ps IH]; intros [|[k' p'] ps'] H Hall; simpl in *;
    try discriminate; constructor.
  - injection H as Hk Hx Hy Hrest. inversion Hall; subst.
    unfold inBounds in *. simpl in *. now rewrite <- Hx, <- Hy.
  - injection H as Hk Hx Hy Hrest. inversion Hall; subst. now apply IH.
Qed.

(** The inner loop, read as a search. *)
Lemma award_spec coin : forall ps,
  match award coin ps with
  | None => find (fun kp => inReach (snd kp) coin) ps = None
  | Some (w, ps') =>
      exists l1 p l2,
        ps = l1 ++ (w, p) :: l2
        /\ ps' = l1 ++ (w, Player.with_score p (Player.score p + 1)%Z) :: l2
        /\ inReach p coin = true
        /\ find (fun kp => inReach (snd kp) coin) ps = Some (w, p)
        /\ Forall (fun kp => inReach (snd kp) coin = false) l1
  end.
Proof.
  induction ps as [|[k p] ps IH]; simpl; [reflexivity|].
  destruct (inReach p coin) eqn:Hr.
  - exists [], p, ps. simpl. auto.
  - destruct (award coin ps) as [[w ps']|].
    + destruct IH as [l1 [q [l2 [E1 [E2 [Hq [Hf Hall]]]]]]].
      exists ((k, p) :: l1), q, l2. simpl. subst.
      repeat split; try assumption. constructor; assumption.
    + exact IH.
Qed.

Lemma award_samePos coin ps w ps' :
  award coin ps = Some (w, ps') -> samePos ps ps'.
Proof.
  intros H. pose proof (award_spec coin ps) as S. rewrite H in S.
  destruct S as [l1 [p [l2 [-> [-> _]]]]].
  unfold samePos. rewrite !map_app. reflexivity.
Qed.

Lemma award_get coin ps w ps' :
  Obj.wf ps -> award coin ps = Some (w, ps') ->
  forall pid,
    Obj.get ps' pid
    = option_map
        (fun p => if String.eqb w pid
                  then Player.with_score p (Player.score p + 1)%Z else p)
        (Obj.get ps pid).
Proof.
  intros Hwf H. pose proof (award_spec coin ps) as S. rewrite H in S.
  destruct S as [l1 [p [l2 [-> [-> _]]]]].
  unfold Obj.wf, Obj.keys in Hwf. rewrite map_app in Hwf. simpl in Hwf.
  apply NoDup_remove_2 in Hwf.
  intros pid. clear H.
  induction l1 as [|[k q] l1 IH]; simpl in *.
  - destruct (String.eqb_spec w pid); [reflexivity|].
    now destruct (Obj.get l2 pid).
  - destruct (String.eqb_spec k pid) as [->|Hk]; simpl.
    + destruct (String.eqb_spec w pid) as [->|]; [|reflexivity].
      exfalso. apply Hwf. now left.
    + apply IH. intros Hin. apply Hwf. now right.
Qed.

End Tick.

Section Coins.
Import Server Props.

Lemma with_score_same (p : Player.t) (z : Z) :
  z = Player.score p -> Player.with_score p z = p.
Proof. intros ->. now destruct p. Qed.

Lemma picksBy_cons pid k picked :
  picksBy pid (k :: picked)
  = (if String.eqb (by_ k) pid then 1 else 0) + picksBy pid picked.
Proof.
  unfold picksBy. cbn [filter].
  destruct (String.eqb (by_ k) pid); cbn [List.length]; lia.
Qed.

Lemma picksBy_nonneg pid picked : 0 <= picksBy pid picked.
Proof. unfold picksBy. lia. Qed.

Lemma expected_samePos ps ps1 cs :
  samePos ps ps1 ->
  expectedPicks ps cs = expectedPicks ps1 cs
  /\ expectedLeft ps cs = expectedLeft ps1 cs.
Proof.
  intros H. unfold expectedPicks, expectedLeft. split.
  - induction cs as [|kc cs IH]; simpl; [reflexivity|].
    now rewrite IH, (samePos_find (snd kc) ps ps1 H).
  - induction cs as [|kc cs IH]; simpl; [reflexivity|].
    now rewrite IH, (samePos_find (snd kc) ps ps1 H).
Qed.

Lemma resolve_spec : forall cs ps ps' cs' picked,
  resolveCoins ps cs = (ps', cs', picked) ->
  samePos ps ps'
  /\ picked = expectedPicks ps cs
  /\ cs' = expectedLeft ps cs.
Proof.
  induction cs as [|[cid coin] cs IH]; simpl; intros ps ps' cs' picked H.
  - injection H as <- <- <-. repeat split.
  - pose proof (award_spec coin ps) as S.
    destruct (award coin ps) as [[w ps1]|] eqn:Ha.
    + destruct (resolveCoins ps1 cs) as [[ps2 cs2] pk] eqn:Hr.
      injection H as <- <- <-.
      destruct (IH _ _ _ _ Hr) as [Hp [Hk Hl]].
      pose proof (award_samePos _ _ _ _ Ha) as Hp1.
      destruct (expected_samePos ps ps1 cs Hp1) as [E1 E2].
      destruct S as [l1 [p [l2 [_ [_ [_ [Hf _]]]]]]].
      unfold expectedPicks, expectedLeft in *. simpl. rewrite Hf. simpl.
      split; [eapply samePos_trans; eassumption|].
      split; [now rewrite Hk, E1|now rewrite Hl, E2].
    + destruct (resolveCoins ps cs) as [[ps2 cs2] pk] eqn:Hr.
      injection H as <- <- <-.
      destruct (IH _ _ _ _ Hr) as [Hp [Hk Hl]].
      unfold expectedPicks, expectedLeft in *. simpl. rewrite S. simpl.
      split; [assumption|]. split; [assumption|now f_equal].
Qed.

Lemma resolve_scores : forall cs ps ps' cs' picked,
  Obj.wf ps ->
  resolveCoins ps cs = (ps', cs', picked) ->
  forall pid,
    Obj.get ps' pid
    = option_map
        (fun p => Player.with_score p (Player.score p + picksBy pid picked))
        (Obj.get ps pid).
Proof.
  induction cs as [|[cid coin] cs IH]; simpl; intros ps ps' cs' picked Hwf H pid.
  - injection H as <- <- <-.
    destruct (Obj.get ps pid) as [p|]; simpl; [|reflexivity].
    f_equal. symmetry. apply with_score_same.
    unfold picksBy. cbn [filter List.length]. lia.
  - destruct (award coin ps) as [[w ps1]|] eqn:Ha.
    + destruct (resolveCoins ps1 cs) as [[ps2 cs2] pk] eqn:Hr.
      injection H as <- <- <-.
      assert (Hwf1 : Obj.wf ps1).
      { unfold Obj.wf.
        now rewrite <- (samePos_keys _ _ (award_samePos _ _ _ _ Ha)). }
      rewrite (IH _ _ _ _ Hwf1 Hr pid), (award_get _ _ _ _ Hwf Ha pid).
      destruct (Obj.get ps pid) as [p|]; [|reflexivity].
      cbn [option_map]. rewrite picksBy_cons. cbn [by_].
      destruct (String.eqb w pid).
      * f_equal. destruct p. unfold Player.with_score.
        cbn [Player.score Player.id Player.name Player.x Player.y
             Player.vx Player.vy Player.lastInput Player.lastSeen].
        f_equal; lia.
      * do 2 f_equal; lia.
    + destruct (resolveCoins ps cs) as [[ps2 cs2] pk] eqn:Hr.
      injection H as <- <- <-. now apply (IH _ _ _ _ Hwf Hr).
Qed.






End Coins.

Section TickTheorems.
Import Server Props.

Lemma broadcast_players e s : players (broadcastSnapshot e s) = players s.
Proof.
  unfold broadcastSnapshot. apply fold_left_keeps.
  intros acc w. now destruct (isOpen s w).
Qed.

Lemma maybeSpawn_players e s : players (maybeSpawnCoin e s) = players s.
Proof. unfold maybeSpawnCoin. now destruct (_ <=? _)%nat. Qed.

Lemma gameTick_players e s :
  players (gameTick e s)
  = fst (fst (resolveCoins (movePlayers (players s)) (coins s))).
Proof.
  unfold gameTick, simulate. cbn [players coins set_serverTick].
  destruct (resolveCoins _ _) as [[ps cs] picked].
  destruct (_ =? 0); [rewrite broadcast_players|];
    destruct (_ <=? _); try rewrite maybeSpawn_players; reflexivity.
Qed.

Lemma movePlayers_keys ps : Obj.keys (movePlayers ps) = Obj.keys ps.
Proof. unfold movePlayers, Obj.keys. rewrite map_map. reflexivity. Qed.

Lemma movePlayers_get ps pid :
  Obj.get (movePlayers ps) pid = option_map movePlayer (Obj.get ps pid).
Proof.
  induction ps as [|[k p] ps IH]; simpl; [reflexivity|].
  destruct (String.eqb k pid); [reflexivity|exact IH].
Qed.

(** C3: after [gameTick], every player is inside the map inset by the
    radius 8: [8 <= x <= MAP_W - 8] and [8 <= y <= MAP_H - 8], from any
    state and with any intents. *)
Theorem tick_leaves_players_in_bounds (e : Env) (s : State) :
  Forall (fun kp => inBounds (snd kp)) (players (gameTick e s)).
Proof.
  rewrite gameTick_players.
  destruct (resolveCoins _ _) as [[ps cs] picked] eqn:Hr. simpl.
  destruct (resolve_spec _ _ _ _ _ Hr) as [Hsame _].
  apply (samePos_inBounds _ _ Hsame).
  unfold movePlayers. apply Forall_map. apply Forall_forall.
  intros kp _. simpl. apply movePlayer_inBounds.
Qed.


End TickTheorems.

(** ** Movement *)

Section Movement.
Import Server Props.
Local Open Scope R_scope.

Lemma hypot_nonneg a b : 0 <= hypot a b.
Proof. apply sqrt_pos. Qed.

Lemma hypot_sqr a b : hypot a b * hypot a b = a * a + b * b.
Proof. unfold hypot. apply sqrt_sqrt. nra. Qed.

Lemma hypot_axis a : 0 <= a -> hypot a 0 = a.
Proof.
  intros Ha. unfold hypot. replace (a * a + 0 * 0) with (a * a) by ring.
  now apply sqrt_square.
Qed.

Lemma hypot_le a b m : 0 <= m -> a * a + b * b <= m * m -> hypot a b <= m.
Proof.
  intros Hm H. unfold hypot.
  rewrite <- (sqrt_square m) by assumption.
  apply sqrt_le_1; nra.
Qed.

Lemma unitDir_long dx dy :
  0.0001 < hypot dx dy ->
  unitDir dx dy = (dx / hypot dx dy, dy / hypot dx dy)
  /\ fst (unitDir dx dy) * fst (unitDir dx dy)
     + snd (unitDir dx dy) * snd (unitDir dx dy) = 1.
Proof.
  intros H. unfold unitDir. destruct Rlt_dec; [|contradiction].
  split; [reflexivity|]. simpl.
  pose proof (hypot_sqr dx dy) as Hs.
  assert (Hne : hypot dx dy <> 0) by lra.
  replace (dx / hypot dx dy * (dx / hypot dx dy)
           + dy / hypot dx dy * (dy / hypot dx dy))
    with ((dx * dx + dy * dy) / (hypot dx dy * hypot dx dy))
    by (field; assumption).
  rewrite <- Hs. field. assumption.
Qed.

Lemma unitDir_short dx dy : hypot dx dy <= 0.0001 -> unitDir dx dy = (0, 0).
Proof.
  intros H. unfold unitDir. destruct Rlt_dec; [lra|reflexivity].
Qed.

Lemma unitDir_zero : unitDir 0 0 = (0, 0).
Proof. apply unitDir_short. rewrite hypot_axis; lra. Qed.

Lemma unitDir_sqr_le dx dy :
  fst (unitDir dx dy) * fst (unitDir dx dy)
  + snd (unitDir dx dy) * snd (unitDir dx dy) <= 1.
Proof.
  destruct (Rlt_dec 0.0001 (hypot dx dy)) as [H|H].
  - destruct (unitDir_long dx dy H) as [_ E]. lra.
  - rewrite unitDir_short by lra. simpl. lra.
Qed.

(** The per-axis clamp at [1.2 * moveDist] never bites: the displacement is
    the direction times the nominal step. *)
Lemma displacement_eq (p : Player.t) :
  displacement p
  = (fst (unitDir (fst (intended p)) (snd (intended p))) * moveDist,
     snd (unitDir (fst (intended p)) (snd (intended p))) * moveDist).
Proof.
  unfold displacement. destruct (intended p) as [ix iy]. simpl.
  pose proof (unitDir_sqr_le ix iy) as Hle.
  destruct (unitDir ix iy) as [nx ny]. simpl in *.
  unfold maxAllowedMove. rewrite moveDist_val.
  assert (Hx : -1 <= nx <= 1) by (split; nra).
  assert (Hy : -1 <= ny <= 1) by (split; nra).
  f_equal; apply clamp_id; lra.
Qed.

(** C5, as the code has it: the direction of the stored intent is
    [intent / |intent|], of length one, when [|intent| > 0.0001], and zero
    otherwise (so for the zero vector); the displacement is the direction
    times [speed * dt], its magnitude is at most [1.2 * speed * dt], and it
    is added to the position before the clamp to the map; a player with no
    stored intent, or whose intent fields are both not numbers, has zero
    displacement and, inside the map, keeps its position. *)
Theorem movement_step (p : Player.t) :
  let i := intended p in
  let len := hypot (fst i) (snd i) in
  let d := displacement p in
  (0.0001 < len ->
   d = (fst i / len * moveDist, snd i / len * moveDist)
   /\ hypot (fst d) (snd d) = moveDist)
  /\ (len <= 0.0001 -> d = (0, 0))
  /\ (i = (0, 0) -> d = (0, 0))
  /\ hypot (fst d) (snd d) <= 1.2 * moveDist
  /\ moveDist = PLAYER_SPEED * (MS_PER_TICK / 1000)
  /\ Player.x (movePlayer p)
     = Rmax (0 + 8) (Rmin (MAP_W - 8) (Player.x p + fst d))
  /\ Player.y (movePlayer p)
     = Rmax (0 + 8) (Rmin (MAP_H - 8) (Player.y p + snd d))
  /\ ((Player.lastInput p = None
       \/ exists inp, Player.lastInput p = Some inp
                      /\ Input.dx inp = None /\ Input.dy inp = None) ->
      d = (0, 0)
      /\ (inBounds p ->
          Player.x (movePlayer p) = Player.x p
          /\ Player.y (movePlayer p) = Player.y p)).
Proof.
  cbv zeta.
  rewrite displacement_eq.
  set (ix := fst (intended p)). set (iy := snd (intended p)).
  assert (Hshort : hypot ix iy <= 0.0001 ->
            (fst (unitDir ix iy) * moveDist, snd (unitDir ix iy) * moveDist)
            = (0, 0)).
  { intros H. rewrite unitDir_short by assumption. simpl. f_equal; ring. }
  assert (Hmove : forall ax ay,
            displacement p = (ax, ay) ->
            Player.x (movePlayer p)
            = Rmax (0 + 8) (Rmin (MAP_W - 8) (Player.x p + ax))
            /\ Player.y (movePlayer p)
               = Rmax (0 + 8) (Rmin (MAP_H - 8) (Player.y p + ay))).
  { intros ax ay E. unfold movePlayer. rewrite E. simpl. auto. }
  pose proof (Hmove _ _ (displacement_eq p)) as [Hx Hy].
  fold ix iy in Hx, Hy.
  assert (Hzero : intended p = (0, 0) ->
            (fst (unitDir ix iy) * moveDist, snd (unitDir ix iy) * moveDist)
            = (0, 0)).
  { intros E. apply Hshort. unfold ix, iy. rewrite E. simpl.
    rewrite hypot_axis; lra. }
  split; [|split; [exact Hshort|split; [exact Hzero|split; [|split;
    [reflexivity|split; [exact Hx|split; [exact Hy|]]]]]]].
  - intros Hlong. destruct (unitDir_long ix iy Hlong) as [E Hunit].
    split; [now rewrite E|].
    cbn [fst snd]. unfold hypot.
    replace (fst (unitDir ix iy) * moveDist * (fst (unitDir ix iy) * moveDist)
             + snd (unitDir ix iy) * moveDist * (snd (unitDir ix iy) * moveDist))
      with ((fst (unitDir ix iy) * fst (unitDir ix iy)
             + snd (unitDir ix iy) * snd (unitDir ix iy))
            * (moveDist * moveDist)) by ring.
    rewrite Hunit, Rmult_1_l. apply sqrt_square. rewrite moveDist_val. lra.
  - cbn [fst snd]. pose proof (unitDir_sqr_le ix iy) as Hle.
    rewrite moveDist_val. apply hypot_le; [lra|]. nra.
  - intros Hno.
    assert (E : intended p = (0, 0)).
    { unfold intended. destruct Hno as [->|[inp [-> [-> ->]]]]; reflexivity. }
    split; [now apply Hzero|].
    intros [Hbx Hby]. pose proof (Hzero E) as Hz.
    injection Hz as Hz1 Hz2. rewrite Hx, Hy, Hz1, Hz2.
    replace (0 + 8) with 8 by ring. rewrite !Rplus_0_r.
    split; apply clamp_id; assumption.
Qed.

(** C5 as stated fails: an intent of [(0.00005, 0)], which the server
    stores as sent, is not the zero vector, yet its direction is zero, of
    length 0 rather than 1, and the player does not move. *)
Lemma short_intent_is_not_normalized :
  let p :=
    Player.mk "p1" "ann" 100 100 0 0 0
      (Some (Input.mk 1 (Some 0.00005) (Some 0) None)) 0%Z in
  intended p = (0.00005, 0)
  /\ intended p <> (0, 0)
  /\ displacement p = (0, 0)
  /\ fst (unitDir 0.00005 0) * fst (unitDir 0.00005 0)
     + snd (unitDir 0.00005 0) * snd (unitDir 0.00005 0) <> 1.
Proof.
  cbv zeta.
  assert (E : unitDir 0.00005 0 = (0, 0))
    by (apply unitDir_short; rewrite hypot_axis; lra).
  split; [reflexivity|]. split.
  - simpl. intros H. injection H as H. lra.
  - rewrite displacement_eq. simpl. rewrite E. simpl.
    split; [f_equal; ring|lra].
Qed.

End Movement.

(** ** Reconciliation *)

Section Reconciliation.
Import Client ClientProps.

Lemma dropConfirmed_suffix ack : forall l,
  exists pre, l = pre ++ dropConfirmed ack l.
Proof.
  induction l as [|i l [pre IH]]; simpl; [now exists []|].
  destruct (Pending.seq i <=? ack).
  - exists (i :: pre). simpl. now f_equal.
  - now exists [].
Qed.

Lemma dropConfirmed_ordered ack l (n : Z) :
  StronglySorted Z.lt (map Pending.seq l)
  /\ Forall (fun i => Pending.seq i <= n) l ->
  StronglySorted Z.lt (map Pending.seq (dropConfirmed ack l))
  /\ Forall (fun i => Pending.seq i <= n) (dropConfirmed ack l).
Proof.
  destruct (dropConfirmed_suffix ack l) as [pre E].
  revert E. generalize (dropConfirmed ack l). intros suf -> [Hs Hf].
  split.
  - rewrite map_app in Hs. clear Hf.
    induction pre as [|i pre IH]; simpl in *; [assumption|].
    inversion Hs; subst. now apply IH.
  - apply Forall_app in Hf. tauto.
Qed.


Lemma reconcile_ordered c snap :
  pendingOrdered c -> pendingOrdered (processSnapshotForReconciliation c snap).
Proof.
  intros H. unfold processSnapshotForReconciliation.
  destruct (joined c); [|exact H].
  destruct (myId c) as [me|]; [|exact H].
  destruct (truthy me); [|exact H].
  destruct (findPlayer me _) as [sp|]; [|exact H].
  destruct (if Rlt_dec _ _ then _ else _) as [x' y'].
  unfold pendingOrdered. simpl. now apply dropConfirmed_ordered.
Qed.

Lemma step_ordered c ev : pendingOrdered c -> pendingOrdered (step c ev).
Proof.
  intros H. destruct ev; simpl; try exact H.
  - destruct msg; simpl; try exact H. now apply reconcile_ordered.
  - unfold sendInput. destruct (wsOpen c); simpl; [|exact H].
    destruct (joined c); simpl; [|exact H].
    destruct (currentInput c) as [dx dy]. simpl.
    destruct H as [Hs Hf]. unfold pendingOrdered. simpl. split.
    + rewrite map_app. simpl.
      clear -Hs Hf. induction (pendingInputs c) as [|i l IH]; simpl in *.
      * repeat constructor.
      * inversion Hs; subst. inversion Hf; subst.
        constructor; [now apply IH|].
        apply Forall_app. split; [assumption|].
        repeat constructor. lia.
    + apply Forall_app. split.
      * eapply Forall_impl; [|exact Hf]. simpl. intros; lia.
      * repeat constructor. simpl. lia.
  - unfold localPredictionStep.
    destruct (currentInput c) as [dx dy]. destruct (unitDir dx dy). exact H.
Qed.

Lemma run_ordered evs : forall c, pendingOrdered c -> pendingOrdered (run c evs).
Proof.
  unfold run. induction evs as [|ev evs IH]; simpl; intros c H; [exact H|].
  apply IH. now apply step_ordered.
Qed.


End Reconciliation.

(** ** Interpolation *)

Section Interpolation.
Import Client.
Local Open Scope R_scope.

Lemma lerp_0 a b : lerp a b 0 = a.
Proof. unfold lerp. ring. Qed.

Lemma lerp_1 a b : lerp a b 1 = b.
Proof. unfold lerp. ring. Qed.

Lemma lerp_same a t : lerp a a t = a.
Proof. unfold lerp. ring. Qed.

Lemma fold_set_get {V : Type} (f : string -> V) (id : string) : forall l acc,
  Obj.get (fold_left (fun m k => Obj.set m k (f k)) l acc) id
  = if existsb (String.eqb id) l then Some (f id) else Obj.get acc id.
Proof.
  induction l as [|k l IH]; simpl; intros acc; [reflexivity|].
  rewrite IH. destruct (existsb (String.eqb id) l) eqn:El.
  - now rewrite orb_true_r.
  - rewrite orb_false_r. destruct (String.eqb_spec id k) as [->|Hne].
    + apply get_set_same.
    + apply get_set_other. congruence.
Qed.

Lemma uniq_in (id : string) (l : list string) : In id (uniq l) <-> In id l.
Proof.
  unfold uniq.
  assert (G : forall acc,
            In id (fold_left
                     (fun acc k =>
                        if existsb (String.eqb k) acc then acc else acc ++ [k])
                     l acc)
            <-> In id acc \/ In id l).
  { induction l as [|k l IH]; simpl; intros acc; [tauto|].
    rewrite IH. destruct (existsb (String.eqb k) acc) eqn:E.
    - apply existsb_exists in E. destruct E as [k' [Hin Hk]].
      apply String.eqb_eq in Hk. subst k'.
      split; [tauto|]. intros [H|[<-|H]]; tauto.
    - rewrite in_app_iff. simpl. tauto. }
  rewrite G. simpl. tauto.
Qed.

Lemma existsb_eqb_in (id : string) (l : list string) :
  In id l -> existsb (String.eqb id) l = true.
Proof.
  intros H. apply existsb_exists. exists id. split; [assumption|].
  apply String.eqb_refl.
Qed.

(** What [getRemoteEntityPositions] shows for an entity, between a
    bracketing pair. *)
Lemma bracket_shows (rt : Z) (a b : Snapshot.t) (id : string) :
  (Snapshot.serverTime a <= rt <= Snapshot.serverTime b)%Z ->
  Obj.get (byId (Snapshot.players a)) id <> None
  \/ Obj.get (byId (Snapshot.players b)) id <> None ->
  exists positions,
    getRemoteEntityPositions rt [a; b] = Some positions
    /\ Obj.get positions id
       = Some (blend (byId (Snapshot.players a)) (byId (Snapshot.players b))
                 (fraction rt a b) id).
Proof.
  intros [H1 H2] Hin.
  unfold getRemoteEntityPositions, findBracket.
  apply Z.leb_le in H1, H2. rewrite H1, H2. simpl.
  eexists. split; [reflexivity|].
  rewrite (fold_set_get
             (blend (byId (Snapshot.players a)) (byId (Snapshot.players b))
                (fraction rt a b))).
  rewrite existsb_eqb_in; [reflexivity|].
  apply uniq_in, in_app_iff.
  destruct Hin as [H|H]; [left|right];
    destruct (in_dec string_dec id (Obj.keys (byId (Snapshot.players a))));
    destruct (in_dec string_dec id (Obj.keys (byId (Snapshot.players b))));
    try assumption; exfalso; apply H; now apply get_none_keys.
Qed.

(** The part of the interpolation contract that holds: with two buffered
    snapshots at [t0 < t1] and an entity in both, rendering at [t0] shows
    its first position and rendering at [t1] its second; rendering after
    [t1] shows the last snapshot. *)
Lemma interpolation_endpoints (a b : Snapshot.t) (id : string)
  (pa pb : SnapPlayer.t) :
  (Snapshot.serverTime a < Snapshot.serverTime b)%Z ->
  Obj.get (byId (Snapshot.players a)) id = Some pa ->
  Obj.get (byId (Snapshot.players b)) id = Some pb ->
  (exists positions pos,
     getRemoteEntityPositions (Snapshot.serverTime a) [a; b] = Some positions
     /\ Obj.get positions id = Some pos
     /\ Pos.x pos = SnapPlayer.x pa /\ Pos.y pos = SnapPlayer.y pa)
  /\ (exists positions pos,
     getRemoteEntityPositions (Snapshot.serverTime b) [a; b] = Some positions
     /\ Obj.get positions id = Some pos
     /\ Pos.x pos = SnapPlayer.x pb /\ Pos.y pos = SnapPlayer.y pb).
Proof.
  intros Hlt Ha Hb. split.
  - destruct (bracket_shows (Snapshot.serverTime a) a b id) as [ps [E G]];
      [lia|left; congruence|].
    exists ps. eexists. split; [exact E|]. split; [exact G|].
    unfold blend. rewrite Ha, Hb. simpl.
    unfold fraction. rewrite Z.sub_diag.
    replace (0 / IZR (Z.max 1 (Snapshot.serverTime b - Snapshot.serverTime a)))
      with 0 by (unfold Rdiv; ring).
    now rewrite !lerp_0.
  - destruct (bracket_shows (Snapshot.serverTime b) a b id) as [ps [E G]];
      [lia|left; congruence|].
    exists ps. eexists. split; [exact E|]. split; [exact G|].
    unfold blend. rewrite Ha, Hb. simpl.
    unfold fraction. rewrite Z.max_r by lia.
    assert (Hne : IZR (Snapshot.serverTime b - Snapshot.serverTime a) <> 0).
    { apply not_0_IZR. lia. }
    replace (IZR (Snapshot.serverTime b - Snapshot.serverTime a)
             / IZR (Snapshot.serverTime b - Snapshot.serverTime a))
      with 1 by (field; assumption).
    now rewrite !lerp_1.
Qed.

Lemma after_last_shows_last (rt : Z) (a b : Snapshot.t) :
  (Snapshot.serverTime a <= Snapshot.serverTime b)%Z ->
  (Snapshot.serverTime b < rt)%Z ->
  getRemoteEntityPositions rt [a; b]
  = Some (fold_left
            (fun positions p => Obj.set positions (SnapPlayer.id p) (posOf p))
            (Snapshot.players b) []).
Proof.
  intros Hab Hlt. unfold getRemoteEntityPositions, findBracket.
  assert (E : (rt <=? Snapshot.serverTime b)%Z = false)
    by (apply Z.leb_gt; lia).
  rewrite E, andb_false_r. reflexivity.
Qed.

Lemma findBracket_before (rt : Z) : forall buf,
  Forall (fun s => (rt < Snapshot.serverTime s)%Z) buf ->
  findBracket rt buf = None.
Proof.
  induction buf as [|a buf IH]; intros H; [reflexivity|].
  inversion H as [|? ? Ha Hbuf]; subst.
  destruct buf as [|b buf]; [reflexivity|].
  cbn [findBracket].
  assert (E : (Snapshot.serverTime a <=? rt)%Z = false)
    by (apply Z.leb_gt; exact Ha).
  rewrite E. cbn [andb]. now apply IH.
Qed.

(** A render time older than every buffered snapshot shows the last one,
    whatever the buffer. *)
Lemma before_first_shows_last (rt : Z) (a : Snapshot.t)
  (buf : list Snapshot.t) :
  Forall (fun s => (rt < Snapshot.serverTime s)%Z) (a :: buf) ->
  getRemoteEntityPositions rt (a :: buf)
  = Some (fold_left
            (fun positions p => Obj.set positions (SnapPlayer.id p) (posOf p))
            (Snapshot.players (List.last (a :: buf) a)) []).
Proof.
  intros H. unfold getRemoteEntityPositions.
  now rewrite (findBracket_before rt (a :: buf) H).
Qed.

(** C7 (the code breaks the claim): the comment in
    [getRemoteEntityPositions] says a render time older than the first
    snapshot uses the first, but the fallback always takes the last.  With
    snapshots at 1000 ms and 1100 ms showing an entity at [(0, 0)] and
    [(10, 0)], rendering at 900 ms, nearest to the first, shows [(10, 0)]. *)
Theorem render_before_buffer_shows_last_snapshot :
  let a := Snapshot.mk 1 1000 [SnapPlayer.mk "e1" "eve" 0 0 0 0] [] in
  let b := Snapshot.mk 2 1100 [SnapPlayer.mk "e1" "eve" 10 0 0 0] [] in
  getRemoteEntityPositions 900 [a; b] = Some [("e1"%string, Pos.mk 10 0 0 "eve")]
  /\ getRemoteEntityPositions 900 [a; b]
     <> Some [("e1"%string, Pos.mk 0 0 0 "eve")].
Proof.
  cbv zeta. split; [reflexivity|].
  intros H. apply (f_equal (fun o =>
    match o with Some [(_, p)] => Pos.x p | _ => 0 end)) in H.
  simpl in H. lra.
Qed.

(** How [blend] treats an entity that only one snapshot of the pair has. *)
Lemma blend_only_earlier mapA mapB t id pa :
  Obj.get mapA id = Some pa -> Obj.get mapB id = None ->
  Pos.x (blend mapA mapB t id) = SnapPlayer.x pa
  /\ Pos.y (blend mapA mapB t id) = SnapPlayer.y pa.
Proof.
  intros Ha Hb. unfold blend. rewrite Ha, Hb. simpl.
  now rewrite !lerp_same.
Qed.

Lemma blend_only_later mapA mapB t id pb :
  Obj.get mapA id = None -> Obj.get mapB id = Some pb ->
  Pos.x (blend mapA mapB t id) = SnapPlayer.x pb * t
  /\ Pos.y (blend mapA mapB t id) = SnapPlayer.y pb * t.
Proof.
  intros Ha Hb. unfold blend. rewrite Ha, Hb. simpl.
  unfold lerp. split; ring.
Qed.

(** C8 (the code breaks the claim): an entity missing from the earlier
    snapshot gets the stand-in [{ x: 0, y: 0 }] for it, so it is drawn on
    the way from the origin to its position; an entity missing from the
    later one is held ([pb = pa]).  With an empty snapshot at 1000 ms and
    one at 1100 ms showing an entity at [(100, 50)], rendering at 1050 ms
    shows it at [(50, 25)]. *)
Theorem entity_new_in_later_snapshot_is_not_held :
  let a := Snapshot.mk 1 1000 [] [] in
  let b := Snapshot.mk 2 1100 [SnapPlayer.mk "e1" "eve" 100 50 0 0] [] in
  exists pos,
    getRemoteEntityPositions 1050 [a; b] = Some [("e1"%string, pos)]
    /\ Pos.x pos = 50 /\ Pos.y pos = 25
    /\ (Pos.x pos, Pos.y pos) <> (100, 50).
Proof.
  cbv zeta. eexists. split; [reflexivity|].
  cbn. unfold lerp, fraction. cbn.
  split; [lra|]. split; [lra|].
  intros H. injection H as H _. lra.
Qed.

End Interpolation.

(** ** Scores *)

Section Scores.
Import Server Props.

Lemma tally_app b pid l1 l2 :
  tally b pid (l1 ++ l2) = tally (tally b pid l1) pid l2.
Proof. unfold tally. apply fold_left_app. Qed.

Lemma tally_picks pid picked : forall n,
  tally n pid (map (fun k => g_pick (by_ k)) picked) = n + picksBy pid picked.
Proof.
  induction picked as [|k picked IH]; intros n.
  - unfold tally, picksBy. simpl. lia.
  - unfold tally in *. cbn [map fold_left tallyStep].
    rewrite IH, picksBy_cons. destruct (String.eqb (by_ k) pid); lia.
Qed.

Lemma tally_no_join pid log : forall n,
  ~ In (g_join pid) log -> tally n pid log = n + picksIn pid log.
Proof.
  unfold tally, picksIn.
  induction log as [|g log IH]; intros n Hni; cbn [fold_left filter].
  - simpl. lia.
  - rewrite IH by (intros H; apply Hni; now right).
    destruct g as [q|q]; cbn [tallyStep].
    + destruct (String.eqb_spec q pid) as [->|]; [|lia].
      exfalso. apply Hni. now left.
    + destruct (String.eqb q pid); cbn [List.length]; lia.
Qed.

Lemma tally_nonneg pid log : forall n, 0 <= n -> 0 <= tally n pid log.
Proof.
  unfold tally. induction log as [|g log IH]; intros n Hn; simpl;
    [assumption|].
  apply IH. destruct g as [q|q]; simpl; destruct (String.eqb q pid); lia.
Qed.

Lemma tallied_same_players base s s' log :
  players s' = players s ->
  scoresTallied base s log -> scoresTallied base s' (log ++ []).
Proof. unfold scoresTallied. intros ->. now rewrite app_nil_r. Qed.

Lemma handle_tallied base e s ws msg log :
  scoresTallied base s log ->
  scoresTallied base (handleClientMessage e s ws msg)
    (log ++ ghostHandle e s msg).
Proof.
  intros H. pose proof H as [Hwf Hsc].
  destruct msg as [[name|mseq mdx mdy mts|mts|]|];
    try (apply (tallied_same_players base s); [reflexivity|assumption]).
  - unfold handleClientMessage, ghostHandle.
    destruct (_ <=? _)%nat;
      [apply (tallied_same_players base s); [reflexivity|assumption]|].
    split; cbn [players sendWithLatency set_outgoingQueue set_sockets
                set_players set_clients].
    + now apply wf_set.
    + intros pid p. rewrite tally_app.
      destruct (String.eqb_spec (uuid e) pid) as [<-|Hne].
      * rewrite get_set_same. intros [= <-]. unfold tally. simpl.
        now rewrite String.eqb_refl.
      * rewrite get_set_other by assumption. intros Hget.
        unfold tally at 1. simpl.
        destruct (String.eqb_spec (uuid e) pid); [contradiction|].
        now apply Hsc.
  - unfold handleClientMessage, ghostHandle.
    destruct (Obj.get (sockets s) ws) as [[pid|]|];
      try (apply (tallied_same_players base s); [reflexivity|assumption]).
    destruct (truthy pid);
      [|apply (tallied_same_players base s); [reflexivity|assumption]].
    destruct (Obj.get (players s) pid) as [p|] eqn:Hp;
      [|apply (tallied_same_players base s); [reflexivity|assumption]].
    destruct (Player.lastInput p) as [last|];
      [|apply (tallied_same_players base s); [reflexivity|assumption]].
    destruct (_ <=? _);
      [apply (tallied_same_players base s); [reflexivity|assumption]|].
    rewrite app_nil_r. split; cbn [players set_players].
    + now apply wf_set.
    + intros q p'. destruct (String.eqb_spec pid q) as [<-|Hne].
      * rewrite get_set_same. intros [= <-]. simpl. now apply Hsc.
      * rewrite get_set_other by assumption. apply Hsc.
Qed.

(** The history records a join exactly when the handler creates a player. *)
Lemma ghost_join_creates e s ws msg pid :
  In (g_join pid) (ghostHandle e s msg) ->
  exists p,
    Obj.get (players (handleClientMessage e s ws msg)) pid = Some p
    /\ Player.score p = 0 /\ Player.id p = pid.
Proof.
  unfold ghostHandle, handleClientMessage.
  destruct msg as [[name|mseq mdx mdy mts|mts|]|]; try (intros []).
  destruct (_ <=? _)%nat; [intros []|].
  intros [[= <-]|[]].
  cbn [players sendWithLatency set_outgoingQueue set_sockets set_players set_clients].
  eexists. split; [apply get_set_same|split; reflexivity].
Qed.

Lemma ghost_quiet_keeps_players e s ws msg :
  ghostHandle e s msg = [] ->
  Obj.keys (players (handleClientMessage e s ws msg)) = Obj.keys (players s).
Proof.
  unfold ghostHandle, handleClientMessage.
  destruct msg as [[name|mseq mdx mdy mts|mts|]|]; try reflexivity.
  - destruct (_ <=? _)%nat; [reflexivity|discriminate].
  - intros _.
    destruct (Obj.get (sockets s) ws) as [[pid|]|]; try reflexivity.
    destruct (truthy pid); [|reflexivity].
    destruct (Obj.get (players s) pid) as [p|] eqn:Hp; [|reflexivity].
    destruct (Player.lastInput p); [|reflexivity].
    destruct (_ <=? _); [reflexivity|].
    cbn [players set_players]. apply keys_set_present.
    destruct (in_dec string_dec pid (Obj.keys (players s))) as [Hin|Hni];
      [exact Hin|].
    apply get_none_keys in Hni. congruence.
Qed.

Lemma handleAll_tallied base envs items : forall i s log,
  scoresTallied base s log ->
  scoresTallied base (handleAll envs i s items)
    (log ++ ghostAll envs i s items).
Proof.
  induction items as [|it items IH]; simpl; intros i s log H.
  - now rewrite app_nil_r.
  - rewrite app_assoc. apply IH. now apply handle_tallied.
Qed.

Lemma step_tallied base s ev log :
  scoresTallied base s log ->
  scoresTallied base (step s ev) (log ++ ghost s ev).
Proof.
  intros H. pose proof H as [Hwf Hsc]. destruct ev; cbn [step ghost].
  - apply (tallied_same_players base s); [reflexivity|assumption].
  - apply (tallied_same_players base s); [reflexivity|assumption].
  - rewrite app_nil_r. unfold onClose.
    destruct (Obj.get (sockets s) ws) as [[pid|]|]; try exact H.
    cbn [players set_sockets set_clients].
    destruct (truthy pid && Obj.has (players s) pid); [|exact H].
    split; cbn [players set_players set_sockets set_clients].
    + now apply wf_del.
    + intros q p Hget. apply Hsc. now apply get_del in Hget.
  - unfold processIncomingQueue.
    destruct (Queue.drain now0 (incomingQueue s)) as [out rest].
    apply handleAll_tallied. exact H.
  - apply (tallied_same_players base s); [|assumption].
    unfold flushOutgoing. now destruct (Queue.drain _ _).
  - unfold simulate. cbn [players coins set_serverTick].
    split.
    + unfold Obj.wf. rewrite gameTick_players.
      destruct (resolveCoins _ _) as [[ps cs] picked] eqn:Hr. simpl.
      destruct (resolve_spec _ _ _ _ _ Hr) as [Hsame _].
      now rewrite <- (samePos_keys _ _ Hsame), movePlayers_keys.
    + intros pid p'. rewrite gameTick_players.
      destruct (resolveCoins _ _) as [[ps cs] picked] eqn:Hr. simpl.
      assert (Hwm : Obj.wf (movePlayers (players s)))
        by (unfold Obj.wf; now rewrite movePlayers_keys).
      rewrite (resolve_scores _ _ _ _ _ Hwm Hr pid), movePlayers_get.
      destruct (Obj.get (players s) pid) as [p|] eqn:Hp; [|discriminate].
      simpl. intros [= <-]. simpl.
      rewrite tally_app, tally_picks, <- (Hsc pid p Hp).
      unfold movePlayer. now destruct (displacement p).
  - rewrite app_nil_r. split; cbn [players sweep set_players set_sockets set_clients].
    + now apply wf_filter.
    + intros q p Hget. apply Hsc. now apply get_filter in Hget.
  - apply (tallied_same_players base s); [reflexivity|assumption].
  - apply (tallied_same_players base s); [apply maybeSpawn_players|assumption].
Qed.

Lemma run_tallied base evs : forall s log,
  scoresTallied base s log ->
  scoresTallied base (run s evs) (log ++ ghostRun s evs).
Proof.
  unfold run. induction evs as [|ev evs IH]; simpl; intros s log H.
  - now rewrite app_nil_r.
  - rewrite app_assoc. apply IH. now apply step_tallied.
Qed.

Lemma ghost_picks_only_in_tick s ev pid :
  (forall e, ev <> ev_tick e) -> picksIn pid (ghost s ev) = 0.
Proof.
  intros Hne. destruct ev; try reflexivity.
  - cbn [ghost]. destruct (Queue.drain now0 (incomingQueue s)) as [out rest].
    generalize (set_incomingQueue s rest) as s0. generalize 0%nat as i.
    unfold picksIn.
    induction out as [|it out IH]; intros i s0; [reflexivity|].
    cbn [ghostAll]. rewrite filter_app, length_app.
    specialize (IH (S i)
      (handleClientMessage (envs i) s0 (Queue.ws it) (Queue.payload it))).
    assert (E : filter
                  (fun g => match g with
                            | g_pick q => String.eqb q pid
                            | g_join _ => false
                            end)
                  (ghostHandle (envs i) s0 (Queue.payload it)) = []).
    { unfold ghostHandle. destruct (Queue.payload it) as [[| | |]|];
        try reflexivity. now destruct (_ <=? _)%nat. }
    rewrite E. simpl. exact IH.
  - exfalso. now apply (Hne e).
Qed.

(** C10: a join creates the player with score 0; across any callback a
    player that stays (and whose uuid no join in that callback draws again)
    has its score grown by the picks the callback records for it, which are
    none outside [gameTick], so the score never decreases; and in every
    state the server reaches, a player's score is the number of picks in
    its name since it joined, hence not negative. *)
Theorem score_counts_coins_since_join :
  (forall e s ws name,
     (List.length (Obj.keys (players s)) < cfg.MAX_PLAYERS)%nat ->
     exists p,
       Obj.get
         (players (handleClientMessage e s ws (Some (msg_join name))))
         (uuid e) = Some p
       /\ Player.score p = 0)
  /\ (forall s ev pid p p',
        Obj.wf (players s) ->
        ~ In (g_join pid) (ghost s ev) ->
        Obj.get (players s) pid = Some p ->
        Obj.get (players (step s ev)) pid = Some p' ->
        Player.score p' = Player.score p + picksIn pid (ghost s ev)
        /\ Player.score p <= Player.score p'
        /\ ((forall e, ev <> ev_tick e) -> Player.score p' = Player.score p))
  /\ (forall t0 evs pid p,
        Obj.get (players (run (init t0) evs)) pid = Some p ->
        Player.score p = tally 0 pid (ghostRun (init t0) evs)
        /\ 0 <= Player.score p).
Proof.
  split; [|split].
  - intros e s ws name Hroom.
    unfold handleClientMessage.
    assert (Hb : (cfg.MAX_PLAYERS <=? List.length (Obj.keys (players s)))%nat
                 = false) by (apply Nat.leb_gt; exact Hroom).
    rewrite Hb. cbn [players sendWithLatency set_outgoingQueue set_sockets
                       set_players set_clients].
    eexists. split; [apply get_set_same|reflexivity].
  - intros s ev pid p p' Hwf Hnj Hp Hp'.
    assert (Hinv : scoresTallied (scoreIn s) s []).
    { split; [assumption|]. intros q pq Hq. unfold tally, scoreIn. simpl.
      now rewrite Hq. }
    destruct (step_tallied _ s ev [] Hinv) as [_ Hsc].
    specialize (Hsc pid p' Hp'). simpl in Hsc.
    unfold scoreIn in Hsc. rewrite Hp in Hsc.
    rewrite tally_no_join in Hsc by assumption.
    split; [assumption|]. split.
    + unfold picksIn in Hsc. lia.
    + intros Hne. rewrite (ghost_picks_only_in_tick s ev pid Hne) in Hsc. lia.
  - intros t0 evs pid p Hp.
    assert (Hinv : scoresTallied (fun _ => 0) (init t0) []).
    { split; [constructor|]. intros q pq Hq. discriminate. }
    destruct (run_tallied _ evs (init t0) [] Hinv) as [_ Hsc].
    specialize (Hsc pid p Hp). simpl in Hsc.
    split; [assumption|]. rewrite Hsc. now apply tally_nonneg.
Qed.

End Scores.

(** ** The theorems at sample inputs *)

Section Witnesses.
Import Server Props.

(** The sample player, fed 1, 2, 2, 1, 5, 4 over its connection. *)
Lemma input_applied_iff_newer_witness :
  accepted Sample.e0 Sample.oneJoined "c1" "p1" [1; 2; 2; 1; 5; 4] = [1; 2; 5].
Proof.
  apply (input_applied_iff_newer Sample.e0 Sample.oneJoined "c1" "p1"
           Sample.ann Sample.idle (Some 1) None None None);
    reflexivity.
Defined.

(** A join at a full server, and the first join at an empty one. *)
Lemma join_rejected_at_capacity_else_acked_witness :
  players (handleClientMessage Sample.e0 Sample.full "c9" (Some (msg_join None)))
  = players Sample.full
  /\ exists p,
       players
         (handleClientMessage Sample.e0 (init 0) "c1" (Some (msg_join None)))
       = [("p1"%string, p)]
       /\ Player.score p = 0.
Proof.
  split.
  - apply (proj1 (join_rejected_at_capacity_else_acked
                    Sample.e0 Sample.full "c9" None)).
    vm_compute. lia.
  - destruct (proj2 (join_rejected_at_capacity_else_acked
                       Sample.e0 (init 0) "c1" None))
      as [p [Hp [_ [Hs _]]]].
    + vm_compute. lia.
    + simpl. tauto.
    + exists p. split; [exact Hp|exact Hs].
Defined.


(** A player holding the right arrow moves by the nominal step. *)
Lemma movement_step_witness :
  hypot (fst (displacement Sample.runner)) (snd (displacement Sample.runner))
  = moveDist.
Proof.
  apply (proj1 (movement_step Sample.runner)).
  simpl. rewrite hypot_axis; lra.
Defined.

(** The first player to join starts at score 0. *)
Lemma score_counts_coins_since_join_witness :
  exists p,
    Obj.get
      (players
         (handleClientMessage Sample.e0 (init 0) "c1" (Some (msg_join None))))
      "p1" = Some p
    /\ Player.score p = 0.
Proof.
  apply (proj1 score_counts_coins_since_join Sample.e0 (init 0) "c1"%string
           None).
  vm_compute. lia.
Defined.


End Witnesses.

(** * Further properties of the code *)

(** ** Queues and latency *)

Section QueueMore.
Import Server Reach.

Lemma drain_split {A : Type} (now : Z) : forall q : list (Queue.Item A),
  q = fst (Queue.drain now q) ++ snd (Queue.drain now q)
  /\ Forall (fun it => Queue.deliverAt it <= now) (fst (Queue.drain now q))
  /\ match snd (Queue.drain now q) with
     | [] => True
     | it :: _ => now < Queue.deliverAt it
     end.
Proof.
  induction q as [|x q IH]; simpl; [auto|].
  destruct (Z.leb_spec (Queue.deliverAt x) now) as [Hle|Hgt].
  - destruct (Queue.drain now q) as [out rest]. simpl in *.
    destruct IH as [E [Hd Hr]].
    split; [now f_equal|]. split; [now constructor|exact Hr].
  - simpl. auto.
Qed.

Lemma drain_app_late {A : Type} (now : Z) (x : Queue.Item A) :
  now < Queue.deliverAt x ->
  forall q, fst (Queue.drain now (q ++ [x])) = fst (Queue.drain now q).
Proof.
  intros Hx. induction q as [|y q IH]; simpl.
  - destruct (Z.leb_spec (Queue.deliverAt x) now); [lia|reflexivity].
  - destruct (Queue.deliverAt y <=? now); [|reflexivity].
    destruct (Queue.drain now (q ++ [x])) as [o1 r1].
    destruct (Queue.drain now q) as [o2 r2]. simpl in *. now f_equal.
Qed.

(** X1: in every state the server reaches, [processIncomingQueue] handles
    exactly the frames with [deliverAt <= now], in queue order, and leaves
    exactly the others, none of them due. *)
Theorem incoming_frames_handled_when_due
  (t0 now : Z) (evs : list Event) (envs : nat -> Env) :
  let s := run (init t0) evs in
  let q := incomingQueue s in
  processIncomingQueue now envs s
  = handleAll envs 0
      (set_incomingQueue s (filter (fun it => negb (Queue.due now it)) q))
      (filter (Queue.due now) q)
  /\ incomingQueue (processIncomingQueue now envs s)
     = filter (fun it => negb (Queue.due now it)) q
  /\ Forall (fun it => now < Queue.deliverAt it)
       (incomingQueue (processIncomingQueue now envs s)).
Proof.
  intros s q.
  assert (Hs : Queue.sorted q) by (apply run_incoming_sorted; constructor).
  assert (E : processIncomingQueue now envs s
              = handleAll envs 0
                  (set_incomingQueue s
                     (filter (fun it => negb (Queue.due now it)) q))
                  (filter (Queue.due now) q)).
  { unfold processIncomingQueue. fold q. now rewrite (drain_sorted now q Hs). }
  split; [exact E|].
  rewrite E, handleAll_incomingQueue. cbn [incomingQueue set_incomingQueue].
  split; [reflexivity|].
  apply Forall_forall. intros it Hin. apply filter_In in Hin.
  destruct Hin as [_ Hd]. unfold Queue.due in Hd.
  apply negb_true_iff, Z.leb_gt in Hd. exact Hd.
Qed.

(** X2: from any state, the flush shifts the longest prefix of the
    outbound queue made of due packets (what stays begins with a packet not
    yet due), leaves the rest in place, and hands to [ws.send] exactly
    those shifted packets whose connection is open; a packet for a
    connection that is not open is dropped without a trace.  Nothing but
    the outbound queue changes. *)
Theorem flush_sends_due_to_open_only (now : Z) (s : State) :
  exists shifted,
    outgoingQueue s = shifted ++ outgoingQueue (snd (flushOutgoing now s))
    /\ Forall (fun it => Queue.deliverAt it <= now) shifted
    /\ match outgoingQueue (snd (flushOutgoing now s)) with
       | [] => True
       | it :: _ => now < Queue.deliverAt it
       end
    /\ fst (flushOutgoing now s)
       = filter (fun it => isOpen s (Queue.ws it)) shifted
    /\ Forall (fun it => Queue.deliverAt it <= now
                         /\ Obj.get (clients s) (Queue.ws it) = Some true)
         (fst (flushOutgoing now s))
    /\ players (snd (flushOutgoing now s)) = players s
    /\ coins (snd (flushOutgoing now s)) = coins s
    /\ sockets (snd (flushOutgoing now s)) = sockets s
    /\ clients (snd (flushOutgoing now s)) = clients s
    /\ incomingQueue (snd (flushOutgoing now s)) = incomingQueue s.
Proof.
  unfold flushOutgoing.
  destruct (drain_split now (outgoingQueue s)) as [E [Hd Hr]].
  destruct (Queue.drain now (outgoingQueue s)) as [out rest].
  cbn [fst snd outgoingQueue set_outgoingQueue] in *. exists out.
  split; [exact E|]. split; [exact Hd|]. split; [exact Hr|].
  split; [reflexivity|].
  split; [|repeat split].
  apply Forall_forall. intros it Hin. apply filter_In in Hin.
  destruct Hin as [Hin Ho]. rewrite Forall_forall in Hd.
  split; [now apply Hd|].
  unfold isOpen in Ho.
  destruct (Obj.get (clients s) (Queue.ws it)) as [[|]|];
    [reflexivity|discriminate|discriminate].
Qed.

(** X3: [sortQueues] puts both queues in non-decreasing [deliverAt] order,
    keeps their items (a permutation) and the order of items with equal
    [deliverAt], touches nothing else, and a second run changes nothing. *)
Theorem sortQueues_orders_and_keeps (s : State) :
  Queue.sorted (incomingQueue (sortQueues s))
  /\ Queue.sorted (outgoingQueue (sortQueues s))
  /\ Permutation (incomingQueue (sortQueues s)) (incomingQueue s)
  /\ Permutation (outgoingQueue (sortQueues s)) (outgoingQueue s)
  /\ (forall d,
        filter (fun it => Queue.deliverAt it =? d) (outgoingQueue (sortQueues s))
        = filter (fun it => Queue.deliverAt it =? d) (outgoingQueue s))
  /\ (forall d,
        filter (fun it => Queue.deliverAt it =? d) (incomingQueue (sortQueues s))
        = filter (fun it => Queue.deliverAt it =? d) (incomingQueue s))
  /\ players (sortQueues s) = players s
  /\ coins (sortQueues s) = coins s
  /\ sockets (sortQueues s) = sockets s
  /\ sortQueues (sortQueues s) = sortQueues s.
Proof.
  unfold sortQueues.
  cbn [incomingQueue outgoingQueue players coins sockets
       set_incomingQueue set_outgoingQueue].
  split; [apply sort_sorted|]. split; [apply sort_sorted|].
  split; [apply sort_perm|]. split; [apply sort_perm|].
  split; [intros d; apply sort_stable|].
  split; [intros d; apply sort_stable|].
  repeat split.
  unfold set_outgoingQueue, set_incomingQueue. simpl.
  rewrite (sort_of_sorted (Queue.sort (incomingQueue s)))
    by apply sort_sorted.
  rewrite (sort_of_sorted (Queue.sort (outgoingQueue s)))
    by apply sort_sorted.
  reflexivity.
Qed.

(** X4: right after [sortQueues] the flush is exact: it shifts precisely
    the packets with [deliverAt <= now] and leaves precisely the others. *)
Theorem flush_after_sort_is_exact (now : Z) (s : State) :
  let q := outgoingQueue (sortQueues s) in
  fst (flushOutgoing now (sortQueues s))
  = filter (fun it => isOpen s (Queue.ws it)) (filter (Queue.due now) q)
  /\ outgoingQueue (snd (flushOutgoing now (sortQueues s)))
     = filter (fun it => negb (Queue.due now it)) q
  /\ Forall (fun it => now < Queue.deliverAt it)
       (outgoingQueue (snd (flushOutgoing now (sortQueues s)))).
Proof.
  intros q. unfold flushOutgoing. fold q.
  assert (Hs : Queue.sorted q) by apply sort_sorted.
  rewrite (drain_sorted now q Hs). cbn [fst snd outgoingQueue set_outgoingQueue].
  split; [reflexivity|]. split; [reflexivity|].
  apply Forall_forall. intros it Hin. apply filter_In in Hin.
  destruct Hin as [_ Hd]. unfold Queue.due in Hd.
  apply negb_true_iff, Z.leb_gt in Hd. exact Hd.
Qed.

(** X5: with the jitter the environment can give, a packet is queued with
    [deliverAt] between 190 ms and 209 ms from now, behind the packets
    already queued, and no flush earlier than 190 ms from now sends
    anything it would not have sent without that packet. *)
Theorem queued_packet_waits_one_way_latency
  (e : Env) (s : State) (ws : string) (packet : Packet) (now' : Z) :
  envOk e ->
  now' < now e + 190 ->
  exists it,
    outgoingQueue (sendWithLatency e s ws packet) = outgoingQueue s ++ [it]
    /\ Queue.ws it = ws /\ Queue.payload it = packet
    /\ now e + 190 <= Queue.deliverAt it <= now e + 209
    /\ fst (flushOutgoing now' (sendWithLatency e s ws packet))
       = fst (flushOutgoing now' s).
Proof.
  intros [_ [_ Hj]] Hnow. specialize (Hj ws).
  unfold LATENCY_JITTER, cfg.LATENCY_JITTER_MS in Hj.
  eexists. split; [reflexivity|]. cbn [Queue.ws Queue.payload Queue.deliverAt].
  unfold ONE_WAY_LATENCY, cfg.LATENCY_MS.
  split; [reflexivity|]. split; [reflexivity|]. split; [lia|].
  unfold flushOutgoing, sendWithLatency.
  cbn [outgoingQueue set_outgoingQueue].
  pose proof (drain_app_late now'
                (Queue.mkItem (now e + ONE_WAY_LATENCY + jitter e ws) ws packet))
    as Hd.
  cbn [Queue.deliverAt] in Hd.
  unfold ONE_WAY_LATENCY, cfg.LATENCY_MS in *.
  specialize (Hd ltac:(lia) (outgoingQueue s)).
  destruct (Queue.drain now' (outgoingQueue s ++ _)) as [o1 r1].
  destruct (Queue.drain now' (outgoingQueue s)) as [o2 r2].
  cbn [fst] in *. now rewrite Hd.
Qed.

End QueueMore.

(** ** What every reachable server state satisfies *)

Section ServerInvariants.
Import Server Props Reach.

Lemma run_invariant (ok : Event -> Prop) (P : State -> Prop) :
  (forall s ev, ok ev -> P s -> P (step s ev)) ->
  forall evs s, Forall ok evs -> P s -> P (run s evs).
Proof.
  intros Hstep. unfold run.
  induction evs as [|ev evs IH]; simpl; intros s Hok Hs; [exact Hs|].
  inversion Hok; subst. apply IH; [assumption|]. now apply Hstep.
Qed.

Lemma length_set_le {V : Type} (o : Obj.t V) k v :
  (List.length (Obj.set o k v) <= S (List.length o))%nat.
Proof.
  induction o as [|[k' v'] o IH]; simpl; [lia|].
  destruct (String.eqb k' k); simpl; lia.
Qed.

Lemma length_set_present {V : Type} (o : Obj.t V) k v v0 :
  Obj.get o k = Some v0 -> List.length (Obj.set o k v) = List.length o.
Proof.
  induction o as [|[k' v'] o IH]; simpl; [discriminate|].
  destruct (String.eqb k' k); simpl; [reflexivity|].
  intros H. now rewrite IH.
Qed.

Lemma Forall_set {V : Type} (Q : V -> Prop) (o : Obj.t V) k v :
  Forall (fun kv => Q (snd kv)) o -> Q v ->
  Forall (fun kv => Q (snd kv)) (Obj.set o k v).
Proof.
  intros Ho Hv. induction o as [|[k' v'] o IH]; simpl.
  - now constructor.
  - inversion Ho; subst.
    destruct (String.eqb k' k); constructor; auto.
Qed.

Lemma Forall_filter {X : Type} (Q : X -> Prop) (f : X -> bool) l :
  Forall Q l -> Forall Q (filter f l).
Proof.
  intros H. apply Forall_forall. intros x Hin. apply filter_In in Hin.
  rewrite Forall_forall in H. now apply H.
Qed.

Lemma get_forall {V : Type} (Q : V -> Prop) (o : Obj.t V) k v :
  Forall (fun kv => Q (snd kv)) o -> Obj.get o k = Some v -> Q v.
Proof.
  intros Ho Hg. apply get_some_in in Hg. rewrite Forall_forall in Ho.
  now apply (Ho (k, v)).
Qed.

(** What a frame can do to the player table: nothing, add the joining
    player, or replace the stored intent of the sender's player. *)
Lemma handle_players_cases e s ws msg :
  players (handleClientMessage e s ws msg) = players s
  \/ (exists name',
        (List.length (players s) < cfg.MAX_PLAYERS)%nat
        /\ players (handleClientMessage e s ws msg)
           = Obj.set (players s) (uuid e)
               (Player.mk (uuid e) name'
                  (rnd_x e * (MAP_W - 40) + 20) (rnd_y e * (MAP_H - 40) + 20)
                  0 0 0 (Some (Input.mk 0 (Some 0%R) (Some 0%R) None)) (now e)))
  \/ (exists pid p last i dx dy,
        Obj.get (players s) pid = Some p
        /\ Player.lastInput p = Some last
        /\ Input.seq last < Input.seq i
        /\ Input.dx i = Some dx /\ Input.dy i = Some dy
        /\ (-1 <= dx <= 1)%R /\ (-1 <= dy <= 1)%R
        /\ players (handleClientMessage e s ws msg)
           = Obj.set (players s) pid (Player.with_input p i (now e))).
Proof.
  destruct msg as [[name|mseq mdx mdy mts|mts|]|]; try (left; reflexivity).
  - unfold handleClientMessage.
    destruct (Nat.leb_spec cfg.MAX_PLAYERS (List.length (Obj.keys (players s))))
      as [Hfull|Hroom]; [left; reflexivity|].
    right. left. eexists. split.
    + unfold Obj.keys in Hroom. rewrite length_map in Hroom. exact Hroom.
    + reflexivity.
  - unfold handleClientMessage.
    destruct (Obj.get (sockets s) ws) as [[pid|]|]; try (left; reflexivity).
    destruct (truthy pid); [|left; reflexivity].
    destruct (Obj.get (players s) pid) as [p|] eqn:Hp; [|left; reflexivity].
    destruct (Player.lastInput p) as [last|] eqn:Hl; [|left; reflexivity].
    destruct (Z.leb_spec (numberOr0Z mseq) (Input.seq last));
      [left; reflexivity|].
    right. right.
    exists pid, p, last,
      (Input.mk (numberOr0Z mseq)
         (Some (Rmax (-1) (Rmin 1 (numberOr0 mdx))))
         (Some (Rmax (-1) (Rmin 1 (numberOr0 mdy))))
         (Some match mts with
               | Some t => if t =? 0 then now e else t
               | None => now e
               end)),
      (Rmax (-1) (Rmin 1 (numberOr0 mdx))),
      (Rmax (-1) (Rmin 1 (numberOr0 mdy))).
    split; [exact Hp|]. split; [exact Hl|]. cbn [Input.seq Input.dx Input.dy].
    split; [assumption|]. split; [reflexivity|]. split; [reflexivity|].
    split; [apply clamp_range; lra|]. split; [apply clamp_range; lra|].
    reflexivity.
Qed.

Lemma handle_coins e s ws msg :
  coins (handleClientMessage e s ws msg) = coins s.
Proof.
  unfold handleClientMessage.
  repeat match goal with
         | |- context [match ?x with _ => _ end] => destruct x
         end; reflexivity.
Qed.

Lemma handleAll_coins envs items : forall i s,
  coins (handleAll envs i s items) = coins s.
Proof.
  induction items as [|it items IH]; simpl; intros i s; [reflexivity|].
  now rewrite IH, handle_coins.
Qed.

(** What step 2 does to the entries of the player table: scores only. *)
Lemma resolve_entries : forall cs ps ps' cs' picked,
  resolveCoins ps cs = (ps', cs', picked) ->
  Forall2 (fun a b => fst a = fst b
                      /\ exists z, snd b = Player.with_score (snd a) z)
    ps ps'.
Proof.
  assert (Hrefl : forall ps : Obj.t Player.t,
            Forall2 (fun a b => fst a = fst b
                                /\ exists z, snd b = Player.with_score (snd a) z)
              ps ps).
  { induction ps as [|[k p] ps IH]; constructor; [|exact IH].
    split; [reflexivity|]. exists (Player.score p). simpl.
    symmetry. now apply with_score_same. }
  induction cs as [|[cid coin] cs IH]; simpl; intros ps ps' cs' picked H.
  - injection H as <- <- <-. apply Hrefl.
  - pose proof (award_spec coin ps) as S.
    destruct (award coin ps) as [[w ps1]|].
    + destruct (resolveCoins ps1 cs) as [[ps2 cs2] pk] eqn:Hr.
      injection H as <- <- <-. specialize (IH _ _ _ _ Hr).
      destruct S as [l1 [p [l2 [-> [-> _]]]]].
      apply Forall2_app_inv_l in IH.
      destruct IH as [m1 [m2 [H1 [H2 ->]]]].
      inversion H2 as [|a b l2a l2b [Hk [z Hz]] H2' Ea Eb]; subst.
      apply Forall2_app; [exact H1|]. constructor; [|exact H2'].
      simpl in *. split; [exact Hk|]. exists z. rewrite Hz. reflexivity.
    + destruct (resolveCoins ps cs) as [[ps2 cs2] pk] eqn:Hr.
      injection H as <- <- <-. now apply (IH _ _ _ _ Hr).
Qed.

Section PlayerInvariant.
Variable good : Env -> Prop.
Variable Q : Player.t -> Prop.
Hypothesis Q_join : forall e name',
  good e ->
  Q (Player.mk (uuid e) name'
       (rnd_x e * (MAP_W - 40) + 20) (rnd_y e * (MAP_H - 40) + 20)
       0 0 0 (Some (Input.mk 0 (Some 0%R) (Some 0%R) None)) (now e)).
Hypothesis Q_input : forall p last i dx dy seen,
  Q p -> Player.lastInput p = Some last -> Input.seq last < Input.seq i ->
  Input.dx i = Some dx -> Input.dy i = Some dy ->
  (-1 <= dx <= 1)%R -> (-1 <= dy <= 1)%R ->
  Q (Player.with_input p i seen).
Hypothesis Q_move : forall p, Q p -> Q (movePlayer p).
Hypothesis Q_score : forall p z, Q p -> Q (Player.with_score p z).

Lemma handle_all e s ws msg :
  good e -> allPlayers Q (players s) -> allPlayers Q (players (handleClientMessage e s ws msg)).
Proof.
  intros He Hs.
  destruct (handle_players_cases e s ws msg) as [E|[H|H]].
  2: destruct H as (nm & _ & E).
  3: destruct H as (pid & p & last & i & dx & dy & Hp & Hl & Hlt & Hx & Hy
                    & Bx & By & E).
  all: rewrite E.
  - exact Hs.
  - apply Forall_set; [exact Hs|now apply Q_join].
  - apply Forall_set; [exact Hs|].
    eapply Q_input; try eassumption. now apply (get_forall Q _ _ _ Hs Hp).
Qed.

Lemma handleAll_all envs items : forall i s,
  (forall j, good (envs j)) -> allPlayers Q (players s) ->
  allPlayers Q (players (handleAll envs i s items)).
Proof.
  induction items as [|it items IH]; simpl; intros i s He Hs; [exact Hs|].
  apply IH; [exact He|]. now apply handle_all.
Qed.

Lemma tick_all e s : allPlayers Q (players s) -> allPlayers Q (players (gameTick e s)).
Proof.
  intros Hs. rewrite gameTick_players.
  destruct (resolveCoins _ _) as [[ps cs] picked] eqn:Hr. simpl.
  pose proof (resolve_entries _ _ _ _ _ Hr) as H2.
  assert (Hm : allPlayers Q (movePlayers (players s))).
  { unfold allPlayers, movePlayers. apply Forall_map. simpl.
    eapply Forall_impl; [|exact Hs]. intros kp. apply Q_move. }
  clear Hr. unfold allPlayers in *.
  induction H2 as [|a b l l' [_ [z Hz]] _ IH]; [constructor|].
  inversion Hm; subst. constructor; [|now apply IH].
  rewrite Hz. now apply Q_score.
Qed.

Lemma step_all s ev :
  eventAll good ev -> allPlayers Q (players s) -> allPlayers Q (players (step s ev)).
Proof.
  intros Hok Hs. destruct ev; cbn [step]; try exact Hs.
  - unfold onClose. destruct (Obj.get (sockets s) ws) as [[pid|]|];
      try exact Hs.
    cbn [players set_sockets set_clients]. destruct (_ && _); [|exact Hs].
    cbn [players set_players set_sockets set_clients]. rewrite del_as_filter.
    now apply Forall_filter.
  - unfold processIncomingQueue.
    destruct (Queue.drain now0 (incomingQueue s)) as [out rest].
    apply handleAll_all; [exact Hok|exact Hs].
  - unfold flushOutgoing. destruct (Queue.drain _ _). exact Hs.
  - now apply tick_all.
  - cbn [players sweep set_players set_sockets set_clients]. now apply Forall_filter.
  - now rewrite maybeSpawn_players.
Qed.

Lemma run_all evs s :
  Forall (eventAll good) evs -> allPlayers Q (players s) -> allPlayers Q (players (run s evs)).
Proof.
  intros Hok Hs.
  apply (run_invariant (eventAll good) (fun s => allPlayers Q (players s)));
    try assumption.
  intros s0 ev. apply step_all.
Qed.

End PlayerInvariant.

End ServerInvariants.

Section ServerInvariantTheorems.
Import Server Props Reach.

Lemma eventAll_True ev : eventAll (fun _ => True) ev.
Proof. destruct ev; simpl; auto. Qed.

Lemma events_True evs : Forall (eventAll (fun _ => True)) evs.
Proof. apply Forall_forall. intros ev _. apply eventAll_True. Qed.

(** X6: in every state the server reaches, every player has a stored
    intent whose [dx] and [dy] are numbers in [-1, 1] and whose sequence
    number is not negative, whatever the clients send. *)
Theorem stored_intent_always_clamped (t0 : Z) (evs : list Event) :
  allPlayers intentOk (players (run (init t0) evs)).
Proof.
  apply (run_all (fun _ => True) intentOk); try apply events_True;
    try (now constructor).
  - intros e nm _. exists (Input.mk 0 (Some 0%R) (Some 0%R) None), 0%R, 0%R.
    simpl. repeat split; try lra; lia.
  - intros p last i dx dy seen [i0 [x0 [y0 [Hl0 [_ [_ [_ [_ H0]]]]]]]]
      Hl Hlt Hx Hy Bx By.
    exists i, dx, dy. simpl. repeat split; try tauto.
    rewrite Hl0 in Hl. injection Hl as ->. lia.
  - intros p [i [dx [dy H]]]. exists i, dx, dy.
    unfold movePlayer. destruct (displacement p). exact H.
  - intros p z [i [dx [dy H]]]. exists i, dx, dy. exact H.
Qed.

(** X7: with [Math.random()] in [0, 1), in every state the server reaches
    every player is inside the map inset by the radius 8: at join, after
    every tick and between ticks. *)
Theorem players_always_in_bounds (t0 : Z) (evs : list Event) :
  Forall eventOk evs ->
  allPlayers inBounds (players (run (init t0) evs)).
Proof.
  intros Hok.
  apply (run_all envOk inBounds); try assumption; try (now constructor).
  - intros e nm [[Hx1 Hx2] [[Hy1 Hy2] _]]. unfold inBounds. simpl.
    unfold MAP_W, MAP_H, cfg.MAP_WIDTH, cfg.MAP_HEIGHT. lra.
  - intros p last i dx dy seen Hp _ _ _ _ _ _. exact Hp.
  - intros p _. apply movePlayer_inBounds.
  - intros p z Hp. exact Hp.
Qed.

Lemma handle_length e s ws msg :
  (List.length (players s) <= cfg.MAX_PLAYERS)%nat ->
  (List.length (players (handleClientMessage e s ws msg))
   <= cfg.MAX_PLAYERS)%nat.
Proof.
  intros Hs. destruct (handle_players_cases e s ws msg) as [E|[H|H]].
  2: destruct H as (nm & Hroom & E).
  3: destruct H as (pid & p & last & i & dx & dy & Hp & _ & _ & _ & _
                    & _ & _ & E).
  all: rewrite E.
  - exact Hs.
  - pose proof (length_set_le (players s) (uuid e)
                  (Player.mk (uuid e) nm
                     (rnd_x e * (MAP_W - 40) + 20) (rnd_y e * (MAP_H - 40) + 20)
                     0 0 0 (Some (Input.mk 0 (Some 0%R) (Some 0%R) None))
                     (now e))).
    lia.
  - now rewrite (length_set_present _ _ _ _ Hp).
Qed.

Lemma filter_length_le {X : Type} (f : X -> bool) l :
  (List.length (filter f l) <= List.length l)%nat.
Proof.
  induction l as [|x l IH]; simpl; [lia|]. destruct (f x); simpl; lia.
Qed.

(** X8: the player table never holds more than [MAX_PLAYERS] players, in
    any state the server reaches. *)
Theorem player_count_never_exceeds_capacity (t0 : Z) (evs : list Event) :
  (List.length (players (run (init t0) evs)) <= cfg.MAX_PLAYERS)%nat.
Proof.
  apply (run_invariant (fun _ => True)
           (fun s => (List.length (players s) <= cfg.MAX_PLAYERS)%nat)).
  - intros s ev _ Hs. destruct ev; cbn [step]; try exact Hs.
    + unfold onClose. destruct (Obj.get (sockets s) ws) as [[pid|]|];
        try exact Hs.
      cbn [players set_sockets set_clients]. destruct (_ && _); [|exact Hs].
      cbn [players set_players set_sockets set_clients]. rewrite del_as_filter.
      pose proof (filter_length_le
                    (fun kv : string * Player.t =>
                       negb (String.eqb (fst kv) pid)) (players s)).
      lia.
    + unfold processIncomingQueue.
      destruct (Queue.drain now0 (incomingQueue s)) as [out rest].
      assert (G : forall items i s0,
                (List.length (players s0) <= cfg.MAX_PLAYERS)%nat ->
                (List.length (players (handleAll envs i s0 items))
                 <= cfg.MAX_PLAYERS)%nat).
      { induction items as [|it items IH]; simpl; intros i s0 H0;
          [exact H0|].
        apply IH. now apply handle_length. }
      apply G. exact Hs.
    + unfold flushOutgoing. destruct (Queue.drain _ _). exact Hs.
    + rewrite gameTick_players.
      destruct (resolveCoins _ _) as [[ps cs] picked] eqn:Hr. simpl.
      destruct (resolve_spec _ _ _ _ _ Hr) as [Hsame _].
      apply samePos_keys in Hsame. rewrite movePlayers_keys in Hsame.
      apply (f_equal (@List.length string)) in Hsame.
      unfold Obj.keys in Hsame. rewrite !length_map in Hsame. lia.
    + cbn [players sweep set_players set_sockets set_clients].
      pose proof (filter_length_le
                    (fun kp : string * Player.t => negb (stale now0 (snd kp)))
                    (players s)).
      lia.
    + now rewrite maybeSpawn_players.
  - apply Forall_forall. intros; exact I.
  - simpl. lia.
Qed.

Lemma broadcast_coins e s : coins (broadcastSnapshot e s) = coins s.
Proof.
  unfold broadcastSnapshot. apply fold_left_keeps.
  intros acc w. now destruct (isOpen s w).
Qed.

Lemma maybeSpawn_coins_cases e s :
  coins (maybeSpawnCoin e s) = coins s
  \/ ((List.length (coins s) < MAX_COINS)%nat
      /\ coins (maybeSpawnCoin e s)
         = Obj.set (coins s) (uuid e)
             (Coin.mk (uuid e) (rnd_x e * (MAP_W - 20 * 2) + 20)
                (rnd_y e * (MAP_H - 20 * 2) + 20))).
Proof.
  unfold maybeSpawnCoin.
  destruct (Nat.leb_spec MAX_COINS (List.length (Obj.keys (coins s))))
    as [H|H]; [left; reflexivity|].
  right. unfold Obj.keys in H. rewrite length_map in H.
  split; [exact H|reflexivity].
Qed.

Lemma gameTick_coins e s :
  exists st,
    coins st = expectedLeft (movePlayers (players s)) (coins s)
    /\ (coins (gameTick e s) = coins st
        \/ coins (gameTick e s) = coins (maybeSpawnCoin e st)).
Proof.
  unfold gameTick, simulate. cbn [players coins set_serverTick].
  destruct (resolveCoins _ _) as [[ps cs] picked] eqn:Hr.
  destruct (resolve_spec _ _ _ _ _ Hr) as [_ [_ Hleft]].
  destruct (COIN_SPAWN_INTERVAL_MS <=? _).
  - eexists. split; [|right; destruct (_ =? 0);
                       [rewrite broadcast_coins|]; reflexivity].
    cbn [coins set_lastCoinSpawn set_coins set_players]. exact Hleft.
  - eexists. split; [|left; destruct (_ =? 0);
                       [rewrite broadcast_coins|]; reflexivity].
    cbn [coins set_coins set_players]. exact Hleft.
Qed.

Lemma step_coins_cases s ev :
  coins (step s ev) = coins s
  \/ (exists e, ev = ev_cliSpawn e
                /\ coins (step s ev) = coins (maybeSpawnCoin e s))
  \/ (exists e st,
        ev = ev_tick e
        /\ coins st = expectedLeft (movePlayers (players s)) (coins s)
        /\ (coins (step s ev) = coins st
            \/ coins (step s ev) = coins (maybeSpawnCoin e st))).
Proof.
  destruct ev; cbn [step]; try (left; reflexivity).
  - left. unfold onClose. destruct (Obj.get (sockets s) ws) as [[pid|]|];
      try reflexivity.
    cbn [players set_sockets set_clients]. now destruct (_ && _).
  - left. unfold processIncomingQueue.
    destruct (Queue.drain now0 (incomingQueue s)) as [out rest].
    now rewrite handleAll_coins.
  - left. unfold flushOutgoing. now destruct (Queue.drain _ _).
  - right. right. destruct (gameTick_coins e s) as [st [H1 H2]].
    exists e, st. auto.
  - right. left. exists e. split; reflexivity.
Qed.

(** X9: the coin table never holds more than [MAX_COINS] coins, in any
    state the server reaches. *)
Theorem coin_count_never_exceeds_cap (t0 : Z) (evs : list Event) :
  (List.length (coins (run (init t0) evs)) <= MAX_COINS)%nat.
Proof.
  assert (Hspawn : forall e st,
            (List.length (coins st) <= MAX_COINS)%nat ->
            (List.length (coins (maybeSpawnCoin e st)) <= MAX_COINS)%nat).
  { intros e st H. destruct (maybeSpawn_coins_cases e st) as [E|[Hlt E]];
      rewrite E; [exact H|].
    pose proof (length_set_le (coins st) (uuid e)
                  (Coin.mk (uuid e) (rnd_x e * (MAP_W - 20 * 2) + 20)
                     (rnd_y e * (MAP_H - 20 * 2) + 20))).
    lia. }
  apply (run_invariant (fun _ => True)
           (fun s => (List.length (coins s) <= MAX_COINS)%nat)).
  - intros s ev _ Hs.
    destruct (step_coins_cases s ev) as [E|[[e [_ E]]|[e [st [_ [Hst [E|E]]]]]]];
      rewrite E; auto.
    + rewrite Hst. unfold expectedLeft.
      pose proof (filter_length_le
                    (fun kc : string * Coin.t =>
                       match option_map fst
                               (find (fun kp => inReach (snd kp) (snd kc))
                                  (movePlayers (players s))) with
                       | Some _ => false
                       | None => true
                       end) (coins s)).
      lia.
    + apply Hspawn. rewrite Hst. unfold expectedLeft.
      pose proof (filter_length_le
                    (fun kc : string * Coin.t =>
                       match option_map fst
                               (find (fun kp => inReach (snd kp) (snd kc))
                                  (movePlayers (players s))) with
                       | Some _ => false
                       | None => true
                       end) (coins s)).
      lia.
  - apply Forall_forall. intros; exact I.
  - simpl. lia.
Qed.

(** X10: with [Math.random()] in [0, 1), every coin of every state the
    server reaches lies in the map inset by the spawn margin 20. *)
Theorem coins_always_in_margin (t0 : Z) (evs : list Event) :
  Forall eventOk evs ->
  allPlayers coinInMargin (coins (run (init t0) evs)).
Proof.
  intros Hok.
  assert (Hspawn : forall e st,
            envOk e -> allPlayers coinInMargin (coins st) ->
            allPlayers coinInMargin (coins (maybeSpawnCoin e st))).
  { intros e st [[Hx1 Hx2] [[Hy1 Hy2] _]] H.
    destruct (maybeSpawn_coins_cases e st) as [E|[_ E]]; rewrite E;
      [exact H|].
    apply Forall_set; [exact H|]. unfold coinInMargin. simpl.
    unfold MAP_W, MAP_H, cfg.MAP_WIDTH, cfg.MAP_HEIGHT. lra. }
  apply (run_invariant eventOk
           (fun s => allPlayers coinInMargin (coins s)));
    try assumption; try (now constructor).
  intros s ev Hev Hs.
  destruct (step_coins_cases s ev) as [E|[[e [Eev E]]|[e [st [Eev [Hst [E|E]]]]]]];
    rewrite E; auto.
  - subst ev. apply Hspawn; [exact Hev|exact Hs].
  - unfold allPlayers. rewrite Hst. now apply Forall_filter.
  - subst ev. apply Hspawn; [exact Hev|].
    unfold allPlayers. rewrite Hst. now apply Forall_filter.
Qed.

End ServerInvariantTheorems.

(** ** Connections, housekeeping and the tick's bookkeeping *)

Section Lifecycle.
Import Server Props Reach.

Lemma get_del_same {V : Type} (o : Obj.t V) k : Obj.get (Obj.del o k) k = None.
Proof.
  induction o as [|[k' v'] o IH]; simpl; [reflexivity|].
  destruct (String.eqb_spec k' k) as [->|Hne]; [exact IH|].
  simpl. destruct (String.eqb_spec k' k); [contradiction|exact IH].
Qed.

Lemma get_del_other {V : Type} (o : Obj.t V) k k' :
  k <> k' -> Obj.get (Obj.del o k) k' = Obj.get o k'.
Proof.
  intros Hne. induction o as [|[k0 v0] o IH]; simpl; [reflexivity|].
  destruct (String.eqb_spec k0 k) as [->|Hk]; simpl.
  - destruct (String.eqb_spec k k'); [contradiction|exact IH].
  - now rewrite IH.
Qed.

Lemma get_filter_iff {V : Type} (f : string * V -> bool) (o : Obj.t V) k v :
  Obj.wf o ->
  (Obj.get (filter f o) k = Some v
   <-> Obj.get o k = Some v /\ f (k, v) = true).
Proof.
  intros Hwf. split.
  - intros H. split; [now apply (get_filter f)|].
    apply get_some_in in H. now apply filter_In in H.
  - intros [H Hf]. apply in_get_some; [now apply wf_filter|].
    apply filter_In. split; [now apply get_some_in|exact Hf].
Qed.

(** X11: closing a connection removes its [sockets] entry and the player
    bound to it, and nothing else: other connections, other players, the
    coins and both queues stay as they are. *)
Theorem close_removes_connection_and_its_player (s : State) (ws : string) :
  Obj.get (sockets (onClose s ws)) ws = None
  /\ (forall ws', ws' <> ws ->
        Obj.get (sockets (onClose s ws)) ws' = Obj.get (sockets s) ws')
  /\ (forall pid,
        Obj.get (sockets s) ws = Some (Some pid) -> truthy pid = true ->
        Obj.get (players (onClose s ws)) pid = None)
  /\ (forall q,
        Obj.get (sockets s) ws <> Some (Some q) ->
        Obj.get (players (onClose s ws)) q = Obj.get (players s) q)
  /\ coins (onClose s ws) = coins s
  /\ incomingQueue (onClose s ws) = incomingQueue s
  /\ outgoingQueue (onClose s ws) = outgoingQueue s.
Proof.
  unfold onClose.
  destruct (Obj.get (sockets s) ws) as [[pid|]|] eqn:Hws;
    cbn [players set_sockets set_clients].
  - destruct (truthy pid) eqn:Htr; cbn [andb].
    + destruct (Obj.has (players s) pid) eqn:Hhas;
        cbn [players coins sockets incomingQueue outgoingQueue
             set_players set_sockets set_clients].
      * split; [apply get_del_same|].
        split; [intros ws' Hne; apply get_del_other; congruence|].
        split; [intros p [= <-] _; apply get_del_same|].
        split; [|repeat split].
        intros q Hq. apply get_del_other. congruence.
      * split; [apply get_del_same|].
        split; [intros ws' Hne; apply get_del_other; congruence|].
        split; [|repeat split].
        intros p [= <-] _. unfold Obj.has in Hhas.
        now destruct (Obj.get (players s) pid).
    + cbn [players coins sockets incomingQueue outgoingQueue set_sockets set_clients].
      split; [apply get_del_same|].
      split; [intros ws' Hne; apply get_del_other; congruence|].
      split; [|repeat split].
      intros p [= <-] Hp. congruence.
  - cbn [players coins sockets incomingQueue outgoingQueue set_sockets set_clients].
    split; [apply get_del_same|].
    split; [intros ws' Hne; apply get_del_other; congruence|].
    split; [discriminate|repeat split].
  - cbn [players coins sockets incomingQueue outgoingQueue set_sockets set_clients].
    split; [apply get_del_same|].
    split; [intros ws' Hne; apply get_del_other; congruence|].
    split; [discriminate|repeat split].
Qed.

(** X12: the sweep keeps exactly the players seen within the last 60000
    ms, unchanged, and drops every connection bound to a player it
    removes; unbound connections, coins and queues are not touched. *)
Theorem sweep_removes_exactly_the_stale (now : Z) (s : State) :
  Obj.wf (players s) ->
  (forall pid p,
     Obj.get (players (sweep now s)) pid = Some p
     <-> Obj.get (players s) pid = Some p /\ now - Player.lastSeen p <= 60000)
  /\ (forall ws pid p,
        In (ws, Some pid) (sockets (sweep now s)) ->
        Obj.get (players s) pid = Some p ->
        now - Player.lastSeen p <= 60000)
  /\ (forall ws pid,
        In (ws, Some pid) (sockets s) ->
        Obj.get (players (sweep now s)) pid <> None ->
        In (ws, Some pid) (sockets (sweep now s)))
  /\ (forall ws, In (ws, None) (sockets s) ->
                 In (ws, None) (sockets (sweep now s)))
  /\ coins (sweep now s) = coins s
  /\ incomingQueue (sweep now s) = incomingQueue s
  /\ outgoingQueue (sweep now s) = outgoingQueue s.
Proof.
  intros Hwf.
  cbn [sweep players coins sockets incomingQueue outgoingQueue
       set_players set_sockets set_clients].
  assert (Hfresh : forall p, negb (stale now p) = true
                             <-> now - Player.lastSeen p <= 60000).
  { intros p. unfold stale. rewrite negb_true_iff, Z.ltb_ge. tauto. }
  assert (Hgone : forall pid,
            existsb (String.eqb pid)
              (Obj.keys (filter (fun kp => stale now (snd kp)) (players s)))
            = true
            <-> exists p, Obj.get (players s) pid = Some p
                          /\ stale now p = true).
  { intros pid. rewrite existsb_exists. split.
    - intros [k [Hin Hk]]. apply String.eqb_eq in Hk. subst k.
      unfold Obj.keys in Hin. apply in_map_iff in Hin.
      destruct Hin as [[k p] [Hk Hin]]. simpl in Hk. subst k.
      apply filter_In in Hin. destruct Hin as [Hin Hst].
      exists p. split; [now apply in_get_some|exact Hst].
    - intros [p [Hg Hst]]. exists pid. split; [|apply String.eqb_refl].
      unfold Obj.keys. apply in_map_iff. exists (pid, p).
      split; [reflexivity|]. apply filter_In.
      split; [now apply get_some_in|exact Hst]. }
  split; [|split; [|split; [|split; [|repeat split]]]].
  - intros pid p. rewrite get_filter_iff by assumption. simpl.
    now rewrite Hfresh.
  - intros ws pid p Hin Hp. apply filter_In in Hin.
    destruct Hin as [_ Hkeep]. simpl in Hkeep.
    apply Hfresh. apply negb_true_iff. apply not_true_is_false.
    intros Hst. apply negb_true_iff in Hkeep.
    assert (Hex : existsb (String.eqb pid)
                    (Obj.keys (filter (fun kp => stale now (snd kp))
                                 (players s))) = true)
      by (apply Hgone; exists p; auto).
    congruence.
  - intros ws pid Hin Hsome. apply filter_In. split; [exact Hin|]. simpl.
    apply negb_true_iff. apply not_true_is_false. intros Hex.
    apply Hgone in Hex. destruct Hex as [p [Hp Hst]].
    destruct (Obj.get (filter _ (players s)) pid) as [p'|] eqn:Hg;
      [|now apply Hsome].
    apply get_filter_iff in Hg; [|assumption]. destruct Hg as [Hg Hf].
    simpl in Hf. rewrite Hp in Hg. injection Hg as ->.
    rewrite Hst in Hf. discriminate.
  - intros ws Hin. apply filter_In. split; [exact Hin|reflexivity].
Qed.

Lemma broadcast_queue e s :
  outgoingQueue (broadcastSnapshot e s)
  = outgoingQueue s
    ++ map (fun ws =>
              Queue.mkItem (now e + ONE_WAY_LATENCY + jitter e ws) ws
                (snapshot
                   (Snapshot.mk (serverTick s) (now e)
                      (map snapOf (Obj.values (players s)))
                      (Obj.values (coins s)))))
         (filter (isOpen s) (Obj.keys (clients s))).
Proof.
  unfold broadcastSnapshot.
  set (snap := Snapshot.mk _ _ _ _).
  generalize (Obj.keys (clients s)) as l.
  assert (G : forall l acc,
            outgoingQueue
              (fold_left
                 (fun acc ws =>
                    if isOpen s ws
                    then sendWithLatency e acc ws (snapshot snap) else acc)
                 l acc)
            = outgoingQueue acc
              ++ map (fun ws =>
                        Queue.mkItem (now e + ONE_WAY_LATENCY + jitter e ws)
                          ws (snapshot snap)) (filter (isOpen s) l)).
  { induction l as [|w l IH]; simpl; intros acc;
      [now rewrite app_nil_r|].
    rewrite IH. destruct (isOpen s w); [|reflexivity].
    cbn [outgoingQueue sendWithLatency set_outgoingQueue map].
    now rewrite <- app_assoc. }
  intros l. apply G.
Qed.

Lemma broadcast_sockets e s : sockets (broadcastSnapshot e s) = sockets s.
Proof.
  unfold broadcastSnapshot. apply fold_left_keeps.
  intros acc w. now destruct (isOpen s w).
Qed.

Lemma broadcast_serverTick e s :
  serverTick (broadcastSnapshot e s) = serverTick s.
Proof.
  unfold broadcastSnapshot. apply fold_left_keeps.
  intros acc w. now destruct (isOpen s w).
Qed.

Lemma broadcast_lastCoinSpawn e s :
  lastCoinSpawn (broadcastSnapshot e s) = lastCoinSpawn s.
Proof.
  unfold broadcastSnapshot. apply fold_left_keeps.
  intros acc w. now destruct (isOpen s w).
Qed.

Lemma broadcast_clients e s : clients (broadcastSnapshot e s) = clients s.
Proof.
  unfold broadcastSnapshot. apply fold_left_keeps.
  intros acc w. now destruct (isOpen s w).
Qed.

Lemma reachable_intentOk (t0 : Z) (evs : list Event) :
  allPlayers intentOk (players (run (init t0) evs)).
Proof.
  apply (run_all (fun _ => True) intentOk); try (now constructor).
  - intros e nm _. exists (Input.mk 0 (Some 0%R) (Some 0%R) None), 0%R, 0%R.
    simpl. repeat split; try lra; lia.
  - intros p last i dx dy seen [i0 [x0 [y0 [Hl0 [_ [_ [_ [_ H0]]]]]]]]
      Hl Hlt Hx Hy Bx By.
    exists i, dx, dy. simpl. repeat split; try tauto.
    rewrite Hl0 in Hl. injection Hl as ->. lia.
  - intros p [i [dx [dy H]]]. exists i, dx, dy.
    unfold movePlayer. destruct (displacement p). exact H.
  - intros p z [i [dx [dy H]]]. exists i, dx, dy. exact H.
  - apply Forall_forall. intros ev _. destruct ev; simpl; auto.
Qed.

(** X13: in every state the server reaches, a tick advances [serverTick]
    by one and, the broadcast rate being 1, queues behind what was queued
    one snapshot packet for every open connection of [wss.clients], in
    their order, and none for the others; all carry the same snapshot: the
    new tick, the time, the coins the tick leaves, and for every player
    the tick leaves, in table order, its id, name, position, score and the
    sequence number of its stored intent. *)
Theorem tick_queues_one_snapshot_per_connection
  (t0 : Z) (evs : list Event) (e : Env) :
  let s := run (init t0) evs in
  let s' := gameTick e s in
  serverTick s' = serverTick s + 1
  /\ sockets s' = sockets s
  /\ clients s' = clients s
  /\ incomingQueue s' = incomingQueue s
  /\ exists snap,
       outgoingQueue s'
       = outgoingQueue s
         ++ map (fun ws =>
                   Queue.mkItem (now e + ONE_WAY_LATENCY + jitter e ws) ws
                     (snapshot snap))
              (filter (fun ws => match Obj.get (clients s) ws with
                                 | Some true => true
                                 | _ => false
                                 end)
                 (Obj.keys (clients s)))
       /\ Snapshot.serverTick snap = serverTick s + 1
       /\ Snapshot.serverTime snap = now e
       /\ Snapshot.coins snap = map snd (coins s')
       /\ Forall2
            (fun kp sp =>
               SnapPlayer.id sp = Player.id (snd kp)
               /\ SnapPlayer.name sp = Player.name (snd kp)
               /\ SnapPlayer.x sp = Player.x (snd kp)
               /\ SnapPlayer.y sp = Player.y (snd kp)
               /\ SnapPlayer.score sp = Player.score (snd kp)
               /\ exists i, Player.lastInput (snd kp) = Some i
                            /\ SnapPlayer.lastInputSeq sp = Input.seq i)
            (players s') (Snapshot.players snap).
Proof.
  intros s s'.
  assert (Hmod : forall z, (z mod cfg.SNAPSHOT_BROADCAST_RATE =? 0) = true).
  { intros z. unfold cfg.SNAPSHOT_BROADCAST_RATE. now rewrite Z.mod_1_r. }
  assert (Hint : allPlayers intentOk (players s')).
  { pose proof (reachable_intentOk t0 (evs ++ [ev_tick e])) as H.
    unfold run in H. rewrite fold_left_app in H. exact H. }
  assert (Hsnap : forall ps : Obj.t Player.t,
            allPlayers intentOk ps ->
            Forall2
              (fun kp sp =>
                 SnapPlayer.id sp = Player.id (snd kp)
                 /\ SnapPlayer.name sp = Player.name (snd kp)
                 /\ SnapPlayer.x sp = Player.x (snd kp)
                 /\ SnapPlayer.y sp = Player.y (snd kp)
                 /\ SnapPlayer.score sp = Player.score (snd kp)
                 /\ exists i, Player.lastInput (snd kp) = Some i
                              /\ SnapPlayer.lastInputSeq sp = Input.seq i)
              ps (map snapOf (Obj.values ps))).
  { induction ps as [|[k p] ps IH]; intros Hall; [constructor|].
    inversion Hall as [|? ? Hp Hall']; subst. simpl.
    constructor; [|now apply IH].
    destruct Hp as [i [dx [dy [Hl _]]]]. simpl in Hl. simpl.
    repeat split. exists i. split; [exact Hl|]. unfold snapOf. simpl.
    now rewrite Hl. }
  subst s'. revert Hint. generalize s as st. clear s. intros s Hint.
  split; [|split; [|split; [|split; [apply gameTick_incomingQueue|]]]].
  - unfold gameTick. destruct (simulate _) as [[ps cs] picked].
    rewrite Hmod, broadcast_serverTick.
    destruct (_ <=? _); [|reflexivity].
    unfold maybeSpawnCoin. now destruct (_ <=? _)%nat.
  - unfold gameTick. destruct (simulate _) as [[ps cs] picked].
    rewrite Hmod, broadcast_sockets.
    destruct (_ <=? _); [|reflexivity].
    unfold maybeSpawnCoin. now destruct (_ <=? _)%nat.
  - unfold gameTick. destruct (simulate _) as [[ps cs] picked].
    rewrite Hmod, broadcast_clients.
    destruct (_ <=? _); [|reflexivity].
    unfold maybeSpawnCoin. now destruct (_ <=? _)%nat.
  - specialize (Hsnap _ Hint). revert Hsnap.
    unfold gameTick. destruct (simulate _) as [[ps cs] picked].
    rewrite Hmod, broadcast_queue, broadcast_players, broadcast_coins.
    destruct (_ <=? _).
    + unfold maybeSpawnCoin. destruct (_ <=? _)%nat; intros Hsnap;
        (eexists; split; [reflexivity|]);
        cbn [Snapshot.serverTick Snapshot.serverTime Snapshot.coins
             Snapshot.players];
        (split; [reflexivity|]); (split; [reflexivity|]);
        (split; [reflexivity|exact Hsnap]).
    + intros Hsnap. eexists. split; [reflexivity|].
      cbn [Snapshot.serverTick Snapshot.serverTime Snapshot.coins
           Snapshot.players].
      split; [reflexivity|]. split; [reflexivity|].
      split; [reflexivity|exact Hsnap].
Qed.

(** X14: a tick spawns at most one coin, and only when at least
    [COIN_SPAWN_INTERVAL_MS] have passed since [lastCoinSpawn], which it
    then sets to now even if the table is full and no coin is added;
    otherwise the coins left are those nobody picked. *)
Theorem tick_spawn_gate (e : Env) (s : State) :
  let left := expectedLeft (movePlayers (players s)) (coins s) in
  (now e - lastCoinSpawn s < COIN_SPAWN_INTERVAL_MS ->
   lastCoinSpawn (gameTick e s) = lastCoinSpawn s
   /\ coins (gameTick e s) = left)
  /\ (COIN_SPAWN_INTERVAL_MS <= now e - lastCoinSpawn s ->
      lastCoinSpawn (gameTick e s) = now e
      /\ ((MAX_COINS <= List.length left)%nat ->
          coins (gameTick e s) = left)
      /\ ((List.length left < MAX_COINS)%nat ->
          coins (gameTick e s)
          = Obj.set left (uuid e)
              (Coin.mk (uuid e) (rnd_x e * (MAP_W - 20 * 2) + 20)
                 (rnd_y e * (MAP_H - 20 * 2) + 20))))
  /\ (List.length (coins (gameTick e s)) <= S (List.length (coins s)))%nat.
Proof.
  cbv zeta.
  assert (Hmod : forall z, (z mod cfg.SNAPSHOT_BROADCAST_RATE =? 0) = true).
  { intros z. unfold cfg.SNAPSHOT_BROADCAST_RATE. now rewrite Z.mod_1_r. }
  assert (Hlen : (List.length
                    (expectedLeft (movePlayers (players s)) (coins s))
                  <= List.length (coins s))%nat).
  { unfold expectedLeft. apply filter_length_le. }
  unfold gameTick, simulate. cbn [players coins set_serverTick].
  destruct (resolveCoins _ _) as [[ps cs] picked] eqn:Hr.
  destruct (resolve_spec _ _ _ _ _ Hr) as [_ [_ Hleft]]. subst cs.
  rewrite Hmod, broadcast_lastCoinSpawn, broadcast_coins.
  cbn [lastCoinSpawn set_coins set_players set_serverTick].
  destruct (Z.leb_spec COIN_SPAWN_INTERVAL_MS (now e - lastCoinSpawn s))
    as [Hdue|Hearly].
  - unfold maybeSpawnCoin.
    cbn [coins set_lastCoinSpawn set_coins set_players].
    unfold Obj.keys. rewrite length_map.
    destruct (Nat.leb_spec MAX_COINS
                (List.length
                   (expectedLeft (movePlayers (players s)) (coins s))))
      as [Hfull|Hroom];
      cbn [coins lastCoinSpawn set_lastCoinSpawn set_coins set_players].
    + split; [intros; lia|]. split; [|lia].
      intros _. split; [reflexivity|]. split; [reflexivity|intros; lia].
    + split; [intros; lia|]. split.
      * intros _. split; [reflexivity|]. split; [intros; lia|reflexivity].
      * pose proof (length_set_le
                      (expectedLeft (movePlayers (players s)) (coins s))
                      (uuid e)
                      (Coin.mk (uuid e) (rnd_x e * (MAP_W - 20 * 2) + 20)
                         (rnd_y e * (MAP_H - 20 * 2) + 20))).
        lia.
  - cbn [coins lastCoinSpawn set_coins set_players].
    split; [intros _; split; reflexivity|]. split; [intros; lia|lia].
Qed.







End Lifecycle.

(** ** Client movement against server movement *)

Section MovementMore.
Import Server Props Reach.
Local Open Scope R_scope.

(** X16: client and server use one movement law: replaying a pending input
    advances the local position by exactly the displacement one server
    tick gives a player holding the same intent. *)
Theorem replay_step_equals_server_tick
  (pos : R * R) (i : Client.Pending.t) (p : Player.t) :
  intended p = (Client.Pending.dx i, Client.Pending.dy i) ->
  Client.replayOne pos i
  = (fst pos + fst (displacement p), snd pos + snd (displacement p)).
Proof.
  intros Hi. rewrite displacement_eq, Hi. cbn [fst snd].
  unfold Client.replayOne. destruct (unitDir _ _) as [nx ny]. cbn [fst snd].
  rewrite moveDist_val.
  unfold Client.PLAYER_SPEED, Client.CLIENT_SEND_RATE. f_equal; field.
Qed.

End MovementMore.

Section ClientToServer.
Import Server Props Reach.

Lemma climb_increasing : forall seqs n,
  StronglySorted Z.lt (n :: seqs) -> climb n seqs = seqs.
Proof.
  induction seqs as [|q seqs IH]; intros n Hs; [reflexivity|].
  inversion Hs as [|? ? Hs' Hall]; subst. inversion Hall; subst.
  simpl. destruct (Z.ltb_spec n q); [|lia]. f_equal. now apply IH.
Qed.

(** X17: the inputs a client holds as pending always carry strictly
    increasing sequence numbers, so a server whose stored sequence for
    that player is below the first of them accepts every one, in order. *)
Theorem server_accepts_all_pending_inputs
  (w h : R) (cevs : list Client.Event)
  (e : Env) (s : State) (ws pid : string) (p : Player.t) (last : Input.t) :
  let pending :=
    map Client.Pending.seq (Client.pendingInputs (Client.run (Client.init w h) cevs)) in
  Obj.get (sockets s) ws = Some (Some pid) ->
  truthy pid = true ->
  Obj.get (players s) pid = Some p ->
  Player.lastInput p = Some last ->
  Forall (fun q => Input.seq last < q) pending ->
  StronglySorted Z.lt pending
  /\ accepted e s ws pid pending = pending.
Proof.
  intros pending Hws Htr Hp Hl Hall.
  assert (Hs : StronglySorted Z.lt pending).
  { apply (run_ordered cevs (Client.init w h)). split; simpl; constructor. }
  split; [exact Hs|].
  rewrite (accepted_climb e ws pid pending s p last Hws Htr Hp Hl).
  apply climb_increasing. now constructor.
Qed.

End ClientToServer.

(** ** The client *)

Section ClientMoreFacts.
Import Client ClientProps ClientMore.

(** X18: in every state the client reaches, the input timer sends nothing
    and changes nothing unless the socket is open and the client has
    joined; otherwise it sends the held intent under the sequence number
    [inputSeq + 1], which is above that of every pending input, and
    appends the same input to [pendingInputs]. *)
Theorem input_timer_numbers_inputs_upward
  (w h : R) (evs : list Event) (now : Z) :
  let c := run (init w h) evs in
  let c' := snd (sendInput now c) in
  match fst (sendInput now c) with
  | None => c' = c /\ (wsOpen c = false \/ joined c = false)
  | Some m =>
      wsOpen c = true /\ joined c = true
      /\ m = msg_input (Some (inputSeq c + 1)) (Some (fst (currentInput c)))
               (Some (snd (currentInput c))) (Some now)
      /\ inputSeq c' = inputSeq c + 1
      /\ pendingInputs c'
         = pendingInputs c
           ++ [Pending.mk (inputSeq c + 1) (fst (currentInput c))
                 (snd (currentInput c)) now]
      /\ Forall (fun i => Pending.seq i < inputSeq c + 1) (pendingInputs c)
      /\ localState c' = localState c
  end.
Proof.
  intros c c'.
  assert (Hord : pendingOrdered c).
  { apply run_ordered. split; simpl; constructor. }
  subst c'. unfold sendInput.
  destruct (wsOpen c); cbn [negb]; [|simpl; auto].
  destruct (joined c); cbn [negb]; [|simpl; auto].
  destruct (currentInput c) as [dx dy]. cbn [fst snd].
  repeat split; try reflexivity.
  destruct Hord as [_ Hf]. eapply Forall_impl; [|exact Hf].
  simpl. intros; lia.
Qed.

(** X19: a prediction frame leaves the local position on the canvas,
    whatever the frame time and the held keys, and never touches the
    score, the pending inputs or the snapshot buffer; with no key held a
    position on the canvas stays where it is. *)
Theorem prediction_stays_on_canvas (dt : R) (c : State) :
  (0 <= fst (canvas c))%R -> (0 <= snd (canvas c))%R ->
  let c' := localPredictionStep dt c in
  (0 <= Local.x (localState c') <= fst (canvas c))%R
  /\ (0 <= Local.y (localState c') <= snd (canvas c))%R
  /\ Local.score (localState c') = Local.score (localState c)
  /\ pendingInputs c' = pendingInputs c
  /\ snapshotBuffer c' = snapshotBuffer c
  /\ (currentInput c = (0, 0)%R ->
      (0 <= Local.x (localState c) <= fst (canvas c))%R ->
      (0 <= Local.y (localState c) <= snd (canvas c))%R ->
      Local.x (localState c') = Local.x (localState c)
      /\ Local.y (localState c') = Local.y (localState c)).
Proof.
  intros Hw Hh. cbv zeta. unfold localPredictionStep.
  destruct (currentInput c) as [dx dy] eqn:Hin.
  destruct (unitDir dx dy) as [nx ny] eqn:Hu.
  cbn [localState pendingInputs snapshotBuffer canvas set_local
       Local.x Local.y Local.score].
  split; [now apply clamp_range|]. split; [now apply clamp_range|].
  split; [reflexivity|]. split; [reflexivity|]. split; [reflexivity|].
  intros [= -> ->] Hx Hy. rewrite unitDir_zero in Hu.
  injection Hu as <- <-.
  replace (Local.x (localState c) + 0 * PLAYER_SPEED * dt)%R
    with (Local.x (localState c)) by ring.
  replace (Local.y (localState c) + 0 * PLAYER_SPEED * dt)%R
    with (Local.y (localState c)) by ring.
  split; apply clamp_id; lra.
Qed.

Lemma evict_split (cutoff : Z) : forall buf,
  exists dropped,
    buf = dropped ++ evict cutoff buf
    /\ Forall (fun s => Snapshot.serverTime s < cutoff) dropped
    /\ match evict cutoff buf with
       | [] => True
       | s :: _ => cutoff <= Snapshot.serverTime s
       end.
Proof.
  induction buf as [|s buf [dropped [E [Hd Hh]]]]; simpl.
  - exists []. auto.
  - destruct (Z.ltb_spec (Snapshot.serverTime s) cutoff).
    + exists (s :: dropped). simpl. split; [now f_equal|].
      split; [now constructor|exact Hh].
    + exists []. simpl. auto.
Qed.

(** X20: storing a snapshot appends it and then drops the longest prefix
    of snapshots older than [now - SNAPSHOT_BUFFER_MS]: what stays begins
    with a snapshot inside the window (if anything stays), a snapshot
    inside the window is kept as the newest entry, and if times do not
    decrease along the buffer everything kept is inside the window. *)
Theorem pushSnapshot_evicts_old_prefix (now : Z) (c : State)
  (snap : Snapshot.t) :
  let cutoff := now - SNAPSHOT_BUFFER_MS in
  let buf' := snapshotBuffer (pushSnapshot now c snap) in
  exists dropped,
    snapshotBuffer c ++ [snap] = dropped ++ buf'
    /\ Forall (fun s => Snapshot.serverTime s < cutoff) dropped
    /\ match buf' with
       | [] => Snapshot.serverTime snap < cutoff
       | s :: _ => cutoff <= Snapshot.serverTime s
       end
    /\ (cutoff <= Snapshot.serverTime snap ->
        exists front, buf' = front ++ [snap])
    /\ (bufferOrdered (snapshotBuffer c ++ [snap]) ->
        Forall (fun s => cutoff <= Snapshot.serverTime s) buf')
    /\ pendingInputs (pushSnapshot now c snap) = pendingInputs c
    /\ localState (pushSnapshot now c snap) = localState c.
Proof.
  cbv zeta. unfold pushSnapshot. cbn [snapshotBuffer set_buffer
    pendingInputs localState].
  set (cutoff := now - SNAPSHOT_BUFFER_MS).
  destruct (evict_split cutoff (snapshotBuffer c ++ [snap]))
    as [dropped [E [Hd Hh]]].
  exists dropped. split; [exact E|]. split; [exact Hd|].
  split; [|split; [|split; [|split; reflexivity]]].
  - destruct (evict cutoff (snapshotBuffer c ++ [snap])) as [|s0 rest] eqn:Ev;
      [|exact Hh].
    rewrite app_nil_r in E. rewrite <- E in Hd.
    apply Forall_app in Hd. destruct Hd as [_ Hd]. now inversion Hd.
  - intros Hin.
    destruct (evict cutoff (snapshotBuffer c ++ [snap])) as [|s0 rest] eqn:Ev.
    + exfalso. rewrite app_nil_r in E. rewrite <- E in Hd.
      apply Forall_app in Hd. destruct Hd as [_ Hd]. inversion Hd; subst. lia.
    + destruct (@exists_last _ (s0 :: rest)) as [front [x Ex]];
        [discriminate|].
      rewrite Ex in E. rewrite app_assoc in E.
      apply app_inj_tail in E. destruct E as [_ <-]. now exists front.
  - intros Hord. unfold bufferOrdered in Hord. rewrite E in Hord.
    apply Sorted_StronglySorted in Hord; [|intros x y z; lia].
    clear E Hd. induction dropped as [|d dropped IH];
      simpl in Hord.
    + destruct (evict cutoff (snapshotBuffer c ++ [snap])) as [|s0 rest];
        [constructor|].
      inversion Hord as [|? ? _ Hall]; subst.
      constructor; [exact Hh|].
      eapply Forall_impl; [|exact Hall]. simpl. intros; lia.
    + inversion Hord; subst. now apply IH.
Qed.

Lemma findBracket_some (rt : Z) : forall buf a b,
  findBracket rt buf = Some (a, b) ->
  Snapshot.serverTime a <= rt <= Snapshot.serverTime b
  /\ exists pre post, buf = pre ++ a :: b :: post.
Proof.
  induction buf as [|x buf IH]; intros a b H; [discriminate|].
  destruct buf as [|y buf]; [discriminate|].
  cbn [findBracket] in H.
  destruct (Z.leb_spec (Snapshot.serverTime x) rt);
    destruct (Z.leb_spec rt (Snapshot.serverTime y)); cbn [andb] in H.
  - injection H as <- <-. split; [lia|]. now exists [], buf.
  - destruct (IH a b H) as [Hb [pre [post E]]].
    split; [exact Hb|]. exists (x :: pre), post. simpl. now f_equal.
  - destruct (IH a b H) as [Hb [pre [post E]]].
    split; [exact Hb|]. exists (x :: pre), post. simpl. now f_equal.
  - destruct (IH a b H) as [Hb [pre [post E]]].
    split; [exact Hb|]. exists (x :: pre), post. simpl. now f_equal.
Qed.

Lemma fraction_unit (rt : Z) (a b : Snapshot.t) :
  Snapshot.serverTime a <= rt <= Snapshot.serverTime b ->
  (0 <= fraction rt a b <= 1)%R.
Proof.
  intros [H1 H2]. unfold fraction.
  set (den := Z.max 1 (Snapshot.serverTime b - Snapshot.serverTime a)).
  assert (Hden : (1 <= IZR den)%R) by (apply IZR_le; unfold den; lia).
  assert (Hnum : (0 <= IZR (rt - Snapshot.serverTime a))%R)
    by (apply IZR_le; lia).
  assert (Hle : (IZR (rt - Snapshot.serverTime a) <= IZR den)%R)
    by (apply IZR_le; unfold den; lia).
  split.
  - apply Rmult_le_pos; [exact Hnum|].
    apply Rlt_le, Rinv_0_lt_compat. lra.
  - apply (Rmult_le_reg_r (IZR den)); [lra|].
    unfold Rdiv. rewrite Rmult_assoc, Rinv_l by lra. lra.
Qed.

Lemma findBracket_first (rt : Z) : forall buf a b,
  findBracket rt buf = Some (a, b) ->
  exists pre post,
    buf = pre ++ a :: b :: post
    /\ forall pre' a' b' post',
         buf = pre' ++ a' :: b' :: post' ->
         (List.length pre' < List.length pre)%nat ->
         ~ (Snapshot.serverTime a' <= rt <= Snapshot.serverTime b').
Proof.
  induction buf as [|x buf IH]; intros a b H; [discriminate|].
  destruct buf as [|y buf]; [discriminate|].
  cbn [findBracket] in H.
  destruct ((Snapshot.serverTime x <=? rt) && (rt <=? Snapshot.serverTime y))
    eqn:Hc.
  - injection H as <- <-. exists [], buf. split; [reflexivity|].
    intros pre' a' b' post' _ Hlt. cbn in Hlt. lia.
  - destruct (IH a b H) as [pre [post [E Hfirst]]].
    exists (x :: pre), post. split; [simpl; now f_equal|].
    intros pre' a' b' post' E' Hlt.
    destruct pre' as [|x' pre''].
    + cbn in E'. injection E' as <- <- _.
      intros [H1 H2].
      apply andb_false_iff in Hc. destruct Hc as [Hc|Hc];
        apply Z.leb_gt in Hc; lia.
    + cbn in E'. injection E' as _ E'.
      apply (Hfirst pre'' a' b' post' E'). cbn in Hlt. lia.
Qed.

(** X21: when the search loop finds a pair of snapshots, it is the first
    adjacent pair of the buffer whose times bracket the render time; the
    time fraction is [(renderTime - a.serverTime) / max(1, b.serverTime -
    a.serverTime)], lies in [[0, 1]], is 0 at the earlier time and 1 at a
    later one that differs; and an entity listed in both snapshots is
    shown at [lerp] of its two positions at that fraction, [lerp a b t]
    being [a + (b - a) * t]: at the earlier snapshot's position when the
    render time is that snapshot's, and in place on an axis along which it
    did not move. *)
Theorem interpolation_between_first_bracketing_pair
  (rt : Z) (buf : list Snapshot.t) (a b : Snapshot.t) :
  findBracket rt buf = Some (a, b) ->
  (exists pre post,
     buf = pre ++ a :: b :: post
     /\ forall pre' a' b' post',
          buf = pre' ++ a' :: b' :: post' ->
          (List.length pre' < List.length pre)%nat ->
          ~ (Snapshot.serverTime a' <= rt <= Snapshot.serverTime b'))
  /\ Snapshot.serverTime a <= rt <= Snapshot.serverTime b
  /\ fraction rt a b
     = (IZR (rt - Snapshot.serverTime a)
        / IZR (Z.max 1 (Snapshot.serverTime b - Snapshot.serverTime a)))%R
  /\ (0 <= fraction rt a b <= 1)%R
  /\ (rt = Snapshot.serverTime a -> fraction rt a b = 0%R)
  /\ (rt = Snapshot.serverTime b ->
      Snapshot.serverTime a < Snapshot.serverTime b ->
      fraction rt a b = 1%R)
  /\ (forall u v t : R, lerp u v t = (u + (v - u) * t)%R)
  /\ exists positions,
       getRemoteEntityPositions rt buf = Some positions
       /\ forall id pa pb,
            Obj.get (byId (Snapshot.players a)) id = Some pa ->
            Obj.get (byId (Snapshot.players b)) id = Some pb ->
            exists pos,
              Obj.get positions id = Some pos
              /\ Pos.x pos
                 = lerp (SnapPlayer.x pa) (SnapPlayer.x pb) (fraction rt a b)
              /\ Pos.y pos
                 = lerp (SnapPlayer.y pa) (SnapPlayer.y pb) (fraction rt a b)
              /\ (rt = Snapshot.serverTime a ->
                  Pos.x pos = SnapPlayer.x pa /\ Pos.y pos = SnapPlayer.y pa)
              /\ (SnapPlayer.x pa = SnapPlayer.x pb ->
                  Pos.x pos = SnapPlayer.x pa)
              /\ (SnapPlayer.y pa = SnapPlayer.y pb ->
                  Pos.y pos = SnapPlayer.y pa).
Proof.
  intros Hb.
  destruct (findBracket_some rt buf a b Hb) as [Hin _].
  pose proof (fraction_unit rt a b Hin) as Ht.
  assert (H0 : rt = Snapshot.serverTime a -> fraction rt a b = 0%R).
  { intros ->. unfold fraction. rewrite Z.sub_diag. unfold Rdiv.
    apply Rmult_0_l. }
  split; [exact (findBracket_first rt buf a b Hb)|].
  split; [exact Hin|]. split; [reflexivity|]. split; [exact Ht|].
  split; [exact H0|]. split.
  { intros -> Hlt. unfold fraction.
    rewrite Z.max_r by lia.
    apply Rinv_r. apply not_0_IZR. lia. }
  split; [reflexivity|].
  unfold getRemoteEntityPositions. rewrite Hb.
  destruct buf as [|s0 buf0]; [discriminate|].
  eexists. split; [reflexivity|].
  intros id pa pb Ha Hpb.
  exists (blend (byId (Snapshot.players a)) (byId (Snapshot.players b))
            (fraction rt a b) id).
  split.
  - rewrite (fold_set_get
               (blend (byId (Snapshot.players a)) (byId (Snapshot.players b))
                  (fraction rt a b))).
    rewrite existsb_eqb_in; [reflexivity|].
    apply uniq_in, in_app_iff. left.
    destruct (in_dec string_dec id (Obj.keys (byId (Snapshot.players a))))
      as [Hi|Hni]; [exact Hi|].
    apply get_none_keys in Hni. congruence.
  - unfold blend. rewrite Ha, Hpb. cbn [posOf Pos.x Pos.y].
    split; [reflexivity|]. split; [reflexivity|]. split; [|split].
    + intros E. rewrite (H0 E). unfold lerp. split; ring.
    + intros <-. unfold lerp. ring.
    + intros <-. unfold lerp. ring.
Qed.

Lemma fold_set_by {V : Type} (f : SnapPlayer.t -> V) (id : string) :
  forall ps (acc1 : Obj.t V) (acc2 : Obj.t SnapPlayer.t),
    Obj.get acc1 id = option_map f (Obj.get acc2 id) ->
    Obj.get
      (fold_left (fun m p => Obj.set m (SnapPlayer.id p) (f p)) ps acc1) id
    = option_map f
        (Obj.get
           (fold_left (fun m p => Obj.set m (SnapPlayer.id p) p) ps acc2) id).
Proof.
  induction ps as [|p ps IH]; simpl; intros acc1 acc2 H; [exact H|].
  apply IH. destruct (String.eqb_spec (SnapPlayer.id p) id) as [<-|Hne].
  - now rewrite !get_set_same.
  - now rewrite !get_set_other.
Qed.

(** X22: [getRemoteEntityPositions] returns null exactly on an empty
    buffer; and when no adjacent pair brackets the render time (always so
    with a single snapshot) it shows the entities of the newest buffered
    snapshot, each at the position that snapshot gives it. *)
Theorem fallback_shows_newest_snapshot (rt : Z) (buf : list Snapshot.t) :
  (getRemoteEntityPositions rt buf = None <-> buf = [])
  /\ (forall s0 rest,
        buf = s0 :: rest ->
        findBracket rt buf = None ->
        exists positions,
          getRemoteEntityPositions rt buf = Some positions
          /\ forall id,
               Obj.get positions id
               = option_map posOf
                   (Obj.get (byId (Snapshot.players (List.last buf s0))) id))
  /\ (forall a, findBracket rt [a] = None).
Proof.
  split; [|split].
  - split.
    + destruct buf as [|s0 rest]; [reflexivity|].
      unfold getRemoteEntityPositions.
      destruct (findBracket rt (s0 :: rest)) as [[a b]|]; discriminate.
    + intros ->. reflexivity.
  - intros s0 rest -> Hnone. unfold getRemoteEntityPositions.
    rewrite Hnone. eexists. split; [reflexivity|].
    intros id. unfold byId. now apply fold_set_by.
  - reflexivity.
Qed.

Lemma reconcile_keeps_identity c snap :
  joined (processSnapshotForReconciliation c snap) = joined c
  /\ myId (processSnapshotForReconciliation c snap) = myId c.
Proof.
  unfold processSnapshotForReconciliation.
  destruct (joined c) eqn:Hj; [|auto].
  destruct (myId c) as [me|] eqn:Hid; [|auto].
  destruct (truthy me); [|auto].
  destruct (findPlayer me _); [|auto].
  destruct (if Rlt_dec _ _ then _ else _). cbn. auto.
Qed.

Lemma step_keeps_identity_link c ev :
  (joined c = true <-> myId c <> None) ->
  (joined (step c ev) = true <-> myId (step c ev) <> None).
Proof.
  intros Hc. destruct ev as [| |tnow msg| | |]; cbn [step]; try exact Hc.
  - simpl. split; [discriminate|congruence].
  - destruct msg; cbn [handleServerMessage]; try exact Hc.
    + simpl. split; [discriminate|reflexivity].
    + destruct (reconcile_keeps_identity (pushSnapshot tnow c snap) snap)
        as [-> ->].
      exact Hc.
  - unfold sendInput. destruct (wsOpen c); [|exact Hc].
    cbn [negb]. destruct (negb (joined c)); [exact Hc|].
    destruct (currentInput c). exact Hc.
  - unfold localPredictionStep. destruct (currentInput c).
    destruct (unitDir _ _). exact Hc.
Qed.

(** X23: in every state the client reaches, [joined] is set exactly when
    [myId] holds an id. *)
Theorem joined_iff_has_id (w h : R) (evs : list Event) :
  let c := run (init w h) evs in
  joined c = true <-> myId c <> None.
Proof.
  cbv zeta. unfold run.
  assert (G : forall evs c,
            (joined c = true <-> myId c <> None) ->
            joined (fold_left step evs c) = true
            <-> myId (fold_left step evs c) <> None).
  { clear evs. induction evs as [|ev evs IH]; simpl; intros c Hc;
      [exact Hc|].
    apply IH. now apply step_keeps_identity_link. }
  apply G. simpl. split; [discriminate|congruence].
Qed.

Lemma dropConfirmed_idem ack : forall l,
  dropConfirmed ack (dropConfirmed ack l) = dropConfirmed ack l.
Proof.
  induction l as [|i l IH]; simpl; [reflexivity|].
  destruct (Pending.seq i <=? ack) eqn:E; [exact IH|].
  simpl. now rewrite E.
Qed.

(** X24: reconciling twice against the same snapshot gives the state that
    reconciling once gives: a repeated or duplicated snapshot causes no
    further correction. *)
Theorem reconciliation_is_idempotent (c : State) (snap : Snapshot.t) :
  processSnapshotForReconciliation
    (processSnapshotForReconciliation c snap) snap
  = processSnapshotForReconciliation c snap.
Proof.
  destruct (joined c) eqn:Hj.
  2: { assert (E : processSnapshotForReconciliation c snap = c)
         by (unfold processSnapshotForReconciliation; now rewrite Hj).
       rewrite E. exact E. }
  destruct (myId c) as [me|] eqn:Hid.
  2: { assert (E : processSnapshotForReconciliation c snap = c)
         by (unfold processSnapshotForReconciliation; now rewrite Hj, Hid).
       rewrite E. exact E. }
  destruct (truthy me) eqn:Htr.
  2: { assert (E : processSnapshotForReconciliation c snap = c)
         by (unfold processSnapshotForReconciliation;
             now rewrite Hj, Hid, Htr).
       rewrite E. exact E. }
  destruct (findPlayer me (Snapshot.players snap)) as [sp|] eqn:Hf.
  2: { assert (E : processSnapshotForReconciliation c snap = c)
         by (unfold processSnapshotForReconciliation;
             now rewrite Hj, Hid, Htr, Hf).
       rewrite E. exact E. }
  set (pend := dropConfirmed (SnapPlayer.lastInputSeq sp) (pendingInputs c)).
  set (dx := (SnapPlayer.x sp - Local.x (localState c))%R).
  set (dy := (SnapPlayer.y sp - Local.y (localState c))%R).
  assert (E : forall x' y',
            (if Rlt_dec 0.0001 (dx * dx + dy * dy)
             then replay (SnapPlayer.x sp, SnapPlayer.y sp) pend
             else (Local.x (localState c), Local.y (localState c)))
            = (x', y') ->
            processSnapshotForReconciliation c snap
            = set_local (set_pending c pend)
                (Local.mk x' y' (SnapPlayer.score sp)
                   (Local.name (localState c)))).
  { intros x' y' Hxy. unfold processSnapshotForReconciliation.
    rewrite Hj, Hid, Htr, Hf. fold pend dx dy. now rewrite Hxy. }
  destruct (if Rlt_dec 0.0001 (dx * dx + dy * dy)
            then replay (SnapPlayer.x sp, SnapPlayer.y sp) pend
            else (Local.x (localState c), Local.y (localState c)))
    as [x' y'] eqn:Hxy.
  rewrite (E x' y' eq_refl).
  unfold processSnapshotForReconciliation.
  cbn [joined myId pendingInputs localState set_local set_pending
       Local.x Local.y Local.name].
  rewrite Hj, Hid, Htr, Hf.
  replace (dropConfirmed (SnapPlayer.lastInputSeq sp) pend) with pend
    by (unfold pend; now rewrite dropConfirmed_idem).
  destruct (Rlt_dec 0.0001
              ((SnapPlayer.x sp - x') * (SnapPlayer.x sp - x')
               + (SnapPlayer.y sp - y') * (SnapPlayer.y sp - y')))
    as [Hfar2|Hnear2]; [|reflexivity].
  destruct (Rlt_dec 0.0001 (dx * dx + dy * dy)) as [Hfar|Hnear].
  - now rewrite Hxy.
  - injection Hxy as <- <-. fold dx dy in Hfar2. contradiction.
Qed.

End ClientMoreFacts.

(** ** Client frames at the server *)

Section RoundTrips.
Import Server Props Reach.


(** X26: a ping the client sends at [t0] comes back as one [pong] queued
    for the same connection, echoing [t0]; whenever the client receives
    it, at [t1], the round-trip time it computes is [t1 - t0].  The ping
    changes no player, coin or connection. *)
Theorem ping_round_trip
  (t0 t1 : Z) (c : Client.State) (e : Env) (s : State) (ws : string) :
  Client.wsOpen c = true ->
  exists m answer,
    ClientMore.pingTimer t0 c = Some m
    /\ outgoingQueue (handleClientMessage e s ws (Some m))
       = outgoingQueue s
         ++ [Queue.mkItem (now e + ONE_WAY_LATENCY + jitter e ws) ws answer]
    /\ ClientMore.rttOf t1 answer = Some (t1 - t0)
    /\ players (handleClientMessage e s ws (Some m)) = players s
    /\ coins (handleClientMessage e s ws (Some m)) = coins s
    /\ sockets (handleClientMessage e s ws (Some m)) = sockets s.
Proof.
  intros Hopen. unfold ClientMore.pingTimer, ClientMore.wsSend.
  rewrite Hopen. eexists. eexists.
  split; [reflexivity|]. split; [reflexivity|].
  split; [reflexivity|]. repeat split.
Qed.

End RoundTrips.

(** ** Tables keyed by id, and the join handshake *)

Section Keyed.
Import Server Props Reach.

Lemma Forall_set_entry {V : Type} (P : string * V -> Prop) (o : Obj.t V) k v :
  Forall P o -> P (k, v) -> Forall P (Obj.set o k v).
Proof.
  intros Ho Hv. induction o as [|[k' v'] o IH]; simpl.
  - now constructor.
  - inversion Ho; subst.
    destruct (String.eqb k' k); constructor; auto.
Qed.

Lemma handle_keyed e s ws msg :
  playersKeyed (players s) ->
  playersKeyed (players (handleClientMessage e s ws msg)).
Proof.
  intros [Hwf Hid]. destruct (handle_players_cases e s ws msg) as [E|[H|H]].
  2: destruct H as (nm & _ & E).
  3: destruct H as (pid & p & last & i & dx & dy & Hp & _ & _ & _ & _
                    & _ & _ & E).
  all: rewrite E.
  - now split.
  - split; [now apply wf_set|]. now apply Forall_set_entry.
  - split; [now apply wf_set|]. apply Forall_set_entry; [exact Hid|].
    simpl. apply get_some_in in Hp. rewrite Forall_forall in Hid.
    apply (Hid (pid, p) Hp).
Qed.

Lemma step_players_keyed s ev :
  playersKeyed (players s) -> playersKeyed (players (step s ev)).
Proof.
  intros H. pose proof H as [Hwf Hid]. destruct ev; cbn [step]; try exact H.
  - unfold onClose. destruct (Obj.get (sockets s) ws) as [[pid|]|];
      try exact H.
    cbn [players set_sockets set_clients]. destruct (_ && _); [|exact H].
    cbn [players set_players set_sockets set_clients].
    split; [now apply wf_del|]. rewrite del_as_filter.
    now apply Forall_filter.
  - unfold processIncomingQueue.
    destruct (Queue.drain now0 (incomingQueue s)) as [out rest].
    assert (G : forall items i s0,
              playersKeyed (players s0) ->
              playersKeyed (players (handleAll envs i s0 items))).
    { induction items as [|it items IH]; simpl; intros i s0 H0;
        [exact H0|].
      apply IH. now apply handle_keyed. }
    apply G. exact H.
  - unfold flushOutgoing. destruct (Queue.drain _ _). exact H.
  - rewrite gameTick_players.
    destruct (resolveCoins _ _) as [[ps cs] picked] eqn:Hr. simpl.
    destruct (resolve_spec _ _ _ _ _ Hr) as [Hsame _].
    pose proof (resolve_entries _ _ _ _ _ Hr) as H2.
    split.
    + unfold Obj.wf. now rewrite <- (samePos_keys _ _ Hsame), movePlayers_keys.
    + assert (Hm : Forall (fun kp => Player.id (snd kp) = fst kp)
                     (movePlayers (players s))).
      { unfold movePlayers. apply Forall_map. simpl.
        eapply Forall_impl; [|exact Hid]. intros [k p]. simpl.
        unfold movePlayer. now destruct (displacement p). }
      clear Hr Hsame.
      induction H2 as [|a b l l' [Hk [z Hz]] _ IH]; [constructor|].
      inversion Hm; subst. constructor; [|now apply IH].
      rewrite Hz, <- Hk. simpl. assumption.
  - cbn [players sweep set_players set_sockets set_clients].
    split; [now apply wf_filter|now apply Forall_filter].
  - now rewrite maybeSpawn_players.
Qed.

Lemma step_coins_keyed s ev :
  coinsKeyed (coins s) -> coinsKeyed (coins (step s ev)).
Proof.
  intros H. pose proof H as [Hwf Hid].
  assert (Hspawn : forall e st,
            coinsKeyed (coins st) -> coinsKeyed (coins (maybeSpawnCoin e st))).
  { intros e st [W I]. destruct (maybeSpawn_coins_cases e st) as [E|[_ E]];
      rewrite E; [now split|].
    split; [now apply wf_set|]. now apply Forall_set_entry. }
  assert (Hleft : forall st,
            coins st = expectedLeft (movePlayers (players s)) (coins s) ->
            coinsKeyed (coins st)).
  { intros st ->. unfold expectedLeft.
    split; [now apply wf_filter|now apply Forall_filter]. }
  destruct (step_coins_cases s ev) as [E|[[e [_ E]]|[e [st [_ [Hst [E|E]]]]]]];
    rewrite E; auto.
Qed.

(** X27: in every state the server reaches, the player table and the coin
    table hold one entry per key and every entry sits under its own id, so
    looking a player or a coin up by id finds that one. *)
Theorem tables_are_keyed_by_id (t0 : Z) (evs : list Event) :
  playersKeyed (players (run (init t0) evs))
  /\ coinsKeyed (coins (run (init t0) evs)).
Proof.
  split.
  - apply (run_invariant (fun _ => True)
             (fun s => playersKeyed (players s))).
    + intros s ev _. apply step_players_keyed.
    + apply Forall_forall. intros; exact I.
    + split; constructor.
  - apply (run_invariant (fun _ => True) (fun s => coinsKeyed (coins s))).
    + intros s ev _. apply step_coins_keyed.
    + apply Forall_forall. intros; exact I.
    + split; constructor.
Qed.

Lemma find_ack (o : Obj.t Player.t) (k : string) (p : Player.t) :
  Forall (fun kp => Player.id (snd kp) = fst kp) o ->
  Obj.get o k = Some p ->
  find (fun a => String.eqb (ack_id a) k) (map ackOf (Obj.values o))
  = Some (ackOf p).
Proof.
  induction o as [|[k0 p0] o IH]; simpl; intros Hid Hg; [discriminate|].
  inversion Hid as [|? ? H0 Hid']; subst. simpl in H0. rewrite H0.
  destruct (String.eqb k0 k); [now injection Hg as ->|].
  now apply IH.
Qed.

(** X28: the join handshake hands the server's state to the client: when a
    server whose table is keyed by id accepts a join, the [join_ack] it
    queues for that connection lists the new player, and a client that
    receives it takes the new id as [myId], is joined, and starts from the
    server's position, score 0 and name for that player. *)
Theorem join_ack_hands_over_the_player
  (e : Env) (s : State) (ws : string) (name : option string)
  (tnow : Z) (c : Client.State) :
  playersKeyed (players s) ->
  (List.length (Obj.keys (players s)) < cfg.MAX_PLAYERS)%nat ->
  let s' := handleClientMessage e s ws (Some (msg_join name)) in
  exists p ack,
    Obj.get (players s') (uuid e) = Some p
    /\ Player.score p = 0
    /\ outgoingQueue s'
       = outgoingQueue s
         ++ [Queue.mkItem (now e + ONE_WAY_LATENCY + jitter e ws) ws ack]
    /\ let c' := Client.handleServerMessage tnow c ack in
       Client.myId c' = Some (uuid e)
       /\ Client.joined c' = true
       /\ Client.Local.x (Client.localState c') = Player.x p
       /\ Client.Local.y (Client.localState c') = Player.y p
       /\ Client.Local.score (Client.localState c') = 0
       /\ Client.Local.name (Client.localState c') = Player.name p
       /\ Client.pendingInputs c' = Client.pendingInputs c.
Proof.
  intros [Hwf Hid] Hroom.
  assert (Hb : (cfg.MAX_PLAYERS <=? List.length (Obj.keys (players s)))%nat
               = false) by (apply Nat.leb_gt; exact Hroom).
  cbv zeta. unfold handleClientMessage. rewrite Hb.
  cbn [players coins outgoingQueue sendWithLatency set_outgoingQueue
       set_sockets set_players set_clients].
  match goal with
  | |- context [Obj.set (players s) (uuid e) ?p] => set (p0 := p)
  end.
  exists p0. eexists. split; [apply get_set_same|].
  split; [reflexivity|]. split; [reflexivity|].
  cbn [Client.handleServerMessage].
  rewrite (find_ack (Obj.set (players s) (uuid e) p0) (uuid e) p0).
  - cbn. repeat split.
  - apply Forall_set_entry; [exact Hid|reflexivity].
  - apply get_set_same.
Qed.

(** X29: frames that cannot be acted on change nothing at all: a frame
    that does not parse or has no type, a frame of unknown type, and an
    input from a connection that is unknown, has not joined, or whose
    player is gone; and such a frame does not keep [processIncomingQueue]
    from handling the frames behind it. *)
Theorem unusable_frames_change_nothing (e : Env) (s : State) (ws : string) :
  handleClientMessage e s ws None = s
  /\ handleClientMessage e s ws (Some msg_other) = s
  /\ (forall mseq mdx mdy mts,
        (Obj.get (sockets s) ws = None
         \/ Obj.get (sockets s) ws = Some None
         \/ exists pid, Obj.get (sockets s) ws = Some (Some pid)
                        /\ Obj.get (players s) pid = None) ->
        handleClientMessage e s ws (Some (msg_input mseq mdx mdy mts)) = s)
  /\ (forall envs i d items,
        handleAll envs i s (Queue.mkItem d ws None :: items)
        = handleAll envs (S i) s items).
Proof.
  split; [reflexivity|]. split; [reflexivity|]. split; [|reflexivity].
  intros mseq mdx mdy mts [H|[H|[pid [H Hp]]]];
    unfold handleClientMessage; rewrite H; try reflexivity.
  rewrite Hp. now destruct (truthy pid).
Qed.

End Keyed.

(** ** The further properties at sample inputs *)

Section MoreWitnesses.
Import Server Props Reach.

Lemma sample_envOk : envOk Sample.e0.
Proof.
  unfold envOk, Sample.e0. simpl. repeat split; try lra.
  all: unfold LATENCY_JITTER, cfg.LATENCY_JITTER_MS; lia.
Qed.

Lemma queued_packet_waits_one_way_latency_witness :
  fst (flushOutgoing 1100 (sendWithLatency Sample.e0 (init 0) "c1" (welcome 1000)))
  = fst (flushOutgoing 1100 (init 0)).
Proof.
  destruct (queued_packet_waits_one_way_latency
              Sample.e0 (init 0) "c1" (welcome 1000) 1100 sample_envOk)
    as [it [_ [_ [_ [_ H]]]]].
  - vm_compute. reflexivity.
  - exact H.
Defined.

Lemma players_always_in_bounds_witness :
  allPlayers inBounds
    (players
       (run (init 0)
          [ev_connection Sample.e0 "c1";
           ev_message Sample.e0 "c1" (Some (msg_join None));
           ev_processIncoming 1300 (fun _ => Sample.e0);
           ev_tick Sample.e0])).
Proof.
  apply players_always_in_bounds.
  repeat (apply Forall_cons;
          [first [exact sample_envOk | intros i; exact sample_envOk]|]).
  apply Forall_nil.
Defined.

Lemma coins_always_in_margin_witness :
  allPlayers coinInMargin
    (coins (run (init 0) [ev_cliSpawn Sample.e0; ev_tick Sample.e0])).
Proof.
  apply coins_always_in_margin.
  repeat (apply Forall_cons; [exact sample_envOk|]).
  apply Forall_nil.
Defined.

Lemma close_removes_connection_and_its_player_witness :
  Obj.get (players (onClose Sample.oneJoined "c1")) "p1" = None.
Proof.
  apply (proj1 (proj2 (proj2
           (close_removes_connection_and_its_player Sample.oneJoined "c1"))));
    reflexivity.
Defined.

Lemma sweep_removes_exactly_the_stale_witness :
  Obj.get (players (sweep 61001 Sample.oneJoined)) "p1" = None
  /\ Obj.get (players (sweep 61000 Sample.oneJoined)) "p1" = Some Sample.ann.
Proof.
  assert (W : Obj.wf (players Sample.oneJoined)).
  { repeat constructor; simpl; tauto. }
  split.
  - destruct (Obj.get (players (sweep 61001 Sample.oneJoined)) "p1")
      as [p|] eqn:E; [|reflexivity].
    apply (proj1 (sweep_removes_exactly_the_stale 61001 Sample.oneJoined W))
      in E.
    destruct E as [E1 E2]. injection E1 as <-. vm_compute in E2.
    exfalso. now apply E2.
  - apply (proj1 (sweep_removes_exactly_the_stale 61000 Sample.oneJoined W)).
    split; [reflexivity|]. vm_compute. discriminate.
Defined.

Lemma tick_spawn_gate_witness :
  lastCoinSpawn (gameTick Sample.e0 (init 0)) = 0
  /\ lastCoinSpawn (gameTick (mkEnv 2500 "k9" 0 0 (fun _ => 0)) (init 0))
     = 2500.
Proof.
  split.
  - apply (proj1 (tick_spawn_gate Sample.e0 (init 0))). vm_compute.
    reflexivity.
  - apply (proj1 (proj2 (tick_spawn_gate
                           (mkEnv 2500 "k9" 0 0 (fun _ => 0)) (init 0)))).
    vm_compute. discriminate.
Defined.

Lemma replay_step_equals_server_tick_witness :
  Client.replayOne (100, 100)%R (Client.Pending.mk 7 1 0 900)
  = ((100 + fst (displacement Sample.runner))%R,
     (100 + snd (displacement Sample.runner))%R).
Proof.
  apply (replay_step_equals_server_tick (100, 100)%R
           (Client.Pending.mk 7 1 0 900) Sample.runner).
  reflexivity.
Defined.

Lemma server_accepts_all_pending_inputs_witness :
  accepted Sample.e0 Sample.oneJoined "c1" "p1" [1; 2] = [1; 2].
Proof.
  apply (server_accepts_all_pending_inputs 800 600 Sample.clientEvents
           Sample.e0 Sample.oneJoined "c1" "p1" Sample.ann Sample.idle);
    try reflexivity.
  repeat constructor.
Defined.

Lemma prediction_stays_on_canvas_witness :
  (0 <= Client.Local.x
          (Client.localState
             (Client.localPredictionStep 10 (Client.init 800 600))) <= 800)%R.
Proof.
  apply (prediction_stays_on_canvas 10 (Client.init 800 600)); simpl; lra.
Defined.

Lemma pushSnapshot_evicts_old_prefix_witness :
  exists front,
    Client.snapshotBuffer
      (Client.pushSnapshot 650 (Client.init 800 600) Sample.ownSnapshot)
    = front ++ [Sample.ownSnapshot].
Proof.
  destruct (pushSnapshot_evicts_old_prefix 650 (Client.init 800 600)
              Sample.ownSnapshot) as [dropped [_ [_ [_ [H _]]]]].
  apply H. vm_compute. discriminate.
Defined.

Lemma interpolation_between_first_bracketing_pair_witness :
  exists positions pos,
    Client.getRemoteEntityPositions 1000
      [Snapshot.mk 1 1000 [SnapPlayer.mk "e1" "eve" 3 7 0 0] [];
       Snapshot.mk 2 1100 [SnapPlayer.mk "e1" "eve" 10 4 0 0] []]
    = Some positions
    /\ Obj.get positions "e1" = Some pos
    /\ Client.Pos.x pos = 3%R /\ Client.Pos.y pos = 7%R.
Proof.
  destruct (interpolation_between_first_bracketing_pair 1000
              [Snapshot.mk 1 1000 [SnapPlayer.mk "e1" "eve" 3 7 0 0] [];
               Snapshot.mk 2 1100 [SnapPlayer.mk "e1" "eve" 10 4 0 0] []]
              (Snapshot.mk 1 1000 [SnapPlayer.mk "e1" "eve" 3 7 0 0] [])
              (Snapshot.mk 2 1100 [SnapPlayer.mk "e1" "eve" 10 4 0 0] [])
              eq_refl)
    as [_ [_ [_ [_ [_ [_ [_ [positions [Hp Hall]]]]]]]]].
  destruct (Hall "e1"%string (SnapPlayer.mk "e1" "eve" 3 7 0 0)
              (SnapPlayer.mk "e1" "eve" 10 4 0 0) eq_refl eq_refl)
    as [pos [Hg [_ [_ [Hat _]]]]].
  exists positions, pos. split; [exact Hp|]. split; [exact Hg|].
  exact (Hat eq_refl).
Defined.

Lemma fallback_shows_newest_snapshot_witness :
  exists positions,
    Client.getRemoteEntityPositions 230 [Sample.ownSnapshot] = Some positions
    /\ forall id,
         Obj.get positions id
         = option_map Client.posOf
             (Obj.get (Client.byId (Snapshot.players Sample.ownSnapshot)) id).
Proof.
  apply (proj1 (proj2 (fallback_shows_newest_snapshot 230
                         [Sample.ownSnapshot]))
           Sample.ownSnapshot []);
    reflexivity.
Defined.


Lemma ping_round_trip_witness :
  exists m answer,
    ClientMore.pingTimer 5000 (Client.onOpen (Client.init 800 600)) = Some m
    /\ outgoingQueue (handleClientMessage Sample.e0 (init 0) "c1" (Some m))
       = outgoingQueue (init 0)
         ++ [Queue.mkItem
               (now Sample.e0 + ONE_WAY_LATENCY + jitter Sample.e0 "c1")
               "c1" answer]
    /\ ClientMore.rttOf 5400 answer = Some (5400 - 5000)
    /\ players (handleClientMessage Sample.e0 (init 0) "c1" (Some m))
       = players (init 0)
    /\ coins (handleClientMessage Sample.e0 (init 0) "c1" (Some m))
       = coins (init 0)
    /\ sockets (handleClientMessage Sample.e0 (init 0) "c1" (Some m))
       = sockets (init 0).
Proof.
  apply (ping_round_trip 5000 5400 (Client.onOpen (Client.init 800 600))
           Sample.e0 (init 0) "c1").
  reflexivity.
Defined.

Lemma join_ack_hands_over_the_player_witness :
  exists p ack,
    Obj.get
      (players (handleClientMessage Sample.e0 (init 0) "c1"
                  (Some (msg_join None))))
      (uuid Sample.e0) = Some p
    /\ Player.score p = 0
    /\ outgoingQueue
         (handleClientMessage Sample.e0 (init 0) "c1" (Some (msg_join None)))
       = outgoingQueue (init 0)
         ++ [Queue.mkItem
               (now Sample.e0 + ONE_WAY_LATENCY + jitter Sample.e0 "c1")
               "c1" ack]
    /\ let c' :=
         Client.handleServerMessage 300 (Client.init 800 600) ack in
       Client.myId c' = Some (uuid Sample.e0)
       /\ Client.joined c' = true
       /\ Client.Local.x (Client.localState c') = Player.x p
       /\ Client.Local.y (Client.localState c') = Player.y p
       /\ Client.Local.score (Client.localState c') = 0
       /\ Client.Local.name (Client.localState c') = Player.name p
       /\ Client.pendingInputs c'
          = Client.pendingInputs (Client.init 800 600).
Proof.
  apply (join_ack_hands_over_the_player Sample.e0 (init 0) "c1" None 300
           (Client.init 800 600)).
  - split; constructor.
  - vm_compute. lia.
Defined.

Lemma unusable_frames_change_nothing_witness :
  handleClientMessage Sample.e0 (init 0) "c1"
    (Some (msg_input (Some 3) None None None))
  = init 0.
Proof.
  apply (proj1 (proj2 (proj2
           (unusable_frames_change_nothing Sample.e0 (init 0) "c1")))).
  left. reflexivity.
Defined.

Lemma joined_iff_has_id_witness :
  Client.myId (Client.run (Client.init 800 600) Sample.clientEvents) <> None.
Proof.
  apply (proj1 (joined_iff_has_id 800 600 Sample.clientEvents)).
  reflexivity.
Defined.


End MoreWitnesses.
